(** * akiko-venusaur: geometric extraction and grid-inference engine

    A shallow embedding of [lib/app.ts], [lib/util.ts], [lib/svg.ts] and of
    the script parts of [Editor.svelte] and [+page.svelte], with the
    properties of the specification stated and proved over it.

    Numbers.  A JavaScript [number] is modelled by [num]: an exact rational,
    [+Infinity], [-Infinity] or [NaN].  Arithmetic on the finite part is
    exact (no rounding, overflow or underflow, no negative zero), and the
    special values follow IEEE 754: a non-zero number divided by zero is an
    infinity, [0/0] and [Infinity - Infinity] are [NaN], every comparison
    with [NaN] is false.

    Where a property would rest on that exactness, its statement carries
    the condition under which floating-point arithmetic agrees: a statement
    that reads the row of a name bounds it by 2^53, the range in which
    [parseInt] and [toString] of JavaScript are exact, and a statement
    about the sign of a computed value is made for values that are numbers,
    with what it needs of [Math.sqrt] as a hypothesis.

    Strings.  A JavaScript string is modelled by [string], a sequence of
    code units below 256.

    [Math.sqrt] and [Math.atan2], and the parsers of the packages
    [svg-parser] and [svg-path-parser], are not part of the repository: the
    functions that call them take them as parameters. *)

From Stdlib Require Import QArith Qabs Lqa ZArith NArith Lia.
From Stdlib Require Import List Bool Ascii String DecimalString DecimalN.
From Stdlib Require Import Permutation Sorted.
Import ListNotations.

Set Implicit Arguments.
Set Warnings "-notation-for-abbreviation,-register-all".

(** ** JavaScript numbers *)

Module Num.

Inductive num : Type :=
| Fin (q : Q)
| PInf
| NInf
| NaN.

Definition of_Z (z : Z) : num := Fin (inject_Z z).

Definition zero : num := Fin 0.
Definition one : num := Fin 1.
Definition Infinity : num := PInf.

Definition Qltb (a b : Q) : bool := negb (Qle_bool b a).

Definition neg (a : num) : num :=
  match a with
  | Fin q => Fin (- q)
  | PInf => NInf
  | NInf => PInf
  | NaN => NaN
  end.

Definition add (a b : num) : num :=
  match a, b with
  | NaN, _ | _, NaN => NaN
  | Fin p, Fin q => Fin (p + q)
  | PInf, NInf | NInf, PInf => NaN
  | PInf, _ | _, PInf => PInf
  | NInf, _ | _, NInf => NInf
  end.

Definition sub (a b : num) : num := add a (neg b).

(** The sign of a rational: [Gt] positive, [Eq] zero, [Lt] negative. *)
Definition Qsign (q : Q) : comparison := (0 ?= q)%Q.

Definition signed_inf (s : comparison) (positive : bool) : num :=
  match s with
  | Eq => NaN
  | Lt => if positive then PInf else NInf
  | Gt => if positive then NInf else PInf
  end.

Definition mul (a b : num) : num :=
  match a, b with
  | NaN, _ | _, NaN => NaN
  | Fin p, Fin q => Fin (p * q)
  | PInf, Fin q | Fin q, PInf => signed_inf (Qsign q) true
  | NInf, Fin q | Fin q, NInf => signed_inf (Qsign q) false
  | PInf, PInf | NInf, NInf => PInf
  | PInf, NInf | NInf, PInf => NInf
  end.

Definition div (a b : num) : num :=
  match a, b with
  | NaN, _ | _, NaN => NaN
  | Fin p, Fin q =>
      if Qeq_bool q 0 then signed_inf (Qsign p) true else Fin (p / q)
  | Fin _, PInf | Fin _, NInf => Fin 0
  | PInf, Fin q => if Qltb q 0 then NInf else PInf
  | NInf, Fin q => if Qltb q 0 then PInf else NInf
  | _, _ => NaN
  end.

(** [a < b] of JavaScript. *)
Definition ltb (a b : num) : bool :=
  match a, b with
  | NaN, _ | _, NaN => false
  | Fin p, Fin q => Qltb p q
  | NInf, Fin _ | NInf, PInf | Fin _, PInf => true
  | _, _ => false
  end.

(** [a > b] of JavaScript. *)
Definition gtb (a b : num) : bool := ltb b a.

(** [a <= b] of JavaScript. *)
Definition leb (a b : num) : bool :=
  match a, b with
  | NaN, _ | _, NaN => false
  | Fin p, Fin q => Qle_bool p q
  | NInf, _ | _, PInf => true
  | _, _ => false
  end.

(** [a === b] of JavaScript on numbers. *)
Definition eqb (a b : num) : bool :=
  match a, b with
  | Fin p, Fin q => Qeq_bool p q
  | PInf, PInf | NInf, NInf => true
  | _, _ => false
  end.

Definition is_nan (a : num) : bool :=
  match a with NaN => true | _ => false end.

(** [Math.max] and [Math.min] of two arguments. *)
Definition max (a b : num) : num :=
  match a, b with
  | NaN, _ | _, NaN => NaN
  | _, _ => if ltb a b then b else a
  end.

Definition min (a b : num) : num :=
  match a, b with
  | NaN, _ | _, NaN => NaN
  | _, _ => if ltb b a then b else a
  end.

Definition finite (a : num) : Prop :=
  match a with Fin _ => True | _ => False end.

(** [0 <= a] as a proposition: [a] is a finite non-negative number or
    [+Infinity]. *)
Definition nonneg (a : num) : Prop := leb zero a = true.

End Num.
Import Num.

Declare Scope num_scope.
Delimit Scope num_scope with num.
Bind Scope num_scope with num.
Infix "+" := add : num_scope.
Infix "-" := sub : num_scope.
Infix "*" := mul : num_scope.
Infix "/" := div : num_scope.
Infix "<?" := ltb : num_scope.
Infix "<=?" := leb : num_scope.

Local Open Scope string_scope.
Local Open Scope list_scope.
Local Open Scope num_scope.

(** ** The functions of the JavaScript library the code calls *)

(** [Math.sqrt] and [Math.atan2]. *)
Class MathLib : Type := {
  sqrt : num -> num;
  atan2 : num -> num -> num
}.

(** What the proofs below need of [Math.sqrt]: it never returns a number
    below zero. *)
Definition sqrt_nonneg `{MathLib} : Prop :=
  forall a : num, (sqrt a <? zero) = false.

(** Two more facts of [Math.sqrt]: the root of zero is zero, and the root of
    [NaN] is [NaN]. *)
Definition sqrt_special `{MathLib} : Prop :=
  (forall q : Q, (q == 0)%Q -> exists r : Q, sqrt (Fin q) = Fin r /\ (r == 0)%Q)
  /\ sqrt NaN = NaN.

(** ** lib/app.ts (src/unnamed/part_002) *)

Module Rect.
Record t : Type := mk { x : num; y : num; width : num; height : num }.
End Rect.
Notation Rect := Rect.t.

Definition rectScale (r : Rect) (s : num) : Rect :=
  {| Rect.x := Rect.x r * s;
     Rect.y := Rect.y r * s;
     Rect.width := Rect.width r * s;
     Rect.height := Rect.height r * s |}.

Definition clamp (x min max : num) : num :=
  if x <? min then min
  else if gtb x max then max
  else x.

Module Vector.
Record t : Type := mk { x : num; y : num }.
End Vector.
Notation Vector := Vector.t.

Section Geometry.
Context `{MathLib}.

Definition vectorMagnitude (v : Vector) : num :=
    sqrt (Vector.x v * Vector.x v + Vector.y v * Vector.y v).

Definition vectorNormalize (v : Vector) : Vector :=
    let m := vectorMagnitude v in
    {| Vector.x := Vector.x v / m; Vector.y := Vector.y v / m |}.

Definition vectorAdd (a b : Vector) : Vector :=
    {| Vector.x := Vector.x a + Vector.x b; Vector.y := Vector.y a + Vector.y b |}.

Definition vectorSub (a b : Vector) : Vector :=
    {| Vector.x := Vector.x a - Vector.x b; Vector.y := Vector.y a - Vector.y b |}.

Definition vectorScale (v : Vector) (s : num) : Vector :=
    {| Vector.x := s * Vector.x v; Vector.y := s * Vector.y v |}.

Definition vectorDot (a b : Vector) : num :=
    Vector.x a * Vector.x b + Vector.y a * Vector.y b.

Definition vectorDistance (a b : Vector) : num :=
    vectorMagnitude (vectorSub b a).

Definition vectorAngle (v : Vector) : num :=
    atan2 (Vector.y v) (Vector.x v).
End Geometry.

Module Segment.
Record t : Type := mk { start : Vector; end_ : Vector }.
End Segment.
Notation Segment := Segment.t.


Section SegmentDistance.
Context `{MathLib}.

Definition segmentLength (s : Segment) : num :=
    vectorDistance (Segment.start s) (Segment.end_ s).

Definition segmentClosestPoint (s : Segment) (p : Vector) : Vector :=
    let dir := vectorNormalize (vectorSub (Segment.end_ s) (Segment.start s)) in
    let mag := vectorDot (vectorSub p (Segment.start s)) dir in
    let offset := vectorScale dir (clamp mag zero (segmentLength s)) in
    vectorAdd (Segment.start s) offset.

Definition pointSegmentDistance (s : Segment) (p : Vector) : num :=
    vectorDistance p (segmentClosestPoint s p).
End SegmentDistance.

(** The four values of the [kind] field of an [Edge]. *)
Module Kind.
Inductive t : Type := top | right | bottom | left.
End Kind.
Notation Kind := Kind.t.

(** The tagged union [Edge]: a [top] or [bottom] edge carries a [width], a
    [left] or [right] edge a [height]. *)
Module Edge.
Inductive hkind : Type := top | bottom.
Inductive vkind : Type := left | right.

Inductive t : Type :=
  | horizontal (k : hkind) (x y width : num)
  | vertical (k : vkind) (x y height : num).

Definition kind (e : t) : Kind :=
    match e with
    | horizontal top _ _ _ => Kind.top
    | horizontal bottom _ _ _ => Kind.bottom
    | vertical left _ _ _ => Kind.left
    | vertical right _ _ _ => Kind.right
    end.

Definition x (e : t) : num :=
    match e with horizontal _ x _ _ | vertical _ x _ _ => x end.

Definition y (e : t) : num :=
    match e with horizontal _ _ y _ | vertical _ _ y _ => y end.
End Edge.
Notation Edge := Edge.t.

Definition edgeToSegment (e : Edge) : Segment :=
  match e with
  | Edge.horizontal _ x y width =>
      {| Segment.start := {| Vector.x := x; Vector.y := y |};
         Segment.end_ := {| Vector.x := x + width; Vector.y := y |} |}
  | Edge.vertical _ x y height =>
      {| Segment.start := {| Vector.x := x; Vector.y := y |};
         Segment.end_ := {| Vector.x := x; Vector.y := y + height |} |}
  end.

Definition edgeToHighlightDimensions (e : Edge) (thickness : num) : Rect :=
  match e with
  | Edge.horizontal Edge.top x y width =>
      {| Rect.x := x; Rect.y := y - thickness;
         Rect.width := width; Rect.height := thickness |}
  | Edge.horizontal Edge.bottom x y width =>
      {| Rect.x := x; Rect.y := y; Rect.width := width; Rect.height := thickness |}
  | Edge.vertical Edge.left x y height =>
      {| Rect.x := x - thickness; Rect.y := y;
         Rect.width := thickness; Rect.height := height |}
  | Edge.vertical Edge.right x y height =>
      {| Rect.x := x; Rect.y := y; Rect.width := thickness; Rect.height := height |}
  end.

(** *** Strings and regular expressions *)

Definition code (c : ascii) : N := N_of_ascii c.

Definition in_range (lo hi : ascii) (c : ascii) : bool :=
  ((code lo <=? code c) && (code c <=? code hi))%N.

(** [\d] *)
Definition is_digit (c : ascii) : bool := in_range "0" "9" c.

(** [\s], and what [trim] strips, among the code units below 256. *)
Definition is_space (c : ascii) : bool :=
  (in_range "009" "013" c || (code c =? 32) || (code c =? 160))%N.

Fixpoint all_chars (p : ascii -> bool) (s : string) : bool :=
  match s with
  | EmptyString => true
  | String c s' => p c && all_chars p s'
  end.

Definition digit_value (c : ascii) : N := (code c - code "0")%N.

Fixpoint digits_value (acc : N) (s : string) : N :=
  match s with
  | EmptyString => acc
  | String c s' =>
      if is_digit c then digits_value (10 * acc + digit_value c)%N s' else acc
  end.

(** [parseInt] on a string that starts with neither white space, a sign nor
    [0x]: the value of the longest prefix of decimal digits, [None] (for
    [NaN]) when there is none.  The value is the integer that the digits
    denote; [parseInt] of JavaScript returns that integer when it is at most
    2^53, and the nearest number that it can represent above. *)
Definition parseInt (s : string) : option N :=
  match s with
  | String c _ => if is_digit c then Some (digits_value 0 s) else None
  | EmptyString => None
  end.

(** [Number.prototype.toString] on a non-negative integer: its decimal
    representation, which is what JavaScript prints for every integer that
    it can represent below 10^21, those up to 2^53 among them. *)
Definition toString (n : N) : string := NilZero.string_of_uint (N.to_uint n).

(** [/^([a-h])(\d+)$/.exec(name)]: the two groups of the match. *)
Definition exec_cell_name (name : string) : option (string * string) :=
  match name with
  | String c rest =>
      if in_range "a" "h" c
         && negb (String.eqb rest "") && all_chars is_digit rest
      then Some (String c "", rest)
      else None
  | EmptyString => None
  end.

Module CellPosition.
Record t : Type := mk { column : string; row : N }.
End CellPosition.
Notation CellPosition := CellPosition.t.

Definition cellNameToCellPosition (name : string) : option CellPosition :=
  match exec_cell_name name with
  | None => None
  | Some (column, rowString) =>
      match parseInt rowString with
      | None => None
      | Some row => Some {| CellPosition.column := column; CellPosition.row := row |}
      end
  end.

Definition cellPositionToCellName (p : CellPosition) : string :=
  (CellPosition.column p ++ toString (CellPosition.row p))%string.

(** [a.column < b.column] on strings is the order of the code units; the
    rows are the natural numbers that [parseInt] returns. *)
Definition cellPositionCompare (a b : CellPosition) : num :=
  if String.ltb (CellPosition.column a) (CellPosition.column b) then of_Z (-1)
  else if String.ltb (CellPosition.column b) (CellPosition.column a) then of_Z 1
  else of_Z (Z.of_N (CellPosition.row a)) - of_Z (Z.of_N (CellPosition.row b)).

(** ** lib/util.ts (src/unnamed/part_003) *)

(** [Array.prototype.sort] with a comparison function: the sort is stable,
    and [comparefn a b > 0] puts [a] after [b]. *)
Section ArraySort.
Variable T : Type.
Variable comparefn : T -> T -> num.

Fixpoint sort_insert (a : T) (l : list T) : list T :=
    match l with
    | [] => [a]
    | b :: l' =>
        if gtb (comparefn a b) zero then b :: sort_insert a l' else a :: l
    end.

Definition Array_sort (l : list T) : list T := fold_right sort_insert [] l.
End ArraySort.

Definition sortByKeyCached (T : Type) (ts : list T) (getKey : T -> num) : list T :=
  let pairs := map (fun t => (getKey t, t)) ts in
  let pairs := Array_sort (fun a b => fst a - fst b) pairs in
  map snd pairs.

(** The body of the loop of [minByKey], on the pair of [minKey] and [bestT]. *)
Definition min_step (T : Type) (f : T -> num) (st : num * option T) (t : T)
  : num * option T :=
  let (minKey, bestT) := st in
  let key := f t in
  if gtb minKey key then (key, Some t) else (minKey, bestT).

Definition minByKey (T : Type) (ts : list T) (f : T -> num) : option T :=
  snd (fold_left (min_step f) ts (Infinity, None)).

(** The body of the loop of [maxByKey], on the pair of [maxKey] and [bestT]. *)
Definition max_step (T : Type) (f : T -> num) (st : num * option T) (t : T)
  : num * option T :=
  let (maxKey, bestT) := st in
  let key := f t in
  if maxKey <? key then (key, Some t) else (maxKey, bestT).

Definition maxByKey (T : Type) (ts : list T) (f : T -> num) : option T :=
  snd (fold_left (max_step f) ts (neg Infinity, None)).

(** [trim], [replaceAll(/\s+/g, " ")] and [split(" ")] of a string. *)
Fixpoint trimStart (s : string) : string :=
  match s with
  | String c s' => if is_space c then trimStart s' else s
  | EmptyString => EmptyString
  end.

Fixpoint trimEnd (s : string) : string :=
  match s with
  | String c s' =>
      let r := trimEnd s' in
      if is_space c && String.eqb r "" then EmptyString else String c r
  | EmptyString => EmptyString
  end.

Definition trim (s : string) : string := trimEnd (trimStart s).

Fixpoint collapse_spaces (in_run : bool) (s : string) : string :=
  match s with
  | String c s' =>
      if is_space c
      then if in_run then collapse_spaces true s'
           else String " " (collapse_spaces true s')
      else String c (collapse_spaces false s')
  | EmptyString => EmptyString
  end.

Definition replaceAll_spaces (s : string) : string := collapse_spaces false s.

Fixpoint split (sep : ascii) (s : string) : list string :=
  match s with
  | EmptyString => [EmptyString]
  | String c s' =>
      if Ascii.eqb c sep then EmptyString :: split sep s'
      else match split sep s' with
           | h :: t => String c h :: t
           | [] => [String c EmptyString]
           end
  end.

(** [Array.prototype.toSorted] with a comparison function that can throw:
    the sort of [Array_sort], with [None] when a comparison throws. *)
Section ArraySortThrowing.
Variable T : Type.
Variable comparefn : T -> T -> option num.

Fixpoint sort_insert_throwing (a : T) (l : list T) : option (list T) :=
  match l with
  | [] => Some [a]
  | b :: l' =>
      match comparefn a b with
      | None => None
      | Some c =>
          if gtb c zero
          then option_map (cons b) (sort_insert_throwing a l')
          else Some (a :: l)
      end
  end.

Fixpoint Array_toSorted (l : list T) : option (list T) :=
  match l with
  | [] => Some []
  | a :: l' =>
      match Array_toSorted l' with
      | None => None
      | Some sorted => sort_insert_throwing a sorted
      end
  end.
End ArraySortThrowing.

(** The class [Throttle].  JavaScript runs [call] and each turn of the
    [async] function [loop] to completion, one after the other, so an
    instance is a state machine: its fields, and the events [call t] and
    [wake], the moment the pending [await sleep(interval)] of the loop
    resumes.  The field [t] is [None] while it is [undefined].  What the
    callback [f] is called with is the output of a step. *)
Module Throttle.
Record state (T : Type) : Type :=
  mk { queued : bool; looping : bool; t : option T }.

Inductive event (T : Type) : Type :=
| call (v : T)
| wake.
Arguments wake {T}.

Section Steps.
Variable T : Type.

(** A [Throttle] after its constructor. *)
Definition new : state T := {| queued := false; looping := false; t := None |}.

(** The loop from the test of [while] to the next [await], or to its end. *)
Definition loop_turn (s : state T) : state T * list (option T) :=
  if queued s
  then ({| queued := false; looping := looping s; t := t s |}, [t s])
  else ({| queued := queued s; looping := false; t := t s |}, []).

(** [loop()] up to its first [await]. *)
Definition loop (s : state T) : state T * list (option T) :=
  loop_turn {| queued := queued s; looping := true; t := t s |}.

Definition step (s : state T) (e : event T) : state T * list (option T) :=
  match e with
  | call v =>
      let s := {| queued := true; looping := looping s; t := Some v |} in
      if negb (looping s) then loop s else (s, [])
  | wake =>
      (* a sleep is pending exactly while the loop is suspended *)
      if looping s then loop_turn s else (s, [])
  end.

(** The events of a session, with everything the callback was called
    with, in order. *)
Fixpoint run (s : state T) (es : list (event T)) : state T * list (option T) :=
  match es with
  | [] => (s, [])
  | e :: es' =>
      let (s1, out1) := step s e in
      let (s2, out2) := run s1 es' in
      (s2, out1 ++ out2)
  end.

(** The values handed to [call], in order, and the number of wakes. *)
Fixpoint submitted (es : list (event T)) : list T :=
  match es with
  | [] => []
  | call v :: es' => v :: submitted es'
  | wake :: es' => submitted es'
  end.

Fixpoint wakes (es : list (event T)) : nat :=
  match es with
  | [] => O
  | call _ :: es' => wakes es'
  | wake :: es' => S (wakes es')
  end.
End Steps.
End Throttle.

(** ** The packages svg-parser and svg-path-parser *)

(** A command of [svg-path-parser], with the fields the code reads. *)
Inductive Command : Type :=
| moveto (relative : bool) (x y : num)
| lineto (relative : bool) (x y : num)
| horizontal_lineto (relative : bool) (x : num)
| vertical_lineto (relative : bool) (y : num)
| closepath
| curveto
| smooth_curveto
| quadratic_curveto
| smooth_quadratic_curveto
| elliptical_arc.

(** The value of a property of an element: [string | number]. *)
Inductive PropertyValue : Type :=
| PString (s : string)
| PNumber (n : num).

(** A [Node] of [svg-parser]; a child of an element is a node or a string. *)
Inductive Node : Type :=
| TextNode
| ElementNode (tagName : option string)
              (properties : option (list (string * PropertyValue)))
              (children : list (Node + string)).

(** A [RootNode]: its [children] hold exactly one node. *)
Record RootNode : Type := { children0 : Node }.

Fixpoint property (key : string) (ps : list (string * PropertyValue))
  : option PropertyValue :=
  match ps with
  | [] => None
  | (k, v) :: ps' => if String.eqb k key then Some v else property key ps'
  end.

(** [parseFloat], [svgParser.parse] and [svgPathParser.parseSVG]; a parser
    that throws returns [None]. *)
Class Parsers : Type := {
  parseFloat : string -> num;
  svgParser_parse : string -> option RootNode;
  svgPathParser_parseSVG : string -> option (list Command)
}.

Definition tryParseFloat `{Parsers} (s : string) : option num :=
  let x := parseFloat s in
  if negb (is_nan x) then Some x else None.

(** ** lib/svg.ts (src/src/lib/svg.ts) *)

Definition elementNodeToPathD (tagName : option string)
    (properties : option (list (string * PropertyValue))) : option string :=
  match tagName, properties with
  | Some tag, Some ps =>
      if String.eqb tag "path" then
        match property "d" ps with
        | Some (PString d) => Some d
        | _ => None
        end
      else None
  | _, _ => None
  end.

Fixpoint getPathDs (n : Node) : list string :=
  match n with
  | TextNode => []
  | ElementNode tagName properties children =>
      match elementNodeToPathD tagName properties with
      | Some path => [path]
      | None =>
          flat_map (fun m => match m with
                             | inl m => getPathDs m
                             | inr _ => []
                             end) children
      end
  end.

Definition RIGHT : Vector := {| Vector.x := of_Z 1; Vector.y := of_Z 0 |}.
Definition DOWN : Vector := {| Vector.x := of_Z 0; Vector.y := of_Z 1 |}.
Definition LEFT : Vector := {| Vector.x := of_Z (-1); Vector.y := of_Z 0 |}.
Definition UP : Vector := {| Vector.x := of_Z 0; Vector.y := of_Z (-1) |}.

Definition THRESHOLD : num := of_Z 1 - Fin (1 # 1000).

Section PathToRects.
Context `{MathLib}.

  (** The centre of the points, as the loop of [pointsToRect] computes it. *)
Definition center_of (points : list Vector) : Vector :=
    vectorScale
      (fold_left vectorAdd points {| Vector.x := of_Z 0; Vector.y := of_Z 0 |})
      (of_Z 1 / of_Z 4).

  (** The points after [sortByKeyCached] in [pointsToRect]. *)
Definition sorted_points (points : list Vector) : list Vector :=
    let center := center_of points in
    sortByKeyCached points (fun p => vectorAngle (vectorSub p center)).

Definition pointsToRect (points : list Vector) : option Rect :=
    if negb (Nat.eqb (List.length points) 4) then None
    else
      match sorted_points points with
      | [tl; tr; br; bl] =>
          if (vectorDot (vectorNormalize (vectorSub tr tl)) RIGHT <? THRESHOLD)
             || (vectorDot (vectorNormalize (vectorSub br tr)) DOWN <? THRESHOLD)
             || (vectorDot (vectorNormalize (vectorSub bl br)) LEFT <? THRESHOLD)
             || (vectorDot (vectorNormalize (vectorSub tl bl)) UP <? THRESHOLD)
          then None
          else
            Some
              {| Rect.x := (Vector.x tl + Vector.x bl) / of_Z 2;
                 Rect.y := (Vector.y tl + Vector.y tr) / of_Z 2;
                 Rect.width :=
                   (Vector.x tr - Vector.x tl + Vector.x br - Vector.x bl) / of_Z 2;
                 Rect.height :=
                   (Vector.y bl - Vector.y tl + Vector.y br - Vector.y tr) / of_Z 2 |}
      | _ => None
      end.

  (** The variables of the loop of [pathToRects]. *)
Record PathState : Type := {
    rects : list Rect;
    points : list Vector;
    x : num;
    y : num
  }.

Definition initial : PathState :=
    {| rects := []; points := []; x := of_Z 0; y := of_Z 0 |}.

  (** The statements of [case "lineto"], which [case "moveto"] falls into. *)
Definition lineto_case (st : PathState) (relative : bool) (cx cy : num)
    : PathState :=
    let x' := if relative then x st + cx else cx in
    let y' := if relative then y st + cy else cy in
    {| rects := rects st;
       points := points st ++ [{| Vector.x := x'; Vector.y := y' |}];
       x := x'; y := y' |}.

  (** The statements of [case "closepath"], which [case "vertical lineto"]
      falls into. *)
Definition closepath_case (st : PathState) : PathState :=
    {| rects := match pointsToRect (points st) with
                | Some rect => rects st ++ [rect]
                | None => rects st
                end;
       points := [];
       x := x st; y := y st |}.

  (** One turn of the loop: [inr] is the state after the [break], [inl] the
      value of the [return] inside the loop. *)
Definition step (st : PathState) (command : Command)
    : list Rect + PathState :=
    match command with
    | moveto relative cx cy =>
        inr (lineto_case
               {| rects := rects st; points := []; x := x st; y := y st |}
               relative cx cy)
    | lineto relative cx cy => inr (lineto_case st relative cx cy)
    | horizontal_lineto relative cx =>
        let x' := if relative then x st + cx else cx in
        inr {| rects := rects st;
               points := points st ++ [{| Vector.x := x'; Vector.y := y st |}];
               x := x'; y := y st |}
    | vertical_lineto relative cy =>
        let y' := if relative then y st + cy else cy in
        inr (closepath_case
               {| rects := rects st;
                  points := points st ++ [{| Vector.x := x st; Vector.y := y' |}];
                  x := x st; y := y' |})
    | closepath => inr (closepath_case st)
    | curveto | smooth_curveto | quadratic_curveto
    | smooth_quadratic_curveto | elliptical_arc => inl (rects st)
    end.

Fixpoint run (st : PathState) (path : list Command) : list Rect :=
    match path with
    | [] => rects st
    | command :: path' =>
        match step st command with
        | inl result => result
        | inr st' => run st' path'
        end
    end.

Definition pathToRects (path : list Command) : list Rect := run initial path.
End PathToRects.

Section ParseSvg.
Context `{MathLib} `{Parsers}.

Fixpoint findRects_loop (ds : list string) (rects : list Rect)
    : option (list Rect) :=
    match ds with
    | [] => Some rects
    | d :: ds' =>
        match svgPathParser_parseSVG d with
        | None => None
        | Some path => findRects_loop ds' (rects ++ pathToRects path)
        end
    end.

Definition findRects (root : RootNode) : option (list Rect) :=
    findRects_loop (getPathDs (children0 root)) [].

  (** The value of [node.properties.viewBox] when the three tests of the
      first [if] of [getViewBox] pass. *)
Definition viewBox_string (root : RootNode) : option string :=
    match children0 root with
    | ElementNode _ (Some ps) _ =>
        match property "viewBox" ps with
        | Some (PString s) => Some s
        | _ => None
        end
    | _ => None
    end.

Definition viewBox_chunks (s : string) : list string :=
    split " " (replaceAll_spaces (trim s)).

Definition getViewBox (root : RootNode) : option Rect :=
    match viewBox_string root with
    | None => None
    | Some s =>
        match viewBox_chunks s with
        | [leftString; topString; rightString; bottomString] =>
            match tryParseFloat leftString, tryParseFloat topString,
                  tryParseFloat rightString, tryParseFloat bottomString with
            | Some left_, Some top_, Some right_, Some bottom_ =>
                Some {| Rect.x := left_; Rect.y := top_;
                        Rect.width := right_ - left_;
                        Rect.height := bottom_ - top_ |}
            | _, _, _, _ => None
            end
        | _ => None
        end
    end.

  (** The result of [parseSvg]. *)
Record Svg : Type := { svg_rects : list Rect; svg_width : num; svg_height : num }.

Definition parseSvg (svg : string) : option Svg :=
    match svgParser_parse svg with
    | None => None
    | Some root =>
        match findRects root with
        | None => None
        | Some rects =>
            match getViewBox root with
            | None => None
            | Some viewBox =>
                if negb (eqb (Rect.x viewBox) (of_Z 0))
                   || negb (eqb (Rect.y viewBox) (of_Z 0))
                then None
                else Some {| svg_rects := rects;
                             svg_width := Rect.width viewBox;
                             svg_height := Rect.height viewBox |}
            end
        end
    end.
End ParseSvg.

(** ** Editor.svelte (src/unnamed/part_000) *)

(** [cellCreatedCount] starts at 0 and is only ever incremented, and the
    [id] of a cell is a value of that counter: both are modelled by [N]. *)
Module Cell.
Record t : Type := mk { id : N; name : string; rect : Rect }.

Definition with_name (c : t) (s : string) : t :=
    {| id := id c; name := s; rect := rect c |}.
End Cell.
Notation Cell := Cell.t.

Module SelectedEdges.
Record t : Type := mk {
    top : option Edge;
    right : option Edge;
    bottom : option Edge;
    left : option Edge
  }.

  (** [selectedEdges[kind]] *)
Definition get (s : t) (kind : Kind) : option Edge :=
    match kind with
    | Kind.top => top s
    | Kind.right => right s
    | Kind.bottom => bottom s
    | Kind.left => left s
    end.

  (** [selectedEdges[kind] = e] *)
Definition set (s : t) (kind : Kind) (e : option Edge) : t :=
    match kind with
    | Kind.top => {| top := e; right := right s; bottom := bottom s; left := left s |}
    | Kind.right => {| top := top s; right := e; bottom := bottom s; left := left s |}
    | Kind.bottom => {| top := top s; right := right s; bottom := e; left := left s |}
    | Kind.left => {| top := top s; right := right s; bottom := bottom s; left := e |}
    end.

Definition empty : t :=
    {| top := None; right := None; bottom := None; left := None |}.
End SelectedEdges.
Notation SelectedEdges := SelectedEdges.t.

Record EditorState : Type := {
  svgUrl : string;
  svgWidth : num;
  svgHeight : num;
  edges : list Edge;
  highlightedEdge : option Edge;
  selectedEdges : SelectedEdges;
  cells : list Cell;
  cellCreatedCount : N
}.

(** The cell of the array [cells] at an index, with a new name: the
    assignment [c.name = s] through a reference to that cell. *)
Fixpoint assign_name (cells : list Cell) (i : nat) (s : string) : list Cell :=
  match cells, i with
  | [], _ => []
  | c :: cells', O => Cell.with_name c s :: cells'
  | c :: cells', S i' => c :: assign_name cells' i' s
  end.

(** The array [cells] with the index of each cell: a reference to a cell of
    the array is its index, with the cell as it is in the array. *)
Definition indexed (cells : list Cell) : list (nat * Cell) :=
  combine (seq 0 (List.length cells)) cells.

Section Editor.
Context `{MathLib}.
Variable viewScale : num.
Variable keepVerticalSelection : bool.

Definition getClosestSelectableEdge (app : EditorState) (p : Vector)
    : option Edge :=
    let predicate (kind : Kind) : bool :=
      match SelectedEdges.get (selectedEdges app) kind with
      | None => true
      | Some _ => false
      end in
    let es := filter (fun e => predicate (Edge.kind e)) (edges app) in
    match minByKey es (fun e => pointSegmentDistance (edgeToSegment e) p) with
    | None => None
    | Some e =>
        if pointSegmentDistance (edgeToSegment e) p <? of_Z 50 / viewScale
        then Some e
        else None
    end.

  (** The handler of [handleMouseMoveThrottled]; [pos] is the result of
      [mouseEventToCursorPosition]. *)
Definition handleMouseMove (editor : EditorState) (pos : option Vector)
    : EditorState :=
    {| svgUrl := svgUrl editor;
       svgWidth := svgWidth editor;
       svgHeight := svgHeight editor;
       edges := edges editor;
       highlightedEdge :=
         match pos with
         | None => None
         | Some pos => getClosestSelectableEdge editor pos
         end;
       selectedEdges := selectedEdges editor;
       cells := cells editor;
       cellCreatedCount := cellCreatedCount editor |}.

  (** Lines 110-119 of [handleClick]: the new cell, [count] being the
      counter after its increment. *)
Definition newCell (count : N) (top_ right_ bottom_ left_ : Edge) : Cell :=
    {| Cell.id := count;
       Cell.name := toString count;
       Cell.rect :=
         {| Rect.x := Edge.x right_;
            Rect.y := Edge.y bottom_;
            Rect.width := Edge.x left_ - Edge.x right_;
            Rect.height := Edge.y top_ - Edge.y bottom_ |} |}.

  (** Lines 121-128: the cells above [cell]. *)
Definition alignedAbove (cells : list Cell) (cell : Cell) : list Cell :=
    let centerX := Rect.x (Cell.rect cell) + Rect.width (Cell.rect cell) / of_Z 2 in
    let topY := Rect.y (Cell.rect cell) in
    filter
      (fun c =>
         (Rect.y (Cell.rect c) + Rect.height (Cell.rect c) <? topY)
         && (Rect.x (Cell.rect c) <=? centerX)
         && (centerX <=? Rect.x (Cell.rect c) + Rect.width (Cell.rect c)))
      cells.

  (** Lines 129-136: the name of the new cell after the look at the cell
      above it. *)
Definition inferName (cells : list Cell) (cell : Cell) : Cell :=
    let cellAbove :=
      maxByKey (alignedAbove cells cell)
               (fun c => Rect.y (Cell.rect c) + Rect.height (Cell.rect c)) in
    match cellAbove with
    | None => cell
    | Some cellAbove =>
        match cellNameToCellPosition (Cell.name cellAbove) with
        | None => cell
        | Some pos =>
            let pos := {| CellPosition.column := CellPosition.column pos;
                          CellPosition.row := (CellPosition.row pos + 1)%N |} in
            Cell.with_name cell (cellPositionToCellName pos)
        end
    end.

  (** [pos] is the result of [mouseEventToCursorPosition]. *)
Definition handleClick (editor : EditorState) (pos : option Vector)
    : EditorState :=
    match pos with
    | None => editor
    | Some pos =>
        match getClosestSelectableEdge editor pos with
        | None => editor
        | Some closest =>
            let selected :=
              SelectedEdges.set (selectedEdges editor) (Edge.kind closest)
                                (Some closest) in
            match SelectedEdges.top selected, SelectedEdges.right selected,
                  SelectedEdges.bottom selected, SelectedEdges.left selected with
            | Some top_, Some right_, Some bottom_, Some left_ =>
                let count := (cellCreatedCount editor + 1)%N in
                let cell := newCell count top_ right_ bottom_ left_ in
                let cell := inferName (cells editor) cell in
                {| svgUrl := svgUrl editor;
                   svgWidth := svgWidth editor;
                   svgHeight := svgHeight editor;
                   edges := edges editor;
                   highlightedEdge := None;
                   selectedEdges :=
                     {| SelectedEdges.top := None;
                        SelectedEdges.bottom := None;
                        SelectedEdges.left :=
                          if negb keepVerticalSelection then None else Some left_;
                        SelectedEdges.right :=
                          if negb keepVerticalSelection then None else Some right_ |};
                   cells := cells editor ++ [cell];
                   cellCreatedCount := count |}
            | _, _, _, _ =>
                {| svgUrl := svgUrl editor;
                   svgWidth := svgWidth editor;
                   svgHeight := svgHeight editor;
                   edges := edges editor;
                   highlightedEdge := highlightedEdge editor;
                   selectedEdges := selected;
                   cells := cells editor;
                   cellCreatedCount := cellCreatedCount editor |}
            end
        end
    end.

Definition with_cells (editor : EditorState) (cs : list Cell) : EditorState :=
    {| svgUrl := svgUrl editor;
       svgWidth := svgWidth editor;
       svgHeight := svgHeight editor;
       edges := edges editor;
       highlightedEdge := highlightedEdge editor;
       selectedEdges := selectedEdges editor;
       cells := cs;
       cellCreatedCount := cellCreatedCount editor |}.

  (** [cell] is the index in [editor.cells] of the cell of the call. *)
Definition handleCellDelete (editor : EditorState) (cell : nat) : EditorState :=
    if (cell <? List.length (cells editor))%nat
    then with_cells editor (firstn cell (cells editor) ++ skipn (S cell) (cells editor))
    else editor.

  (** Lines 170-177 of [handleCellNameInput]: the references to the cells
      below the cell [cell]. *)
Definition alignedBelow (cells : list Cell) (cell : Cell) : list (nat * Cell) :=
    let centerX := Rect.x (Cell.rect cell) + Rect.width (Cell.rect cell) / of_Z 2 in
    let bottomY := Rect.y (Cell.rect cell) + Rect.height (Cell.rect cell) in
    filter
      (fun ic =>
         let c := snd ic in
         (bottomY <? Rect.y (Cell.rect c))
         && (Rect.x (Cell.rect c) <=? centerX)
         && (centerX <=? Rect.x (Cell.rect c) + Rect.width (Cell.rect c)))
      (indexed cells).

  (** Lines 179-184: the loop over the sorted references, from the index
      [i] on. *)
Fixpoint renumber (pos : CellPosition) (i : N) (alignedCells : list (nat * Cell))
      (cells : list Cell) : list Cell :=
    match alignedCells with
    | [] => cells
    | (k, _) :: rest =>
        renumber pos (i + 1)%N rest
          (assign_name cells k
             (cellPositionToCellName
                {| CellPosition.column := CellPosition.column pos;
                   CellPosition.row := (CellPosition.row pos + i + 1)%N |}))
    end.

  (** [cell] is the index in [editor.cells] of the cell of the call: the
      each-block calls the handler with a cell of that array only. *)
Definition handleCellNameInput (editor : EditorState) (cell : nat)
      (value : string) : EditorState :=
    match nth_error (cells editor) cell with
    | None => editor
    | Some c =>
        let cells1 := assign_name (cells editor) cell value in
        match cellNameToCellPosition value with
        | None => with_cells editor cells1
        | Some pos =>
            let alignedCells := alignedBelow cells1 c in
            let alignedCells :=
              Array_sort
                (fun a b => Rect.y (Cell.rect (snd a)) - Rect.y (Cell.rect (snd b)))
                alignedCells in
            with_cells editor (renumber pos 0 alignedCells cells1)
        end
    end.
End Editor.

(** ** +page.svelte (src/unnamed/part_001) *)

(** Lines 39-46 of [handleSvgInput]: the edges of one rectangle. *)
Definition edges_of_rect (r : Rect) : list Edge :=
  let x := Rect.x r in
  let y := Rect.y r in
  let width := Rect.width r in
  let height := Rect.height r in
  let ratio := Num.max width height / Num.min width height in
  if ratio <? of_Z 11 then []
  else [ Edge.horizontal Edge.top x y width;
         Edge.horizontal Edge.bottom x (y + height) width;
         Edge.vertical Edge.left x y height;
         Edge.vertical Edge.right (x + width) y height ].

(** Lines 37-47: the loop over [svg.rects]. *)
Definition edges_of_rects (rects : list Rect) : list Edge :=
  flat_map edges_of_rect rects.

(** Lines 49-63: the editor of a freshly loaded document. *)
Definition new_editor (svgUrl : string) (svg : Svg) : EditorState :=
  {| svgUrl := svgUrl;
     svgWidth := svg_width svg;
     svgHeight := svg_height svg;
     edges := edges_of_rects (svg_rects svg);
     highlightedEdge := None;
     selectedEdges := SelectedEdges.empty;
     cells := [];
     cellCreatedCount := 0 |}.

(** The button that clears the selected edges. *)
Definition clearSelectedEdges (editor : EditorState) : EditorState :=
  {| svgUrl := svgUrl editor;
     svgWidth := svgWidth editor;
     svgHeight := svgHeight editor;
     edges := edges editor;
     highlightedEdge := highlightedEdge editor;
     selectedEdges := SelectedEdges.empty;
     cells := cells editor;
     cellCreatedCount := cellCreatedCount editor |}.

(** What [handleCopyOutput] does: the alert with the offending name, the
    failure of the [assert] in the comparison function, or the object that
    it hands to [JSON.stringify] and writes to the clipboard. *)
Inductive CopyOutput : Type :=
| alert (name : string)
| assertion_failed
| writeText (cellNameToRect : list (string * Rect)).

(** The first loop of [handleCopyOutput]: the name of the first cell whose
    name does not parse. *)
Fixpoint first_invalid_name (cells : list Cell) : option string :=
  match cells with
  | [] => None
  | c :: cells' =>
      match cellNameToCellPosition (Cell.name c) with
      | None => Some (Cell.name c)
      | Some _ => first_invalid_name cells'
      end
  end.

(** The comparison function of [toSorted]; [None] when its [assert]
    throws. *)
Definition compare_cells (a b : Cell) : option num :=
  match cellNameToCellPosition (Cell.name a),
        cellNameToCellPosition (Cell.name b) with
  | Some ap, Some bp => Some (cellPositionCompare ap bp)
  | _, _ => None
  end.

(** [o[key] = value] on an object whose keys are not array indices: the
    properties stay in the order of their first assignment. *)
Fixpoint object_set (o : list (string * Rect)) (key : string) (value : Rect)
  : list (string * Rect) :=
  match o with
  | [] => [(key, value)]
  | (k, v) :: o' =>
      if String.eqb k key then (k, value) :: o'
      else (k, v) :: object_set o' key value
  end.

(** [o[key]] *)
Fixpoint object_get (o : list (string * Rect)) (key : string) : option Rect :=
  match o with
  | [] => None
  | (k, v) :: o' => if String.eqb k key then Some v else object_get o' key
  end.

Definition handleCopyOutput (editor : EditorState) : CopyOutput :=
  match first_invalid_name (cells editor) with
  | Some name => alert name
  | None =>
      match Array_toSorted compare_cells (cells editor) with
      | None => assertion_failed
      | Some cells =>
          writeText
            (fold_left (fun o cell => object_set o (Cell.name cell) (Cell.rect cell))
                       cells [])
      end
  end.

(** The events of the editor of a loaded document: the handlers of
    Editor.svelte, each under the view scale and the setting of the check
    box at that moment, and the button that clears the selection. *)
Inductive Event : Type :=
| MouseMove (viewScale : num) (pos : option Vector)
| Click (viewScale : num) (keepVerticalSelection : bool) (pos : option Vector)
| CellDelete (cell : nat)
| CellNameInput (cell : nat) (value : string)
| ClearSelectedEdges.

Definition handle `{MathLib} (editor : EditorState) (e : Event) : EditorState :=
  match e with
  | MouseMove viewScale pos => handleMouseMove viewScale editor pos
  | Click viewScale keep pos => handleClick viewScale keep editor pos
  | CellDelete cell => handleCellDelete editor cell
  | CellNameInput cell value => handleCellNameInput editor cell value
  | ClearSelectedEdges => clearSelectedEdges editor
  end.

(** ** Instances to run the model on

    [Math.sqrt] rounded down to a multiple of [2^-52 / den], and for
    [Math.atan2] a rational angle that grows with the angle of the vector
    from [-2] (just below the negative x axis) to [2] (the negative x axis),
    which sorts points as [Math.atan2] does. *)

Definition Qsqrt_down (q : Q) : Q :=
  Z.sqrt (Qnum q * Zpos (Qden q) * 4 ^ 52) # (Qden q * 2 ^ 52).

Definition sqrt_ref (a : num) : num :=
  match a with
  | Fin q => if Qltb q 0 then NaN else Fin (Qsqrt_down q)
  | PInf => PInf
  | NInf | NaN => NaN
  end.

Definition angle_ref (y x : num) : num :=
  match y, x with
  | Fin y, Fin x =>
      let s := (Qabs x + Qabs y)%Q in
      if Qeq_bool s 0 then Fin 0
      else if Qle_bool 0 y then Fin (1 - x / s) else Fin (x / s - 1)
  | _, _ => NaN
  end.

Definition math_ref : MathLib := {| sqrt := sqrt_ref; atan2 := angle_ref |}.

Definition point (x y : Z) : Vector := {| Vector.x := of_Z x; Vector.y := of_Z y |}.

(** A frame from (10, 10) to (90, 90) drawn as four bars 2 thick, in a
    document of extent 100 by 100. *)
Definition frame_bars : list Rect :=
  [ {| Rect.x := of_Z 10; Rect.y := of_Z 10; Rect.width := of_Z 80; Rect.height := of_Z 2 |};
    {| Rect.x := of_Z 10; Rect.y := of_Z 88; Rect.width := of_Z 80; Rect.height := of_Z 2 |};
    {| Rect.x := of_Z 10; Rect.y := of_Z 10; Rect.width := of_Z 2; Rect.height := of_Z 80 |};
    {| Rect.x := of_Z 88; Rect.y := of_Z 10; Rect.width := of_Z 2; Rect.height := of_Z 80 |} ].

Definition frame_editor : EditorState :=
  new_editor "blob:frame"
    {| svg_rects := frame_bars; svg_width := of_Z 100; svg_height := of_Z 100 |}.

(** A column of two boxes: bars 2 thick at the heights 10, 49 and 88
    between two side bars. *)
Definition ladder_bars : list Rect :=
  [ {| Rect.x := of_Z 10; Rect.y := of_Z 10; Rect.width := of_Z 80; Rect.height := of_Z 2 |};
    {| Rect.x := of_Z 10; Rect.y := of_Z 49; Rect.width := of_Z 80; Rect.height := of_Z 2 |};
    {| Rect.x := of_Z 10; Rect.y := of_Z 88; Rect.width := of_Z 80; Rect.height := of_Z 2 |};
    {| Rect.x := of_Z 10; Rect.y := of_Z 10; Rect.width := of_Z 2; Rect.height := of_Z 80 |};
    {| Rect.x := of_Z 88; Rect.y := of_Z 10; Rect.width := of_Z 2; Rect.height := of_Z 80 |} ].

Definition ladder_editor : EditorState :=
  new_editor "blob:ladder"
    {| svg_rects := ladder_bars; svg_width := of_Z 100; svg_height := of_Z 100 |}.

(** The clicks of a session, each at a point of the image, with the view
    scale 1. *)
Definition clicks (keepVerticalSelection : bool) (editor : EditorState)
    (ps : list Vector) : EditorState :=
  fold_left
    (fun ed p => @handleClick math_ref (of_Z 1) keepVerticalSelection ed (Some p))
    ps editor.

(** ** Notions of the specification *)

(** The elongation of a rectangle: its longer side divided by its shorter
    side. *)
Definition elongation (r : Rect) : num :=
  Num.max (Rect.width r) (Rect.height r) / Num.min (Rect.width r) (Rect.height r).

(** The four edges of the bounding box of a rectangle. *)
Definition box_edges (r : Rect) : list Edge :=
  [ Edge.horizontal Edge.top (Rect.x r) (Rect.y r) (Rect.width r);
    Edge.horizontal Edge.bottom (Rect.x r) (Rect.y r + Rect.height r) (Rect.width r);
    Edge.vertical Edge.left (Rect.x r) (Rect.y r) (Rect.height r);
    Edge.vertical Edge.right (Rect.x r + Rect.width r) (Rect.y r) (Rect.height r) ].

(** The bottom coordinate and the horizontal centre of a cell. *)
Definition bottom_of (c : Cell) : num :=
  Rect.y (Cell.rect c) + Rect.height (Cell.rect c).

Definition center_x (c : Cell) : num :=
  Rect.x (Cell.rect c) + Rect.width (Cell.rect c) / of_Z 2.

(** The horizontal span of [c] contains the horizontal centre of [cell]. *)
Definition spans_center_of (cell c : Cell) : Prop :=
  (Rect.x (Cell.rect c) <=? center_x cell) = true
  /\ (center_x cell <=? Rect.x (Cell.rect c) + Rect.width (Cell.rect c)) = true.

(** [c] ends strictly above the top of [cell], in the column of [cell]. *)
Definition above (cell c : Cell) : Prop :=
  (bottom_of c <? Rect.y (Cell.rect cell)) = true /\ spans_center_of cell c.

(** [c] starts strictly below the bottom of [cell], in the column of
    [cell]. *)
Definition below (cell c : Cell) : Prop :=
  (bottom_of cell <? Rect.y (Cell.rect c)) = true /\ spans_center_of cell c.

(** [a] comes before [b] in a stable sort by ascending key of a list in
    which [first] relates each element to the later ones: the key of [b] is
    not below that of [a], and when neither key is below the other [a] is
    the one that came first. *)
Definition stably_before (T : Type) (key : T -> num) (first : T -> T -> Prop)
    (a b : T) : Prop :=
  (key b <? key a) = false /\ ((key a <? key b) = false -> first a b).

(** The centroid of four points: the mean of their coordinates, a quarter
    of their sum. *)
Definition centroid (ps : list Vector) : Vector :=
  {| Vector.x := of_Z 1 / of_Z 4 * fold_left add (map Vector.x ps) (of_Z 0);
     Vector.y := of_Z 1 / of_Z 4 * fold_left add (map Vector.y ps) (of_Z 0) |}.

(** The angle of a point around a centre. *)
Definition angle_around `{MathLib} (c p : Vector) : num :=
  atan2 (Vector.y p - Vector.y c) (Vector.x p - Vector.x c).

(** The angle around the centroid of the point at an index of the list. *)
Definition angle_at `{MathLib} (ps : list Vector) (i : nat) : num :=
  match nth_error ps i with
  | Some p => angle_around (centroid ps) p
  | None => NaN
  end.

(** The points in the order of ascending angle around their centroid,
    points at equal angles in the order in which they were given:
    [order] lists the indices of the points in that order. *)
Definition sorted_by_angle `{MathLib} (ps sorted : list Vector) : Prop :=
  exists order : list nat,
    Permutation order (seq 0 (List.length ps))
    /\ map (nth_error ps) order = map Some sorted
    /\ StronglySorted (stably_before (angle_at ps) lt) order.

(** The cosine similarity of the normalized direction of the side from [a]
    to [b] and a unit axis direction. *)
Definition similarity `{MathLib} (a b axis : Vector) : num :=
  vectorDot (vectorNormalize (vectorSub b a)) axis.

(** The points are not four, or one side of the four points sorted by
    angle has a similarity with its axis that is below 0.999. *)
Definition not_a_rectangle `{MathLib} (ps : list Vector) : Prop :=
  List.length ps <> 4%nat
  \/ exists tl tr br bl : Vector,
      sorted_by_angle ps [tl; tr; br; bl]
      /\ ((similarity tl tr RIGHT <? Fin (999 # 1000)) = true
          \/ (similarity tr br DOWN <? Fin (999 # 1000)) = true
          \/ (similarity br bl LEFT <? Fin (999 # 1000)) = true
          \/ (similarity bl tl UP <? Fin (999 # 1000)) = true).

(** The name that the loop of the renaming gives at the index [i]. *)
Definition numbered (pos : CellPosition) (i : N) : string :=
  cellPositionToCellName
    {| CellPosition.column := CellPosition.column pos;
       CellPosition.row := (CellPosition.row pos + i + 1)%N |}.

(** The name of the cell at an index of the array. *)
Definition name_at (cells : list Cell) (j : nat) : option string :=
  option_map Cell.name (nth_error cells j).

(** The top coordinate of the cell at an index of the array. *)
Definition top_at (cells : list Cell) (j : nat) : num :=
  match nth_error cells j with
  | Some c => Rect.y (Cell.rect c)
  | None => NaN
  end.

(** The order of the renumbering: by increasing top coordinate, and by
    position in the array for equal top coordinates. *)
Definition renumbered_before (cells : list Cell) (j j' : nat) : Prop :=
  stably_before (top_at cells) lt j j'.

(** The states of the editor of a document: the events are the handlers of
    Editor.svelte and the button that clears the selection, under any view
    scale and either setting of the check box. *)
Inductive reachable `{MathLib} : EditorState -> Prop :=
| reach_load (svgUrl : string) (svg : Svg) : reachable (new_editor svgUrl svg)
| reach_move (viewScale : num) (editor : EditorState) (pos : option Vector) :
    reachable editor -> reachable (handleMouseMove viewScale editor pos)
| reach_click (viewScale : num) (keep : bool) (editor : EditorState)
    (pos : option Vector) :
    reachable editor -> reachable (handleClick viewScale keep editor pos)
| reach_delete (editor : EditorState) (cell : nat) :
    reachable editor -> reachable (handleCellDelete editor cell)
| reach_name (editor : EditorState) (cell : nat) (value : string) :
    reachable editor -> reachable (handleCellNameInput editor cell value)
| reach_clear (editor : EditorState) :
    reachable editor -> reachable (clearSelectedEdges editor).

(** [a] need not come after [b]: the comparison function returns a number
    that is not above zero. *)
Definition sorts_before (T : Type) (comparefn : T -> T -> option num) (a b : T)
  : Prop :=
  exists c : num, comparefn a b = Some c /\ gtb c zero = false.

(** The order of the positions: by column, then by row. *)
Definition position_le (a b : CellPosition) : Prop :=
  String.ltb (CellPosition.column a) (CellPosition.column b) = true
  \/ (CellPosition.column a = CellPosition.column b
      /\ (CellPosition.row a <= CellPosition.row b)%N).

(** The names are labels, and the position of the first is not after that
    of the second. *)
Definition label_le (n1 n2 : string) : Prop :=
  exists p1 p2 : CellPosition,
    cellNameToCellPosition n1 = Some p1
    /\ cellNameToCellPosition n2 = Some p2
    /\ position_le p1 p2.

(** The rectangle of the last cell of the list that has the name. *)
Definition last_rect_named (cells : list Cell) (name : string) : option Rect :=
  List.last
    (map (fun c => Some (Cell.rect c))
         (filter (fun c => String.eqb (Cell.name c) name) cells))
    None.

(** A command that draws a curve: the commands at which [pathToRects]
    returns. *)
Definition is_curve (c : Command) : bool :=
  match c with
  | curveto | smooth_curveto | quadratic_curveto
  | smooth_quadratic_curveto | elliptical_arc => true
  | _ => false
  end.

(** The editor after a sequence of events. *)
Definition session `{MathLib} (editor : EditorState) (events : list Event)
  : EditorState :=
  fold_left handle events editor.

(** All four slots of the selection are filled. *)
Definition complete (s : SelectedEdges) : Prop :=
  SelectedEdges.top s <> None /\ SelectedEdges.right s <> None
  /\ SelectedEdges.bottom s <> None /\ SelectedEdges.left s <> None.

(** Each selected edge is an edge of the document in the slot of its kind,
    and the highlighted edge is an edge of the document. *)
Definition selection_ok (editor : EditorState) : Prop :=
  (forall (kind : Kind) (e : Edge),
      SelectedEdges.get (selectedEdges editor) kind = Some e ->
      Edge.kind e = kind /\ In e (edges editor))
  /\ (forall e : Edge, highlightedEdge editor = Some e -> In e (edges editor)).

(** The rectangle is the one that [handleClick] makes of four of the edges,
    one of each kind. *)
Definition spanned_by (es : list Edge) (r : Rect) : Prop :=
  exists top_ right_ bottom_ left_ : Edge,
    (In top_ es /\ Edge.kind top_ = Kind.top)
    /\ (In right_ es /\ Edge.kind right_ = Kind.right)
    /\ (In bottom_ es /\ Edge.kind bottom_ = Kind.bottom)
    /\ (In left_ es /\ Edge.kind left_ = Kind.left)
    /\ r = {| Rect.x := Edge.x right_;
              Rect.y := Edge.y bottom_;
              Rect.width := Edge.x left_ - Edge.x right_;
              Rect.height := Edge.y top_ - Edge.y bottom_ |}.

(** The ids of the cells increase along the list, from 1 up to the
    counter at most. *)
Definition ids_ok (editor : EditorState) : Prop :=
  StronglySorted N.lt (map Cell.id (cells editor))
  /\ Forall (fun n => (1 <= n <= cellCreatedCount editor)%N)
            (map Cell.id (cells editor)).

(** The length that an edge carries: its width or its height. *)
Definition edge_length (e : Edge) : num :=
  match e with
  | Edge.horizontal _ _ _ width => width
  | Edge.vertical _ _ _ height => height
  end.

(** An edge at a finite place whose length is zero. *)
Definition zero_length (e : Edge) : Prop :=
  finite (Edge.x e) /\ finite (Edge.y e) /\ eqb (edge_length e) zero = true.

(** The words of a string: its maximal runs of characters that are not
    white space, in order. *)
Fixpoint words (s : string) : list string :=
  match s with
  | EmptyString => []
  | String c s' =>
      if is_space c then words s'
      else match s' with
           | EmptyString => [String c EmptyString]
           | String c' _ =>
               if is_space c' then String c EmptyString :: words s'
               else match words s' with
                    | w :: ws => String c w :: ws
                    | [] => [String c EmptyString]
                    end
           end
  end.

(** The string is not empty and its last character is not white space. *)
Fixpoint ends_nonspace (s : string) : bool :=
  match s with
  | EmptyString => false
  | String c s' =>
      match s' with
      | EmptyString => negb (is_space c)
      | String _ _ => ends_nonspace s'
      end
  end.

(** The data string of a node of the type [path] that carries one. *)
Definition path_data (n : Node) : option string :=
  match n with
  | ElementNode (Some tag) (Some properties) _ =>
      if String.eqb tag "path"
      then match property "d" properties with
           | Some (PString d) => Some d
           | _ => None
           end
      else None
  | _ => None
  end.

(** The nodes of a document in the order of the document, each with its
    ancestors, the nearest first. *)
Fixpoint nodes_in_order (ancestors : list Node) (n : Node) : list (list Node * Node) :=
  (ancestors, n)
  :: match n with
     | TextNode => []
     | ElementNode _ _ children =>
         flat_map (fun c => match c with
                            | inl m => nodes_in_order (n :: ancestors) m
                            | inr _ => []
                            end) children
     end.

(** The data of a node when it is a path node none of whose ancestors is
    one: the first path node of its branch. *)
Definition first_path_data (e : list Node * Node) : list string :=
  match path_data (snd e) with
  | Some d =>
      if forallb (fun a => match path_data a with Some _ => false | None => true end)
                 (fst e)
      then [d] else []
  | None => []
  end.

(** The path data of the document: those of the first path node of each
    branch, in the order of the document. *)
Definition first_paths (n : Node) : list string :=
  flat_map first_path_data (nodes_in_order [] n).

(** The root element declares the extent [s]. *)
Definition declares_extent (root : RootNode) (s : string) : Prop :=
  exists tagName properties children,
    children0 root = ElementNode tagName (Some properties) children
    /\ property "viewBox" properties = Some (PString s).

Section DocumentFailures.
Context `{Parsers}.

(** The markup of the document does not parse. *)
Definition markup_unparsable (svg : string) : Prop :=
  svgParser_parse svg = None.

(** The string parses as a number. *)
Definition parseable (s : string) : Prop := is_nan (parseFloat s) = false.

(** The path data of the first path node of some branch does not parse
    into commands. *)
Definition path_data_unparsable (root : RootNode) : Prop :=
  exists d : string,
    In d (first_paths (children0 root)) /\ svgPathParser_parseSVG d = None.

(** The document declares no extent. *)
Definition extent_absent (root : RootNode) : Prop :=
  forall s : string, ~ declares_extent root s.

(** The declared extent is four numbers: it has four words, and each parses
    as a number. *)
Definition four_numbers (s : string) (l t r b : num) : Prop :=
  exists ls ts rs bs : string,
    words s = [ls; ts; rs; bs]
    /\ parseable ls /\ parseable ts /\ parseable rs /\ parseable bs
    /\ l = parseFloat ls /\ t = parseFloat ts
    /\ r = parseFloat rs /\ b = parseFloat bs.

(** The declared extent is not four parseable numbers. *)
Definition extent_malformed (root : RootNode) : Prop :=
  exists s : string,
    declares_extent root s
    /\ ~ exists l t r b : num, four_numbers s l t r b.

(** The origin of the declared extent is not exactly (0, 0). *)
Definition extent_off_origin (root : RootNode) : Prop :=
  exists (s : string) (l t r b : num),
    declares_extent root s
    /\ four_numbers s l t r b
    /\ ~ (eqb l (of_Z 0) = true /\ eqb t (of_Z 0) = true).
End DocumentFailures.

(** A document with a path node inside a path node, and the parsers at the
    strings of that document: the markup is
    [<svg viewBox="0 0 10 10"><path d="M0 0"><path d="?"/></path></svg>]. *)
Definition nested_document : RootNode :=
  {| children0 :=
       ElementNode (Some "svg") (Some [("viewBox", PString "0 0 10 10")])
         [inl (ElementNode (Some "path") (Some [("d", PString "M0 0")])
                 [inl (ElementNode (Some "path") (Some [("d", PString "?")]) [])])] |}.

Definition nested_parsers : Parsers :=
  {| parseFloat := fun s =>
       if String.eqb s "0" then of_Z 0
       else if String.eqb s "10" then of_Z 10 else NaN;
     svgParser_parse := fun _ => Some nested_document;
     svgPathParser_parseSVG := fun d =>
       if String.eqb d "M0 0" then Some [moveto false (of_Z 0) (of_Z 0)] else None |}.

(** ** Properties of the numbers *)

Lemma Qltb_lt (a b : Q) : Qltb a b = true <-> (a < b)%Q.
Proof.
  unfold Qltb. rewrite negb_true_iff.
  split; intro Hab.
  - apply Qnot_le_lt. intro Hle. apply Qle_bool_iff in Hle. congruence.
  - destruct (Qle_bool b a) eqn:E; [|reflexivity].
    apply Qle_bool_iff in E. exfalso. exact (Qlt_not_le _ _ Hab E).
Qed.

Lemma Qltb_ge (a b : Q) : Qltb a b = false <-> (b <= a)%Q.
Proof.
  unfold Qltb. rewrite negb_false_iff. apply Qle_bool_iff.
Qed.

Lemma ltb_irrefl (a : num) : (a <? a) = false.
Proof.
  destruct a as [q | | |]; simpl; try reflexivity.
  apply Qltb_ge. apply Qle_refl.
Qed.

Lemma ltb_trans (a b c : num) :
  (a <? b) = true -> (b <? c) = true -> (a <? c) = true.
Proof.
  destruct a as [p | | |], b as [q | | |], c as [r | | |]; simpl;
    try discriminate; try reflexivity.
  rewrite !Qltb_lt. apply Qlt_trans.
Qed.

Lemma ltb_fin (p q : Q) : (Fin p <? Fin q) = true <-> (p < q)%Q.
Proof. apply Qltb_lt. Qed.

Lemma leb_fin (p q : Q) : (Fin p <=? Fin q) = true <-> (p <= q)%Q.
Proof. apply Qle_bool_iff. Qed.

(** The test [a - b > 0] of a comparison function is the test [b < a]. *)
Lemma sub_gt_zero (a b : num) : gtb (a - b) zero = (b <? a).
Proof.
  unfold gtb, sub, zero.
  destruct a as [p | | |], b as [q | | |]; simpl; try reflexivity.
  destruct (Qltb q p) eqn:E.
  - apply Qltb_lt in E. apply Qltb_lt. lra.
  - apply Qltb_ge in E. apply Qltb_ge. lra.
Qed.

(** Numbers that are not [NaN] are totally ordered by [<]. *)
Lemma ltb_false_trans (a b c : num) :
  is_nan b = false ->
  (b <? a) = false -> (c <? b) = false -> (c <? a) = false.
Proof.
  destruct a as [p | | |], b as [q | | |], c as [r | | |]; cbn [is_nan ltb];
    try discriminate; try reflexivity.
  rewrite !Qltb_ge. intros _ H1 H2. lra.
Qed.

Lemma not_below_Infinity (a b : num) : (a <? Infinity) = false -> (a <? b) = false.
Proof. destruct a, b; cbn; congruence. Qed.

Lemma below_Infinity_not_nan (a : num) : (a <? Infinity) = true -> is_nan a = false.
Proof. destruct a; cbn; congruence. Qed.

Lemma leb_not_ltb (a b : num) : (a <=? b) = true -> (b <? a) = false.
Proof.
  destruct a as [p | | |], b as [q | | |]; cbn [leb ltb]; try congruence.
  rewrite Qle_bool_iff, Qltb_ge. auto.
Qed.

(** ** Properties of util.ts *)

Section ArraySortFacts.
Variable T : Type.
Variable comparefn : T -> T -> num.

Lemma sort_insert_perm (a : T) (l : list T) :
    Permutation (sort_insert comparefn a l) (a :: l).
Proof.
    induction l as [|b l IH]; cbn [sort_insert].
    - apply Permutation_refl.
    - destruct (gtb (comparefn a b) zero).
      + apply perm_trans with (b :: a :: l).
        * apply perm_skip. exact IH.
        * apply perm_swap.
      + apply Permutation_refl.
Qed.

Lemma Array_sort_perm (l : list T) : Permutation (Array_sort comparefn l) l.
Proof.
    induction l as [|a l IH]; cbn [Array_sort fold_right].
    - apply perm_nil.
    - apply perm_trans with (a :: Array_sort comparefn l).
      + apply sort_insert_perm.
      + apply perm_skip. exact IH.
Qed.

Lemma Array_sort_length (l : list T) :
    List.length (Array_sort comparefn l) = List.length l.
Proof. apply Permutation_length. apply Array_sort_perm. Qed.
End ArraySortFacts.

Lemma ltb_asym (a b : num) : (a <? b) = true -> (b <? a) = false.
Proof.
  intro Hab. destruct (b <? a) eqn:Hba; [|reflexivity].
  pose proof (ltb_trans _ _ _ Hab Hba) as Hc. rewrite ltb_irrefl in Hc. discriminate.
Qed.

Lemma ltb_not_nan_r (a b : num) : (a <? b) = true -> is_nan b = false.
Proof. destruct a, b; cbn; congruence. Qed.

Section StableSort.
Variable T : Type.
Variable key : T -> num.
Variable first : T -> T -> Prop.

Lemma sort_insert_stable (a : T) (l : list T) :
  is_nan (key a) = false ->
  Forall (fun x => is_nan (key x) = false) l ->
  Forall (first a) l ->
  StronglySorted (stably_before key first) l ->
  StronglySorted (stably_before key first) (sort_insert (fun a b => key a - key b) a l).
Proof.
  intros Ha. induction l as [|b l IH]; intros Hnan Hfirst Hsorted; cbn [sort_insert].
  - constructor; constructor.
  - rewrite sub_gt_zero.
    inversion Hnan as [|? ? Hb Hnan']; subst.
    inversion Hfirst as [|? ? Hab Hfirst']; subst.
    inversion Hsorted as [|? ? Hsorted' Hall]; subst.
    destruct (key b <? key a) eqn:E.
    + constructor; [apply IH; assumption|].
      apply (Permutation_Forall (Permutation_sym (sort_insert_perm (fun a b => key a - key b) a l))).
      constructor; [|exact Hall].
      split; [apply ltb_asym; exact E | congruence].
    + constructor; [exact Hsorted|].
      constructor; [split; [exact E | intros _; exact Hab]|].
      rewrite Forall_forall in *. intros x Hx.
      split; [|intros _; apply Hfirst'; exact Hx].
      apply ltb_false_trans with (b := key b); [exact Hb | exact E|].
      apply (Hall x Hx).
Qed.

Lemma Array_sort_stable (l : list T) :
  Forall (fun x => is_nan (key x) = false) l ->
  StronglySorted first l ->
  StronglySorted (stably_before key first) (Array_sort (fun a b => key a - key b) l).
Proof.
  induction l as [|a l IH]; intros Hnan Hsorted; cbn [Array_sort fold_right].
  - constructor.
  - inversion Hnan as [|? ? Ha Hnan']; subst.
    inversion Hsorted as [|? ? Hsorted' Hall]; subst.
    pose proof (Permutation_sym (Array_sort_perm (fun a b => key a - key b) l)) as Hperm.
    apply sort_insert_stable.
    + exact Ha.
    + apply (Permutation_Forall Hperm). exact Hnan'.
    + apply (Permutation_Forall Hperm). exact Hall.
    + apply IH; assumption.
Qed.
End StableSort.

Lemma StronglySorted_filter (A : Type) (R : A -> A -> Prop) (f : A -> bool)
    (l : list A) :
  StronglySorted R l -> StronglySorted R (filter f l).
Proof.
  induction 1 as [|a l Hs IH Hall]; cbn [filter]; [constructor|].
  destruct (f a); [|exact IH].
  constructor; [exact IH|].
  rewrite Forall_forall in *. intros x Hx. apply Hall.
  apply filter_In in Hx. tauto.
Qed.

Lemma StronglySorted_map_In (A B : Type) (R : A -> A -> Prop) (R' : B -> B -> Prop)
    (f : A -> B) (l : list A) :
  (forall a b, In a l -> In b l -> R a b -> R' (f a) (f b)) ->
  StronglySorted R l -> StronglySorted R' (map f l).
Proof.
  intros Himp Hs. induction Hs as [|a l Hs IH Hall]; cbn [map]; [constructor|].
  constructor.
  - apply IH. intros x y Hx Hy. apply Himp; right; assumption.
  - rewrite Forall_forall in *. intros y Hy.
    apply in_map_iff in Hy. destruct Hy as (x & <- & Hx).
    apply Himp; [left; reflexivity | right; exact Hx | apply Hall; exact Hx].
Qed.

Lemma sortByKeyCached_perm (T : Type) (ts : list T) (getKey : T -> num) :
  Permutation (sortByKeyCached ts getKey) ts.
Proof.
  unfold sortByKeyCached.
  apply perm_trans with (map snd (map (fun t => (getKey t, t)) ts)).
  - apply Permutation_map. apply Array_sort_perm.
  - rewrite map_map. cbn [snd]. rewrite map_id. apply Permutation_refl.
Qed.

Lemma StronglySorted_any (A : Type) (l : list A) :
  StronglySorted (fun _ _ : A => True) l.
Proof.
  induction l as [|a l IH]; constructor; [exact IH|].
  rewrite Forall_forall. intros; exact I.
Qed.

(** [sortByKeyCached] sorts by ascending key, when no key is [NaN]. *)
Lemma sortByKeyCached_ascending (T : Type) (ts : list T) (getKey : T -> num) :
  Forall (fun t => is_nan (getKey t) = false) ts ->
  StronglySorted (fun a b => (getKey b <? getKey a) = false)
                 (sortByKeyCached ts getKey).
Proof.
  intro Hnan. unfold sortByKeyCached.
  set (pairs := map (fun t => (getKey t, t)) ts).
  assert (Hpairs : forall p, In p pairs -> fst p = getKey (snd p)).
  { intros p Hp. apply in_map_iff in Hp. destruct Hp as (t & <- & _). reflexivity. }
  pose proof (Array_sort_perm (fun a b : num * T => fst a - fst b) pairs) as Hperm.
  apply StronglySorted_map_In
    with (R := stably_before (fun p : num * T => fst p) (fun _ _ => True)).
  - intros a b Ha Hb [Hle _].
    rewrite <- (Hpairs a), <- (Hpairs b); [exact Hle | |];
      eapply Permutation_in; eassumption.
  - apply (@Array_sort_stable _ (fun p : num * T => fst p) (fun _ _ => True)).
    + rewrite Forall_forall in *. intros p Hp. rewrite (Hpairs p Hp).
      apply Hnan. apply in_map_iff in Hp. destruct Hp as (t & <- & Ht). exact Ht.
    + apply StronglySorted_any.
Qed.

Section ByKey.
Variable T : Type.
Variable f : T -> num.

  (** The loop of [minByKey] from any state: the final key is below or
      equal to the first one, no element seen is below it, and the result is
      either the first one or an element seen whose key is the final key. *)
Lemma min_loop (ts : list T) (k : num) (b : option T) :
    let st := fold_left (min_step f) ts (k, b) in
    ((fst st <? k) = true \/ fst st = k)
    /\ (forall t, In t ts -> (f t <? fst st) = false)
    /\ ((snd st = b /\ fst st = k)
        \/ exists t, snd st = Some t /\ In t ts /\ f t = fst st
                     /\ (fst st <? k) = true).
Proof.
    revert k b. induction ts as [|a ts IH]; intros k b; cbn [fold_left].
    - split; [right; reflexivity|]. split; [intros t []|]. left; split; reflexivity.
    - replace (min_step f (k, b) a)
        with (if f a <? k then (f a, Some a) else (k, b)) by reflexivity.
      destruct (f a <? k) eqn:E.
      + destruct (IH (f a) (Some a)) as (Hm & Hall & Hres).
        set (st := fold_left (min_step f) ts (f a, Some a)) in *.
        assert (Hk : (fst st <? k) = true).
        { destruct Hm as [Hm | Hm]; [eapply ltb_trans; eauto | rewrite Hm; exact E]. }
        split; [left; exact Hk|]. split.
        * intros t [<- | Ht]; [|apply Hall; exact Ht].
          destruct Hm as [Hm | Hm]; [|rewrite Hm; apply ltb_irrefl].
          destruct (f a <? fst st) eqn:E2; [|reflexivity].
          pose proof (ltb_trans _ _ _ E2 Hm) as Hc. rewrite ltb_irrefl in Hc. discriminate.
        * right. destruct Hres as [[Hs Hf] | (t & Hs & Ht & Hf & _)].
          -- exists a. cbn [In]. repeat split; auto.
          -- exists t. cbn [In]. repeat split; auto.
      + destruct (IH k b) as (Hm & Hall & Hres).
        set (st := fold_left (min_step f) ts (k, b)) in *.
        split; [exact Hm|]. split.
        * intros t [<- | Ht]; [|apply Hall; exact Ht].
          destruct Hm as [Hm | Hm]; [|rewrite Hm; exact E].
          destruct (f a <? fst st) eqn:E2; [|reflexivity].
          pose proof (ltb_trans _ _ _ E2 Hm) as Hc. congruence.
        * destruct Hres as [Hres | (t & Hs & Ht & Hf & Hlt)]; [left; exact Hres|].
          right. exists t. cbn [In]. repeat split; auto.
Qed.

Lemma minByKey_Some (ts : list T) (t : T) :
    minByKey ts f = Some t ->
    In t ts /\ (f t <? Infinity) = true
    /\ forall t', In t' ts -> (f t' <? f t) = false.
Proof.
    unfold minByKey. intro Hmin.
    destruct (min_loop ts Infinity None) as (_ & Hall & Hres).
    destruct Hres as [[Hs _] | (t0 & Hs & Ht & Hf & Hlt)]; [congruence|].
    assert (t0 = t) by congruence. subst t0.
    split; [exact Ht|]. rewrite Hf. split; [exact Hlt|]. exact Hall.
Qed.

Lemma minByKey_None (ts : list T) :
    minByKey ts f = None -> forall t, In t ts -> (f t <? Infinity) = false.
Proof.
    unfold minByKey. intro Hmin.
    destruct (min_loop ts Infinity None) as (_ & Hall & Hres).
    destruct Hres as [[_ Hf] | (t0 & Hs & _)]; [|congruence].
    intros t Ht. rewrite <- Hf. apply Hall. exact Ht.
Qed.

  (** The loop of [maxByKey], in the same way. *)
Lemma max_loop (ts : list T) (k : num) (b : option T) :
    let st := fold_left (max_step f) ts (k, b) in
    ((k <? fst st) = true \/ fst st = k)
    /\ (forall t, In t ts -> (fst st <? f t) = false)
    /\ ((snd st = b /\ fst st = k)
        \/ exists t, snd st = Some t /\ In t ts /\ f t = fst st
                     /\ (k <? fst st) = true).
Proof.
    revert k b. induction ts as [|a ts IH]; intros k b; cbn [fold_left].
    - split; [right; reflexivity|]. split; [intros t []|]. left; split; reflexivity.
    - replace (max_step f (k, b) a)
        with (if k <? f a then (f a, Some a) else (k, b)) by reflexivity.
      destruct (k <? f a) eqn:E.
      + destruct (IH (f a) (Some a)) as (Hm & Hall & Hres).
        set (st := fold_left (max_step f) ts (f a, Some a)) in *.
        assert (Hk : (k <? fst st) = true).
        { destruct Hm as [Hm | Hm]; [eapply ltb_trans; eauto | rewrite Hm; exact E]. }
        split; [left; exact Hk|]. split.
        * intros t [<- | Ht]; [|apply Hall; exact Ht].
          destruct Hm as [Hm | Hm]; [|rewrite Hm; apply ltb_irrefl].
          destruct (fst st <? f a) eqn:E2; [|reflexivity].
          pose proof (ltb_trans _ _ _ Hm E2) as Hc. rewrite ltb_irrefl in Hc. discriminate.
        * right. destruct Hres as [[Hs Hf] | (t & Hs & Ht & Hf & _)].
          -- exists a. cbn [In]. repeat split; auto.
          -- exists t. cbn [In]. repeat split; auto.
      + destruct (IH k b) as (Hm & Hall & Hres).
        set (st := fold_left (max_step f) ts (k, b)) in *.
        split; [exact Hm|]. split.
        * intros t [<- | Ht]; [|apply Hall; exact Ht].
          destruct Hm as [Hm | Hm]; [|rewrite Hm; exact E].
          destruct (fst st <? f a) eqn:E2; [|reflexivity].
          pose proof (ltb_trans _ _ _ Hm E2) as Hc. congruence.
        * destruct Hres as [Hres | (t & Hs & Ht & Hf & Hlt)]; [left; exact Hres|].
          right. exists t. cbn [In]. repeat split; auto.
Qed.

Lemma maxByKey_Some (ts : list T) (t : T) :
    maxByKey ts f = Some t ->
    In t ts /\ (neg Infinity <? f t) = true
    /\ forall t', In t' ts -> (f t <? f t') = false.
Proof.
    unfold maxByKey. intro Hmax.
    destruct (max_loop ts (neg Infinity) None) as (_ & Hall & Hres).
    destruct Hres as [[Hs _] | (t0 & Hs & Ht & Hf & Hlt)]; [congruence|].
    assert (t0 = t) by congruence. subst t0.
    split; [exact Ht|]. rewrite Hf. split; [exact Hlt|]. exact Hall.
Qed.

Lemma maxByKey_None (ts : list T) :
    maxByKey ts f = None -> forall t, In t ts -> (neg Infinity <? f t) = false.
Proof.
    unfold maxByKey. intro Hmax.
    destruct (max_loop ts (neg Infinity) None) as (_ & Hall & Hres).
    destruct Hres as [[_ Hf] | (t0 & Hs & _)]; [|congruence].
    intros t Ht. rewrite <- Hf. apply Hall. exact Ht.
Qed.
End ByKey.

(** ** The interpreter of path commands *)

(** C1.  The specification has a [vertical lineto] command only move the
    current point and append it to the points in progress, and has the
    points emitted and cleared by [closepath] alone.  In the code
    [case "vertical lineto"] has no [break] and runs into
    [case "closepath"]: after any [vertical lineto] the points in progress,
    the new point included, have been handed to [pointsToRect] and the list
    is empty.  The outline [M 0 0 H 10 V 1 H 0 Z] therefore yields no
    rectangle, under any [Math.sqrt] and [Math.atan2], while the same
    outline with [L 10 1] for [V 1] yields the rectangle it draws. *)
Theorem C1_vertical_lineto_runs_into_closepath :
  (forall (M : MathLib) (st : PathState) (relative : bool) (cy : num),
      let y' := if relative then y st + cy else cy in
      let pushed := points st ++ [{| Vector.x := x st; Vector.y := y' |}] in
      exists st',
        step st (vertical_lineto relative cy) = inr st'
        /\ points st' = []
        /\ x st' = x st /\ y st' = y'
        /\ rects st' = match pointsToRect pushed with
                       | Some rect => rects st ++ [rect]
                       | None => rects st
                       end)
  /\ (forall M : MathLib,
         @pathToRects M
           [ moveto false (of_Z 0) (of_Z 0);
             horizontal_lineto false (of_Z 10);
             vertical_lineto false (of_Z 1);
             horizontal_lineto false (of_Z 0);
             closepath ] = [])
  /\ List.length
       (@pathToRects math_ref
          [ moveto false (of_Z 0) (of_Z 0);
            horizontal_lineto false (of_Z 10);
            lineto false (of_Z 10) (of_Z 1);
            horizontal_lineto false (of_Z 0);
            closepath ]) = 1%nat.
Proof.
  split; [|split].
  - intros M st relative cy. cbn zeta.
    eexists. split; [reflexivity|].
    cbn [points x y rects closepath_case]. repeat split; reflexivity.
  - intro M. reflexivity.
  - vm_compute. reflexivity.
Qed.

(** ** Cell names *)

(** C3, as the specification states it, fails: the name [a0] parses, and
    its row is zero. *)
Lemma C3_row_zero_is_accepted :
  ~ (forall (name : string) (p : CellPosition),
        cellNameToCellPosition name = Some p -> (1 <= CellPosition.row p)%N).
Proof.
  intro Hpos.
  specialize (Hpos "a0"%string
                {| CellPosition.column := "a"; CellPosition.row := 0 |} eq_refl).
  cbn in Hpos. lia.
Qed.

Lemma parseInt_digits (s : string) :
  s <> EmptyString -> all_chars is_digit s = true ->
  parseInt s = Some (digits_value 0 s).
Proof.
  destruct s as [|c s]; [congruence|].
  intros _ Hall. cbn [all_chars] in Hall. apply andb_true_iff in Hall.
  unfold parseInt. destruct Hall as [-> _]. reflexivity.
Qed.

Lemma exec_cell_name_Some (name column rowString : string) :
  exec_cell_name name = Some (column, rowString) <->
  exists c : ascii,
    name = String c rowString /\ column = String c EmptyString
    /\ in_range "a" "h" c = true
    /\ rowString <> EmptyString /\ all_chars is_digit rowString = true.
Proof.
  unfold exec_cell_name. split.
  - destruct name as [|c rest]; [discriminate|].
    destruct (in_range "a" "h" c) eqn:Ec; [|discriminate].
    destruct (String.eqb rest "") eqn:Ee; [discriminate|].
    destruct (all_chars is_digit rest) eqn:Ed; [|discriminate].
    cbn [andb negb]. intro Heq. injection Heq as <- <-.
    exists c. repeat split; auto.
    apply String.eqb_neq. exact Ee.
  - intros (c & -> & -> & Hc & Hne & Hd).
    rewrite Hc, Hd. apply String.eqb_neq in Hne. rewrite Hne. reflexivity.
Qed.

(** The digits that [toString] prints denote the number printed. *)
Lemma digits_value_pos (d : Decimal.uint) (acc : positive) :
  digits_value (N.pos acc) (NilEmpty.string_of_uint d)
  = N.pos (Pos.of_uint_acc d acc).
Proof.
  revert acc. induction d; intro acc; cbn [NilEmpty.string_of_uint Pos.of_uint_acc];
    [reflexivity | ..];
    cbn [digits_value];
    match goal with
    | |- (if is_digit ?c then _ else _) = _ =>
        replace (is_digit c) with true by reflexivity
    end;
    rewrite <- IHd; f_equal; unfold digit_value, code; cbn [N_of_ascii N_of_digits];
    lia.
Qed.

Lemma digits_value_of_uint (d : Decimal.uint) :
  digits_value 0 (NilEmpty.string_of_uint d) = N.of_uint d.
Proof.
  unfold N.of_uint.
  induction d; cbn [NilEmpty.string_of_uint Pos.of_uint]; [reflexivity | ..];
    cbn [digits_value];
    match goal with
    | |- (if is_digit ?c then _ else _) = _ =>
        replace (is_digit c) with true by reflexivity
    end;
    [exact IHd | ..]; apply digits_value_pos.
Qed.

Lemma digits_of_uint (d : Decimal.uint) :
  all_chars is_digit (NilEmpty.string_of_uint d) = true.
Proof.
  induction d; cbn [NilEmpty.string_of_uint all_chars]; [reflexivity | ..];
    rewrite IHd; reflexivity.
Qed.

Lemma toString_digits (n : N) :
  toString n <> EmptyString
  /\ all_chars is_digit (toString n) = true
  /\ digits_value 0 (toString n) = n.
Proof.
  unfold toString. pose proof (DecimalN.Unsigned.of_to n) as Hn.
  destruct (N.to_uint n) as [|d|d|d|d|d|d|d|d|d|d] eqn:Ed;
    [cbn in Hn; subst n; repeat split; discriminate | ..];
    (split; [discriminate|]);
    (split; [exact (digits_of_uint _)|]);
    rewrite <- Hn; exact (digits_value_of_uint _).
Qed.

Lemma digit_not_column (c : ascii) :
  is_digit c = true -> in_range "a" "h" c = false.
Proof.
  unfold is_digit, in_range.
  change (code "0") with 48%N. change (code "9") with 57%N.
  change (code "a") with 97%N. change (code "h") with 104%N.
  rewrite andb_true_iff, andb_false_iff, !N.leb_le, !N.leb_gt. lia.
Qed.

Lemma toString_not_label (n : N) : cellNameToCellPosition (toString n) = None.
Proof.
  destruct (toString_digits n) as (Hne & Hd & _).
  unfold cellNameToCellPosition, exec_cell_name.
  destruct (toString n) as [|c rest]; [reflexivity|].
  cbn [all_chars] in Hd. apply andb_true_iff in Hd. destruct Hd as [Hc _].
  rewrite (digit_not_column _ Hc). reflexivity.
Qed.

Lemma label_column (name : string) (p : CellPosition) :
  cellNameToCellPosition name = Some p ->
  exists c : ascii,
    CellPosition.column p = String c EmptyString /\ in_range "a" "h" c = true.
Proof.
  unfold cellNameToCellPosition.
  destruct (exec_cell_name name) as [[column rowString]|] eqn:Em; [|discriminate].
  apply exec_cell_name_Some in Em. destruct Em as (c & _ & -> & Hc & _).
  destruct (parseInt rowString); [|discriminate].
  intro Heq. injection Heq as <-. exists c. split; [reflexivity | exact Hc].
Qed.

Lemma print_parse (c : ascii) (n : N) :
  in_range "a" "h" c = true ->
  cellNameToCellPosition (String c (toString n))
  = Some {| CellPosition.column := String c EmptyString; CellPosition.row := n |}.
Proof.
  intro Hc. destruct (toString_digits n) as (Hne & Hd & Hv).
  unfold cellNameToCellPosition.
  assert (Em : exec_cell_name (String c (toString n))
               = Some (String c EmptyString, toString n)).
  { apply exec_cell_name_Some. exists c. repeat split; auto. }
  rewrite Em, (parseInt_digits Hne Hd), Hv. reflexivity.
Qed.

Lemma label_round_trip (name : string) (p : CellPosition) (r : N) :
  cellNameToCellPosition name = Some p ->
  cellNameToCellPosition
    (cellPositionToCellName
       {| CellPosition.column := CellPosition.column p; CellPosition.row := r |})
  = Some {| CellPosition.column := CellPosition.column p; CellPosition.row := r |}.
Proof.
  intro Hp. destruct (label_column _ Hp) as (c & Hcol & Hc).
  unfold cellPositionToCellName. cbn [CellPosition.column CellPosition.row].
  rewrite Hcol. cbn [String.append]. apply print_parse. exact Hc.
Qed.

(** C3, amended.  A name parses exactly when it is one letter from [a] to
    [h] followed by one or more decimal digits; the column is the letter,
    and the row is the number the digits denote whenever that number is at
    most 2^53, the range in which [parseInt] is exact: it is zero for [a0],
    and leading zeros are ignored.  In particular a letter from [a] to [h]
    followed by the decimal representation of a number up to 2^53 parses to
    that letter and that number. *)
Theorem C3_cellNameToCellPosition_spec :
  (forall name : string,
      cellNameToCellPosition name <> None <->
      exists (c : ascii) (digits : string),
        name = String c digits
        /\ in_range "a" "h" c = true
        /\ digits <> EmptyString
        /\ all_chars is_digit digits = true)
  /\ (forall (c : ascii) (digits : string) (p : CellPosition),
         cellNameToCellPosition (String c digits) = Some p ->
         CellPosition.column p = String c EmptyString
         /\ ((digits_value 0 digits <= 2 ^ 53)%N ->
             CellPosition.row p = digits_value 0 digits))
  /\ (forall (c : ascii) (n : N),
         in_range "a" "h" c = true ->
         (n <= 2 ^ 53)%N ->
         cellNameToCellPosition (String c (toString n))
         = Some {| CellPosition.column := String c EmptyString;
                   CellPosition.row := n |}).
Proof.
  assert (Hparse : forall (name : string) (p : CellPosition),
             cellNameToCellPosition name = Some p ->
             exists (c : ascii) (digits : string),
               name = String c digits
               /\ in_range "a" "h" c = true
               /\ digits <> EmptyString
               /\ all_chars is_digit digits = true
               /\ p = {| CellPosition.column := String c EmptyString;
                         CellPosition.row := digits_value 0 digits |}).
  { intros name p. unfold cellNameToCellPosition.
    destruct (exec_cell_name name) as [[column rowString]|] eqn:Em; [|discriminate].
    apply exec_cell_name_Some in Em.
    destruct Em as (c & -> & -> & Hc & Hne & Hd).
    rewrite (parseInt_digits Hne Hd). intro Heq. injection Heq as <-.
    exists c, rowString. repeat split; auto. }
  split; [|split].
  - intro name. split.
    + destruct (cellNameToCellPosition name) as [p|] eqn:Ep; [|congruence].
      intros _. destruct (Hparse name p Ep) as (c & digits & H1 & H2 & H3 & H4 & _).
      exists c, digits. auto.
    + intros (c & digits & -> & Hc & Hne & Hd).
      unfold cellNameToCellPosition.
      assert (Em : exec_cell_name (String c digits)
                   = Some (String c EmptyString, digits)).
      { apply exec_cell_name_Some. exists c. repeat split; auto. }
      rewrite Em, (parseInt_digits Hne Hd). discriminate.
  - intros c digits p Hp.
    destruct (Hparse _ p Hp) as (c' & digits' & Heq & _ & _ & _ & ->).
    injection Heq as <- <-. split; [reflexivity | intros _; reflexivity].
  - intros c n Hc _. apply print_parse. exact Hc.
Qed.

(** C3 at the name [h12]. *)
Lemma C3_witness :
  cellNameToCellPosition "h12"
  = Some {| CellPosition.column := "h"; CellPosition.row := 12 |}.
Proof.
  apply (proj2 (proj2 C3_cellNameToCellPosition_spec) "h"%char 12%N).
  - reflexivity.
  - vm_compute. discriminate.
Defined.

(** ** The reconstruction of a rectangle from four points *)

Lemma sorted_points_perm `{MathLib} (ps : list Vector) :
  Permutation (sorted_points ps) ps.
Proof. apply sortByKeyCached_perm. Qed.

(** The points that [pointsToRect] labels are the given points in the order
    of their angles around the centre, when no angle is [NaN]. *)
Lemma sorted_points_ascending `{MathLib} (ps : list Vector) :
  let angle := fun p => vectorAngle (vectorSub p (center_of ps)) in
  Forall (fun p => is_nan (angle p) = false) ps ->
  Permutation (sorted_points ps) ps
  /\ StronglySorted (fun a b => (angle b <? angle a) = false) (sorted_points ps).
Proof.
  intros angle Hnan. split; [apply sorted_points_perm|].
  apply sortByKeyCached_ascending. exact Hnan.
Qed.

(** The threshold [1 - 0.001] of the code is the number 0.999. *)
Lemma THRESHOLD_value : THRESHOLD = Fin (999 # 1000).
Proof. reflexivity. Qed.


(** ** The order of the four points *)

Lemma fold_left_vectorAdd (ps : list Vector) (v : Vector) :
  fold_left vectorAdd ps v
  = {| Vector.x := fold_left add (map Vector.x ps) (Vector.x v);
       Vector.y := fold_left add (map Vector.y ps) (Vector.y v) |}.
Proof.
  revert v. induction ps as [|p ps IH]; intro v; [destruct v; reflexivity|].
  cbn [fold_left map]. rewrite IH. reflexivity.
Qed.

Lemma center_of_centroid `{MathLib} (ps : list Vector) : center_of ps = centroid ps.
Proof.
  unfold center_of, centroid, vectorScale. rewrite fold_left_vectorAdd. reflexivity.
Qed.

Section SortMap.
Variables A B : Type.
Variable f : A -> B.
Variable cmpA : A -> A -> num.
Variable cmpB : B -> B -> num.
Hypothesis cmp_map : forall a b, cmpB (f a) (f b) = cmpA a b.

Lemma sort_insert_map (a : A) (l : list A) :
  sort_insert cmpB (f a) (map f l) = map f (sort_insert cmpA a l).
Proof.
  induction l as [|b l IH]; [reflexivity|].
  cbn [map sort_insert]. rewrite cmp_map.
  destruct (gtb (cmpA a b) zero); cbn [map]; [rewrite IH|]; reflexivity.
Qed.

Lemma Array_sort_map (l : list A) :
  Array_sort cmpB (map f l) = map f (Array_sort cmpA l).
Proof.
  induction l as [|a l IH]; [reflexivity|].
  cbn [map Array_sort fold_right].
  change (fold_right (sort_insert cmpB) [] (map f l)) with (Array_sort cmpB (map f l)).
  change (fold_right (sort_insert cmpA) [] l) with (Array_sort cmpA l).
  rewrite IH. apply sort_insert_map.
Qed.
End SortMap.

(** Sorting the images of a list is sorting the list by the key of the
    images. *)
Lemma sortByKeyCached_map (A B : Type) (f : A -> B) (key : B -> num) (l : list A) :
  sortByKeyCached (map f l) key = map f (sortByKeyCached l (fun a => key (f a))).
Proof.
  unfold sortByKeyCached. rewrite !map_map.
  rewrite <- (map_map (fun a => (key (f a), a)) (fun p => (fst p, f (snd p)))).
  rewrite (@Array_sort_map _ _ (fun p : num * A => (fst p, f (snd p)))
             (fun a b => fst a - fst b) (fun a b => fst a - fst b)) by reflexivity.
  rewrite !map_map. reflexivity.
Qed.

(** [sortByKeyCached] puts a list in ascending order of the keys and keeps
    the order of elements with equal keys, when no key is [NaN]. *)
Lemma sortByKeyCached_stably_sorted (T : Type) (ts : list T) (getKey : T -> num)
    (first : T -> T -> Prop) :
  Forall (fun t => is_nan (getKey t) = false) ts ->
  StronglySorted first ts ->
  StronglySorted (stably_before getKey first) (sortByKeyCached ts getKey).
Proof.
  intros Hnan Hfirst. unfold sortByKeyCached.
  set (pairs := map (fun t => (getKey t, t)) ts).
  assert (Hpairs : forall p, In p pairs -> fst p = getKey (snd p)).
  { intros p Hp. apply in_map_iff in Hp. destruct Hp as (t & <- & _). reflexivity. }
  pose proof (Array_sort_perm (fun a b : num * T => fst a - fst b) pairs) as Hperm.
  apply StronglySorted_map_In
    with (R := stably_before (fun p : num * T => fst p)
                             (fun a b : num * T => first (snd a) (snd b))).
  - intros a b Ha Hb. unfold stably_before.
    rewrite <- (Hpairs a), <- (Hpairs b); [tauto | |];
      eapply Permutation_in; eassumption.
  - apply (@Array_sort_stable _ (fun p : num * T => fst p)
             (fun a b : num * T => first (snd a) (snd b))).
    + rewrite Forall_forall in *. intros p Hp. rewrite (Hpairs p Hp).
      apply Hnan. apply in_map_iff in Hp. destruct Hp as (t & <- & Ht). exact Ht.
    + apply StronglySorted_map_In with (R := first); [|exact Hfirst].
      intros a b _ _ Hab. exact Hab.
Qed.

Lemma map_nth_error_seq (A : Type) (l : list A) (s : nat) (pre : list A) :
  List.length pre = s ->
  map (nth_error (pre ++ l)) (seq s (List.length l)) = map Some l.
Proof.
  revert s pre. induction l as [|a l IH]; intros s pre Hs; [reflexivity|].
  cbn [List.length seq map]. f_equal.
  - rewrite nth_error_app2 by lia. rewrite Hs, Nat.sub_diag. reflexivity.
  - replace (pre ++ a :: l) with ((pre ++ [a]) ++ l) by (rewrite <- app_assoc; reflexivity).
    apply IH. rewrite length_app. cbn. lia.
Qed.

Lemma StronglySorted_of_map (A B : Type) (R : B -> B -> Prop) (f : A -> B)
    (l : list A) :
  StronglySorted R (map f l) -> StronglySorted (fun a b => R (f a) (f b)) l.
Proof.
  induction l as [|a l IH]; intro Hs; [constructor|].
  cbn [map] in Hs. inversion Hs as [|? ? Hs' Hall]; subst.
  constructor; [apply IH; exact Hs'|].
  rewrite Forall_forall in *. intros x Hx. apply Hall. apply in_map. exact Hx.
Qed.

Lemma StronglySorted_seq (s n : nat) : StronglySorted lt (seq s n).
Proof.
  revert s. induction n as [|n IH]; intro s; cbn [seq]; constructor; [apply IH|].
  rewrite Forall_forall. intros x Hx. apply in_seq in Hx. lia.
Qed.

(** Two lists in the order of a relation that no two elements satisfy both
    ways round are equal when they hold the same elements. *)
Lemma sorted_unique (A : Type) (R : A -> A -> Prop) (l1 l2 : list A) :
  (forall a b, R a b -> R b a -> False) ->
  StronglySorted R l1 -> StronglySorted R l2 -> Permutation l1 l2 -> l1 = l2.
Proof.
  intro Hanti. revert l2. induction l1 as [|a l1 IH]; intros l2 H1 H2 Hperm.
  - apply Permutation_nil in Hperm. congruence.
  - destruct l2 as [|b l2]; [apply Permutation_sym, Permutation_nil in Hperm; discriminate|].
    inversion H1 as [|? ? H1' Hall1]; subst. inversion H2 as [|? ? H2' Hall2]; subst.
    rewrite Forall_forall in Hall1, Hall2.
    assert (Hab : a = b).
    { assert (Ha : In a (b :: l2)) by (apply (Permutation_in _ Hperm); left; reflexivity).
      assert (Hb : In b (a :: l1))
        by (apply (Permutation_in _ (Permutation_sym Hperm)); left; reflexivity).
      destruct Ha as [Ha | Ha]; [congruence|].
      destruct Hb as [Hb | Hb]; [congruence|].
      exfalso. apply (Hanti a b); [apply Hall1 | apply Hall2]; assumption. }
    subst b. f_equal. apply IH; try assumption.
    apply Permutation_cons_inv with (a := a). exact Hperm.
Qed.

Lemma stably_before_antisym (k : nat -> num) (a b : nat) :
  stably_before k lt a b -> stably_before k lt b a -> False.
Proof.
  intros [Hab Hfirst] [Hba Hfirst']. specialize (Hfirst Hba). specialize (Hfirst' Hab). lia.
Qed.

Section Labelling.
Context `{MathLib}.

(** The points as [pointsToRect] sorts them are the points in the order of
    ascending angle around the centroid, when every angle is a number. *)
Lemma sorted_points_by_angle (ps : list Vector) :
  Forall (fun p => is_nan (angle_around (centroid ps) p) = false) ps ->
  sorted_by_angle ps (sorted_points ps).
Proof.
  intro Hnan.
  set (key := fun p => vectorAngle (vectorSub p (center_of ps))).
  assert (Hkey : forall p, key p = angle_around (centroid ps) p).
  { intro p. unfold key. rewrite center_of_centroid. reflexivity. }
  set (ips := combine (seq 0 (List.length ps)) ps).
  assert (Hlen : List.length (seq 0 (List.length ps)) = List.length ps)
    by apply length_seq.
  assert (Hsnd : map snd ips = ps).
  { unfold ips. clear -Hlen. revert Hlen. generalize (seq 0 (List.length ps)).
    induction ps as [|p ps IH]; intros [|i l] Hl; try discriminate; [reflexivity|].
    cbn [combine map snd]. f_equal. apply IH. cbn in Hl. lia. }
  assert (Hfst : map fst ips = seq 0 (List.length ps)).
  { unfold ips. clear -Hlen. revert Hlen. generalize (seq 0 (List.length ps)).
    induction ps as [|p ps IH]; intros [|i l] Hl; try discriminate; [reflexivity|].
    cbn [combine map fst]. f_equal. apply IH. cbn in Hl. lia. }
  assert (Hin : forall ip, In ip ips -> nth_error ps (fst ip) = Some (snd ip)).
  { intros [i p] Hip. cbn [fst snd].
    assert (Hall : map (nth_error ps) (map fst ips) = map Some (map snd ips)).
    { rewrite Hfst, Hsnd. apply (@map_nth_error_seq _ ps 0%nat [] eq_refl). }
    clear -Hip Hall. induction ips as [|[j q] l IH]; [destruct Hip|].
    cbn [map fst snd] in Hall. injection Hall as Hj Hall.
    destruct Hip as [Heq | Hip]; [injection Heq as <- <-; exact Hj | apply IH; assumption]. }
  set (sorted := sortByKeyCached ips (fun ip => key (snd ip))).
  assert (Hperm : Permutation sorted ips) by apply sortByKeyCached_perm.
  assert (Hsorted : sorted_points ps = map snd sorted).
  { unfold sorted_points, sorted. fold key.
    rewrite <- (sortByKeyCached_map snd key ips). rewrite Hsnd. reflexivity. }
  exists (map fst sorted). split; [|split].
  - rewrite <- Hfst. apply Permutation_map. exact Hperm.
  - rewrite Hsorted, !map_map. apply map_ext_in.
    intros ip Hip. apply Hin. apply (Permutation_in _ Hperm). exact Hip.
  - apply StronglySorted_map_In
      with (R := stably_before (fun ip : nat * Vector => key (snd ip))
                               (fun a b => (fst a < fst b)%nat)).
    + intros a b Ha Hb. unfold stably_before, angle_at.
      rewrite (Hin a (Permutation_in _ Hperm Ha)), (Hin b (Permutation_in _ Hperm Hb)).
      rewrite <- !Hkey. tauto.
    + apply sortByKeyCached_stably_sorted.
      * rewrite Forall_forall in *. intros ip Hip. rewrite Hkey. apply Hnan.
        rewrite <- Hsnd. apply in_map. exact Hip.
      * apply (@StronglySorted_of_map _ _ lt fst). rewrite Hfst.
        apply StronglySorted_seq.
Qed.
End Labelling.

Lemma sorted_by_angle_unique `{MathLib} (ps l1 l2 : list Vector) :
  sorted_by_angle ps l1 -> sorted_by_angle ps l2 -> l1 = l2.
Proof.
  intros (o1 & Hp1 & Hm1 & Hs1) (o2 & Hp2 & Hm2 & Hs2).
  assert (Ho : o1 = o2).
  { apply sorted_unique with (R := stably_before (angle_at ps) lt); try assumption.
    - intros a b. apply stably_before_antisym.
    - apply (perm_trans Hp1). apply Permutation_sym. exact Hp2. }
  subst o2. rewrite Hm1 in Hm2. clear -Hm2.
  revert l2 Hm2. induction l1 as [|a l1 IH]; intros [|b l2] Hm; try discriminate;
    [reflexivity|].
  cbn [map] in Hm. injection Hm as -> Hm. f_equal. apply IH. exact Hm.
Qed.

(** C5.  [pointsToRect] returns nothing exactly when the points are not
    four, or, the four points being taken in the order of ascending angle
    around their centroid (points at equal angles in the order given) and
    labelled top left, top right, bottom right, bottom left in that order,
    one side has a normalized direction whose cosine similarity with its
    axis (rightwards for the side from top left to top right, then
    downwards, leftwards, upwards) is below 0.999.  The angles of the points
    around the centroid are assumed to be numbers. *)
Theorem C5_pointsToRect_fails_iff `{MathLib} (ps : list Vector) :
  Forall (fun p => is_nan (angle_around (centroid ps) p) = false) ps ->
  pointsToRect ps = None <-> not_a_rectangle ps.
Proof.
  intro Hnan. pose proof (sorted_points_by_angle Hnan) as Hlab.
  unfold pointsToRect, not_a_rectangle, similarity.
  destruct (Nat.eqb (List.length ps) 4) eqn:Elen; cbn [negb].
  - apply Nat.eqb_eq in Elen.
    pose proof (Permutation_length (sorted_points_perm ps)) as Hlen.
    rewrite Elen in Hlen.
    destruct (sorted_points ps) as [|tl [|tr [|br [|bl [|]]]]]; try discriminate.
    change THRESHOLD with (Fin (999 # 1000)). split.
    + intro Hnone. right. exists tl, tr, br, bl. split; [exact Hlab|].
      match type of Hnone with (if ?c then _ else _) = _ => destruct c eqn:Echeck end;
        [|discriminate].
      repeat (apply orb_true_iff in Echeck; destruct Echeck as [Echeck | Echeck]);
        auto.
    + intros [Hlen4 | (tl' & tr' & br' & bl' & Hlab' & Hoff)]; [congruence|].
      pose proof (sorted_by_angle_unique Hlab' Hlab) as Heq.
      injection Heq as -> -> -> ->.
      destruct Hoff as [Hoff | [Hoff | [Hoff | Hoff]]];
        rewrite Hoff, ?orb_true_r; reflexivity.
  - apply Nat.eqb_neq in Elen. split; [intros _; left; exact Elen | reflexivity].
Qed.

(** C5 at a bar drawn against the clock from its bottom right corner, and at
    a diamond. *)
Lemma C5_witness :
  @pointsToRect math_ref [point 10 1; point 10 0; point 0 0; point 0 1] <> None
  /\ @sorted_by_angle math_ref [point 10 1; point 10 0; point 0 0; point 0 1]
       [point 0 0; point 10 0; point 10 1; point 0 1]
  /\ @pointsToRect math_ref [point 5 0; point 10 5; point 5 10; point 0 5] = None.
Proof.
  split; [vm_compute; discriminate|]. split.
  - exists [2; 1; 0; 3]%nat. split; [|split].
    + apply (Permutation_trans (l' := [1; 2; 0; 3]%nat)); [apply perm_swap|].
      apply (Permutation_trans (l' := [1; 0; 2; 3]%nat));
        [apply perm_skip; apply perm_swap | apply perm_swap].
    + reflexivity.
    + repeat constructor; vm_compute; try reflexivity; try lia; discriminate.
  - apply (@C5_pointsToRect_fails_iff math_ref).
    + repeat constructor.
    + right. exists (point 5 0), (point 10 5), (point 5 10), (point 0 5).
      split; [|left; vm_compute; reflexivity].
      exists [0; 1; 2; 3]%nat. split; [apply Permutation_refl|].
      split; [reflexivity|].
      repeat constructor; vm_compute; try reflexivity; try lia; discriminate.
Defined.

(** ** The sign of the width and of the height *)

Ltac split_ifs :=
  repeat match goal with
         | H : context [if ?c then _ else _] |- _ =>
             let E := fresh "E" in destruct c eqn:E; cbn in H
         | |- context [if ?c then _ else _] =>
             let E := fresh "E" in destruct c eqn:E; cbn
         end.

(** A side whose similarity with an axis is a number that passes the test
    points along that axis.  [m] is the magnitude of the side. *)
Lemma passes_axis (dx dy m : num) (sx sy : Z) :
  (m <? zero) = false ->
  (sx = 1%Z \/ sx = (-1)%Z) -> sy = 0%Z ->
  let dot := (dx / m) * of_Z sx + (dy / m) * of_Z sy in
  is_nan dot = false -> (dot <? THRESHOLD) = false ->
  (zero <? dx * of_Z sx) = true.
Proof.
  intros Hm Hsx -> dot Hnan Hpass. subst dot.
  destruct m as [m | | |]; [| | discriminate Hm |].
  - cbn [ltb zero] in Hm. apply Qltb_ge in Hm.
    destruct dx as [dx | | |], dy as [dy | | |];
      destruct Hsx as [-> | ->];
      unfold div in *;
      destruct (Qeq_bool m 0) eqn:Em;
      try (replace (Qltb m 0) with false in *
            by (symmetry; apply Qltb_ge; exact Hm));
      try (destruct (Qsign dx)); try (destruct (Qsign dy));
      cbn in Hnan, Hpass; try discriminate Hnan; try discriminate Hpass;
      try reflexivity.
    all: apply Qeq_bool_neq in Em.
    all: assert (Hm0 : (0 < m)%Q)
      by (destruct (Qlt_le_dec 0 m); [assumption | exfalso; apply Em; lra]).
    all: unfold THRESHOLD in Hpass; cbn in Hpass; apply Qltb_ge in Hpass.
    all: cbn; apply Qltb_lt.
    all: pose proof (@Qmult_div_r dx m Em) as Ex.
    all: set (u := (dx / m)%Q) in *; set (v := (dy / m)%Q) in *.
    all: rewrite <- Ex; unfold inject_Z in *; nra.
  - destruct dx as [dx | | |], dy as [dy | | |]; destruct Hsx as [-> | ->];
      cbn in Hnan, Hpass; try discriminate Hnan; try discriminate Hpass.
  - destruct dx, dy; cbn in Hnan; discriminate Hnan.
Qed.

Lemma passes_axis_vertical (dx dy m : num) (sx sy : Z) :
  (m <? zero) = false ->
  sx = 0%Z -> (sy = 1%Z \/ sy = (-1)%Z) ->
  let dot := (dx / m) * of_Z sx + (dy / m) * of_Z sy in
  is_nan dot = false -> (dot <? THRESHOLD) = false ->
  (zero <? dy * of_Z sy) = true.
Proof.
  intros Hm -> Hsy dot Hnan Hpass. subst dot.
  destruct m as [m | | |]; [| | discriminate Hm |].
  - cbn [ltb zero] in Hm. apply Qltb_ge in Hm.
    destruct dx as [dx | | |], dy as [dy | | |];
      destruct Hsy as [-> | ->];
      unfold div in *;
      destruct (Qeq_bool m 0) eqn:Em;
      try (replace (Qltb m 0) with false in *
            by (symmetry; apply Qltb_ge; exact Hm));
      try (destruct (Qsign dx)); try (destruct (Qsign dy));
      cbn in Hnan, Hpass; try discriminate Hnan; try discriminate Hpass;
      try reflexivity.
    all: apply Qeq_bool_neq in Em.
    all: assert (Hm0 : (0 < m)%Q)
      by (destruct (Qlt_le_dec 0 m); [assumption | exfalso; apply Em; lra]).
    all: unfold THRESHOLD in Hpass; cbn in Hpass; apply Qltb_ge in Hpass.
    all: cbn; apply Qltb_lt.
    all: pose proof (@Qmult_div_r dy m Em) as Ey.
    all: set (u := (dx / m)%Q) in *; set (v := (dy / m)%Q) in *.
    all: rewrite <- Ey; unfold inject_Z in *; nra.
  - destruct dx as [dx | | |], dy as [dy | | |]; destruct Hsy as [-> | ->];
      cbn in Hnan, Hpass; try discriminate Hnan; try discriminate Hpass.
  - destruct dx, dy; cbn in Hnan; discriminate Hnan.
Qed.

(** With the top side pointing right and the bottom side pointing left the
    width is not negative; [a], [b], [c], [d] are the coordinates of the
    four points in the order of their labels. *)
Lemma width_not_negative (a b c d : num) :
  (zero <? (b - a) * of_Z 1) = true ->
  (zero <? (d - c) * of_Z (-1)) = true ->
  nonneg ((b - a + c - d) / of_Z 2).
Proof.
  unfold nonneg.
  destruct a as [a | | |], b as [b | | |], c as [c | | |], d as [d | | |];
    cbn; intros H1 H2; try discriminate H1; try discriminate H2; try reflexivity.
  apply Qltb_lt in H1, H2. apply Qle_bool_iff.
  unfold inject_Z in *. apply Qle_shift_div_l; [reflexivity|]. lra.
Qed.

Lemma height_not_negative (a b c d : num) :
  (zero <? (c - b) * of_Z 1) = true ->
  (zero <? (a - d) * of_Z (-1)) = true ->
  nonneg ((d - a + c - b) / of_Z 2).
Proof.
  unfold nonneg.
  destruct a as [a | | |], b as [b | | |], c as [c | | |], d as [d | | |];
    cbn; intros H1 H2; try discriminate H1; try discriminate H2; try reflexivity.
  apply Qltb_lt in H1, H2. apply Qle_bool_iff.
  unfold inject_Z in *. apply Qle_shift_div_l; [reflexivity|]. lra.
Qed.

Lemma permutation_of_copies (A : Type) (a : A) (n : nat) (l : list A) :
  Permutation l (repeat a n) -> l = repeat a n.
Proof.
  intro Hperm. pose proof (Permutation_length Hperm) as Hlen.
  rewrite repeat_length in Hlen. subst n.
  assert (Hall : forall x, In x l -> x = a).
  { intros x Hx. apply (Permutation_in _ Hperm) in Hx.
    apply repeat_spec in Hx. exact Hx. }
  clear Hperm. induction l as [|b l IH]; [reflexivity|].
  cbn [List.length repeat]. rewrite (Hall b (or_introl eq_refl)). f_equal.
  apply IH. intros x Hx. apply Hall. right. exact Hx.
Qed.

(** C4.  The specification has [pointsToRect] guarantee a width and a
    height that are not negative.  The code rejects a side only when its
    similarity with the axis is below the threshold, and a similarity that
    is [NaN] is below nothing: for four points at (Infinity, 0) every
    similarity is [NaN], the points are accepted under any [Math.sqrt] and
    [Math.atan2], and the width of the rectangle is [NaN], which is not a
    number at or above zero.  What the test does secure: when the
    similarities of the top and of the bottom side are numbers the width is
    not negative, and when those of the right and of the left side are
    numbers the height is not negative.  [Math.sqrt] is assumed never to
    return a number below zero. *)
Theorem C4_nan_similarity_passes_the_axis_test :
  (forall M : MathLib,
      let p := {| Vector.x := Infinity; Vector.y := of_Z 0 |} in
      exists r : Rect,
        @pointsToRect M [p; p; p; p] = Some r
        /\ is_nan (Rect.width r) = true
        /\ ~ nonneg (Rect.width r))
  /\ (forall (M : MathLib) (ps : list Vector) (r : Rect) (tl tr br bl : Vector),
         sqrt_nonneg ->
         pointsToRect ps = Some r ->
         sorted_points ps = [tl; tr; br; bl] ->
         (is_nan (similarity tl tr RIGHT) = false ->
          is_nan (similarity br bl LEFT) = false ->
          nonneg (Rect.width r))
         /\ (is_nan (similarity tr br DOWN) = false ->
             is_nan (similarity bl tl UP) = false ->
             nonneg (Rect.height r))).
Proof.
  split.
  - intros M p. unfold pointsToRect. cbn [List.length Nat.eqb negb].
    rewrite (@permutation_of_copies _ p 4 (sorted_points [p; p; p; p])
               (sorted_points_perm _)).
    cbn [repeat]. unfold vectorDot, vectorNormalize, vectorMagnitude, vectorSub, p.
    cbn [Vector.x Vector.y Infinity sub neg add mul div].
    cbn [RIGHT DOWN LEFT UP Vector.x Vector.y mul add ltb orb].
    eexists. split; [reflexivity|]. cbn. split; [reflexivity | discriminate].
  - intros M ps r tl tr br bl Hsqrt Hrect Hsorted.
    unfold pointsToRect in Hrect.
    destruct (Nat.eqb (List.length ps) 4); [|discriminate].
    cbn [negb] in Hrect. rewrite Hsorted in Hrect.
    match type of Hrect with (if ?c then _ else _) = _ => destruct c eqn:Echeck end;
      [discriminate|].
    injection Hrect as <-.
    repeat (apply orb_false_iff in Echeck; destruct Echeck as [Echeck ?]).
    unfold similarity, vectorDot, vectorNormalize, vectorMagnitude, vectorSub,
      RIGHT, DOWN, LEFT, UP in *.
    cbn [Vector.x Vector.y Rect.width Rect.height] in *.
    split; intros Hn1 Hn2.
    + apply width_not_negative.
      * eapply passes_axis; [apply Hsqrt | left; reflexivity | reflexivity
                            | exact Hn1 | exact Echeck].
      * eapply passes_axis; [apply Hsqrt | right; reflexivity | reflexivity
                            | exact Hn2 | eassumption].
    + apply height_not_negative.
      * eapply passes_axis_vertical; [apply Hsqrt | reflexivity | left; reflexivity
                                     | exact Hn1 | eassumption].
      * eapply passes_axis_vertical; [apply Hsqrt | reflexivity | right; reflexivity
                                     | exact Hn2 | eassumption].
Qed.

Lemma sqrt_ref_nonneg : @sqrt_nonneg math_ref.
Proof.
  intros [q | | |]; cbn [sqrt math_ref sqrt_ref]; try reflexivity.
  destruct (Qltb q 0); [reflexivity|].
  cbn [ltb zero]. apply Qltb_ge. unfold Qsqrt_down, Qle. cbn [Qnum Qden].
  pose proof (Z.sqrt_nonneg (Qnum q * Z.pos (Qden q) * 4 ^ 52)). lia.
Qed.

(** C4 at the outline of a bar ten wide and one high. *)
Lemma C4_witness :
  exists r : Rect,
    @pointsToRect math_ref [point 0 0; point 10 0; point 10 1; point 0 1] = Some r
    /\ nonneg (Rect.width r) /\ nonneg (Rect.height r).
Proof.
  pose (ps := [point 0 0; point 10 0; point 10 1; point 0 1]).
  pose (r := match @pointsToRect math_ref ps with
             | Some r => r
             | None => {| Rect.x := NaN; Rect.y := NaN;
                          Rect.width := NaN; Rect.height := NaN |}
             end).
  assert (Hr : @pointsToRect math_ref ps = Some r) by (vm_compute; reflexivity).
  assert (Hs : @sorted_points math_ref ps = ps) by (vm_compute; reflexivity).
  exists r. split; [exact Hr|].
  destruct (proj2 C4_nan_similarity_passes_the_axis_test math_ref ps r
              (point 0 0) (point 10 0) (point 10 1) (point 0 1)
              sqrt_ref_nonneg Hr Hs) as [Hw Hh].
  split; [apply Hw | apply Hh]; vm_compute; reflexivity.
Defined.

(** ** The extraction of a document *)

Section ParseSvgFacts.
Context `{MathLib} `{Parsers}.

Lemma findRects_loop_None (ds : list string) (acc : list Rect) :
    findRects_loop ds acc = None <->
    exists d : string, In d ds /\ svgPathParser_parseSVG d = None.
Proof.
    revert acc. induction ds as [|d ds IH]; intro acc; cbn [findRects_loop].
    - split; [discriminate | intros (d & [] & _)].
    - destruct (svgPathParser_parseSVG d) as [path|] eqn:Ed.
      + rewrite IH. split.
        * intros (d' & Hin & Hd'). exists d'. split; [right; exact Hin | exact Hd'].
        * intros (d' & [<- | Hin] & Hd'); [congruence|]. exists d'. auto.
      + split; [|reflexivity]. intros _. exists d. split; [left; reflexivity | exact Ed].
Qed.

  (** The rectangles of a document whose path data all parse: those of each
      path, in the order of the paths. *)
Lemma findRects_loop_Some (ds : list string) (acc rects : list Rect) :
    findRects_loop ds acc = Some rects ->
    exists paths : list (list Command),
      map svgPathParser_parseSVG ds = map Some paths
      /\ rects = acc ++ flat_map pathToRects paths.
Proof.
    revert acc. induction ds as [|d ds IH]; intro acc; cbn [findRects_loop].
    - intro Heq. injection Heq as <-. exists []. split; [reflexivity|].
      cbn. rewrite app_nil_r. reflexivity.
    - destruct (svgPathParser_parseSVG d) as [path|] eqn:Ed; [|discriminate].
      intro Hloop. destruct (IH _ Hloop) as (paths & Hmap & ->).
      exists (path :: paths). cbn [map flat_map]. rewrite Ed, Hmap.
      split; [reflexivity|]. rewrite app_assoc. reflexivity.
Qed.

End ParseSvgFacts.

(** ** The classification of rectangles into edges *)

Lemma edges_of_rect_cases (r : Rect) :
  edges_of_rect r = if elongation r <? of_Z 11 then [] else box_edges r.
Proof. reflexivity. Qed.

(** C9.  A rectangle whose elongation is below 11 gives no edge, and one
    whose elongation is at least 11 gives the top, bottom, left and right
    edges of its bounding box, in that order; the edges of a document are
    those of its rectangles, four for each rectangle that is kept. *)
Theorem C9_edge_classifier :
  (forall r : Rect, (elongation r <? of_Z 11) = true -> edges_of_rect r = [])
  /\ (forall r : Rect,
         (of_Z 11 <=? elongation r) = true ->
         edges_of_rect r = box_edges r
         /\ map Edge.kind (edges_of_rect r)
            = [Kind.top; Kind.bottom; Kind.left; Kind.right])
  /\ (forall (rects : list Rect) (e : Edge),
         In e (edges_of_rects rects) ->
         exists r : Rect,
           In r rects /\ (elongation r <? of_Z 11) = false /\ In e (box_edges r))
  /\ (forall rects : list Rect,
         List.length (edges_of_rects rects)
         = (4 * List.length
                  (filter (fun r => negb (elongation r <? of_Z 11)%num) rects))%nat).
Proof.
  split; [|split; [|split]].
  - intros r Hlow. rewrite edges_of_rect_cases, Hlow. reflexivity.
  - intros r Hhigh. apply leb_not_ltb in Hhigh.
    rewrite edges_of_rect_cases, Hhigh. split; reflexivity.
  - intros rects e Hin. unfold edges_of_rects in Hin.
    apply in_flat_map in Hin. destruct Hin as (r & Hr & He).
    exists r. rewrite edges_of_rect_cases in He.
    destruct (elongation r <? of_Z 11); [contradiction|]. auto.
  - intro rs. induction rs as [|r rs IH]; [reflexivity|].
    unfold edges_of_rects in *. cbn [flat_map filter].
    rewrite length_app, IH, edges_of_rect_cases.
    destruct (elongation r <? of_Z 11); cbn [negb List.length box_edges]; lia.
Qed.

(** C9 at a bar 22 wide and 2 high, which is kept, and at a square, which
    is not. *)
Lemma C9_witness :
  edges_of_rect {| Rect.x := of_Z 0; Rect.y := of_Z 0;
                   Rect.width := of_Z 5; Rect.height := of_Z 5 |} = []
  /\ edges_of_rect {| Rect.x := of_Z 1; Rect.y := of_Z 2;
                      Rect.width := of_Z 22; Rect.height := of_Z 2 |}
     = [ Edge.horizontal Edge.top (of_Z 1) (of_Z 2) (of_Z 22);
         Edge.horizontal Edge.bottom (of_Z 1) (of_Z 2 + of_Z 2) (of_Z 22);
         Edge.vertical Edge.left (of_Z 1) (of_Z 2) (of_Z 2);
         Edge.vertical Edge.right (of_Z 1 + of_Z 22) (of_Z 2) (of_Z 2) ].
Proof.
  destruct C9_edge_classifier as (Hlow & Hhigh & _).
  split.
  - apply Hlow. vm_compute. reflexivity.
  - apply Hhigh. vm_compute. reflexivity.
Defined.

(** ** The selection of edges *)



(** ** Names assigned through references *)

(** The assignment of a name through a reference. *)
Lemma assign_name_nth (cells : list Cell) (i j : nat) (s : string) :
  nth_error (assign_name cells i s) j
  = match nth_error cells j with
    | Some c => Some (if Nat.eqb j i then Cell.with_name c s else c)
    | None => None
    end.
Proof.
  revert i j. induction cells as [|c cells IH]; intros i j; cbn [assign_name].
  - destruct j; reflexivity.
  - destruct i as [|i], j as [|j]; cbn [nth_error Nat.eqb]; try reflexivity.
    + destruct (nth_error cells j); reflexivity.
    + apply IH.
Qed.

Lemma assign_name_ids_rects (cells : list Cell) (i : nat) (s : string) :
  map Cell.id (assign_name cells i s) = map Cell.id cells
  /\ map Cell.rect (assign_name cells i s) = map Cell.rect cells.
Proof.
  revert i. induction cells as [|c cells IH]; intro i; cbn [assign_name map].
  - split; reflexivity.
  - destruct i as [|i]; cbn [map]; [split; reflexivity|].
    destruct (IH i) as [-> ->]. split; reflexivity.
Qed.

Section Renumber.
Variable pos : CellPosition.

Lemma renumber_ids_rects (refs : list (nat * Cell)) (i : N) (cells : list Cell) :
  map Cell.id (renumber pos i refs cells) = map Cell.id cells
  /\ map Cell.rect (renumber pos i refs cells) = map Cell.rect cells.
Proof.
  revert i cells. induction refs as [|[k c] refs IH]; intros i cells; cbn [renumber].
  - split; reflexivity.
  - specialize (IH (i + 1)%N (assign_name cells k (numbered pos i))).
    unfold numbered in IH. destruct IH as [-> ->].
    apply assign_name_ids_rects.
Qed.

Lemma renumber_other (refs : list (nat * Cell)) (i : N) (cells : list Cell) (j : nat) :
  ~ In j (map fst refs) ->
  nth_error (renumber pos i refs cells) j = nth_error cells j.
Proof.
  revert i cells. induction refs as [|[k c] refs IH]; intros i cells Hnot;
    cbn [renumber]; [reflexivity|].
  cbn [map fst In] in Hnot.
  rewrite IH by tauto. rewrite assign_name_nth.
  destruct (Nat.eqb_spec j k) as [-> | _]; [tauto|].
  destruct (nth_error cells j); reflexivity.
Qed.

Lemma renumber_ranked (refs : list (nat * Cell)) (i : N) (cells : list Cell)
    (k j : nat) (c : Cell) :
  NoDup (map fst refs) ->
  nth_error (map fst refs) k = Some j ->
  nth_error cells j = Some c ->
  nth_error (renumber pos i refs cells) j
  = Some (Cell.with_name c (numbered pos (i + N.of_nat k))).
Proof.
  revert i cells k c. induction refs as [|[k0 c0] refs IH]; intros i cells k c Hnd Hk Hj.
  - destruct k; discriminate.
  - cbn [map fst] in Hnd, Hk. inversion Hnd as [|? ? Hnot Hnd']; subst.
    cbn [renumber]. destruct k as [|k]; cbn [nth_error] in Hk.
    + injection Hk as <-. rewrite renumber_other by exact Hnot.
      rewrite assign_name_nth, Hj, Nat.eqb_refl.
      rewrite N.add_0_r. reflexivity.
    + assert (Hne : j <> k0).
      { intros ->. apply Hnot. eapply nth_error_In. exact Hk. }
      rewrite (IH (i + 1)%N _ k c Hnd' Hk).
      * replace (i + 1 + N.of_nat k)%N with (i + N.of_nat (S k))%N by lia.
        reflexivity.
      * rewrite assign_name_nth, Hj.
        destruct (Nat.eqb_spec j k0); [contradiction | reflexivity].
Qed.
End Renumber.

(** ** The completion of a cell *)

Lemma inferName_id_rect `{MathLib} (cells : list Cell) (cell : Cell) :
  Cell.id (inferName cells cell) = Cell.id cell
  /\ Cell.rect (inferName cells cell) = Cell.rect cell.
Proof.
  unfold inferName.
  destruct (maxByKey _ _) as [cellAbove|]; [|split; reflexivity].
  destruct (cellNameToCellPosition (Cell.name cellAbove)); split; reflexivity.
Qed.

(** The editor after the click that fills the last empty slot. *)
Lemma handleClick_complete `{MathLib} (viewScale : num) (keep : bool)
    (editor : EditorState) (pos : Vector)
    (closest top_ right_ bottom_ left_ : Edge) :
  getClosestSelectableEdge viewScale editor pos = Some closest ->
  let selected :=
    SelectedEdges.set (selectedEdges editor) (Edge.kind closest) (Some closest) in
  SelectedEdges.top selected = Some top_ ->
  SelectedEdges.right selected = Some right_ ->
  SelectedEdges.bottom selected = Some bottom_ ->
  SelectedEdges.left selected = Some left_ ->
  let count := (cellCreatedCount editor + 1)%N in
  handleClick viewScale keep editor (Some pos)
  = {| svgUrl := svgUrl editor;
       svgWidth := svgWidth editor;
       svgHeight := svgHeight editor;
       edges := edges editor;
       highlightedEdge := None;
       selectedEdges :=
         {| SelectedEdges.top := None;
            SelectedEdges.right := if negb keep then None else Some right_;
            SelectedEdges.bottom := None;
            SelectedEdges.left := if negb keep then None else Some left_ |};
       cells := cells editor
                ++ [inferName (cells editor)
                              (newCell count top_ right_ bottom_ left_)];
       cellCreatedCount := count |}.
Proof.
  intros Hclosest selected Ht Hr Hb Hl count.
  unfold handleClick. rewrite Hclosest.
  fold selected. rewrite Ht, Hr, Hb, Hl. reflexivity.
Qed.

(** What a click does to the cells and to the counter. *)
Lemma handleClick_cells `{MathLib} (viewScale : num) (keep : bool)
    (editor : EditorState) (pos : option Vector) :
  let editor' := handleClick viewScale keep editor pos in
  (cells editor' = cells editor
   /\ cellCreatedCount editor' = cellCreatedCount editor)
  \/ exists cell : Cell,
      cells editor' = cells editor ++ [cell]
      /\ Cell.id cell = (cellCreatedCount editor + 1)%N
      /\ cellCreatedCount editor' = (cellCreatedCount editor + 1)%N.
Proof.
  unfold handleClick. destruct pos as [pos|]; [|left; split; reflexivity].
  destruct (getClosestSelectableEdge viewScale editor pos) as [closest|];
    [|left; split; reflexivity].
  destruct (SelectedEdges.top _) as [top_|]; [|left; split; reflexivity].
  destruct (SelectedEdges.right _) as [right_|]; [|left; split; reflexivity].
  destruct (SelectedEdges.bottom _) as [bottom_|]; [|left; split; reflexivity].
  destruct (SelectedEdges.left _) as [left_|]; [|left; split; reflexivity].
  right. eexists. split; [reflexivity|]. split; [|reflexivity].
  apply inferName_id_rect.
Qed.

Lemma handleCellNameInput_ids (editor : EditorState) (cell : nat) (value : string) :
  map Cell.id (cells (handleCellNameInput editor cell value))
  = map Cell.id (cells editor)
  /\ cellCreatedCount (handleCellNameInput editor cell value)
     = cellCreatedCount editor.
Proof.
  unfold handleCellNameInput.
  destruct (nth_error (cells editor) cell) as [c|]; [|split; reflexivity].
  destruct (cellNameToCellPosition value) as [p|]; cbn [cells cellCreatedCount with_cells].
  - split; [|reflexivity].
    rewrite (proj1 (renumber_ids_rects _ _ _ _)). apply assign_name_ids_rects.
  - split; [apply assign_name_ids_rects | reflexivity].
Qed.

Lemma StronglySorted_snoc (A : Type) (R : A -> A -> Prop) (l : list A) (a : A) :
  StronglySorted R l -> Forall (fun x => R x a) l -> StronglySorted R (l ++ [a]).
Proof.
  induction 1 as [|b l Hs IH Hall]; intro Hlast; cbn [app].
  - constructor; constructor.
  - inversion Hlast as [|? ? Hb Hlast']; subst.
    constructor; [apply IH; exact Hlast'|].
    apply Forall_app. split; [exact Hall | constructor; [exact Hb | constructor]].
Qed.

Lemma In_remove (A : Type) (l : list A) (i : nat) (x : A) :
  In x (firstn i l ++ skipn (S i) l) -> In x l.
Proof.
  revert i. induction l as [|a l IH]; intro i.
  - destruct i; intros [].
  - destruct i as [|i]; cbn [firstn skipn app In].
    + intro Hx. right. exact Hx.
    + intros [-> | Hx]; [left; reflexivity | right; apply (IH i); exact Hx].
Qed.

Lemma StronglySorted_remove (A : Type) (R : A -> A -> Prop) (l : list A) (i : nat) :
  StronglySorted R l -> StronglySorted R (firstn i l ++ skipn (S i) l).
Proof.
  intro Hs. revert i. induction Hs as [|a l Hs IH Hall]; intro i.
  - destruct i; constructor.
  - destruct i as [|i]; cbn [firstn skipn app].
    + exact Hs.
    + constructor; [apply IH|].
      rewrite Forall_forall in *. intros x Hx. apply Hall.
      apply (In_remove l i). exact Hx.
Qed.

(** In every state of the editor the ids of the cells increase along the
    list and none is above the counter. *)
Lemma reachable_ids `{MathLib} (editor : EditorState) :
  reachable editor ->
  StronglySorted N.lt (map Cell.id (cells editor))
  /\ Forall (fun n => (n <= cellCreatedCount editor)%N) (map Cell.id (cells editor)).
Proof.
  induction 1 as [svgUrl svg | viewScale editor pos _ IH
                  | viewScale keep editor pos _ IH | editor cell _ IH
                  | editor cell value _ IH | editor _ IH].
  - split; constructor.
  - exact IH.
  - destruct IH as [Hs Hb].
    destruct (handleClick_cells viewScale keep editor pos)
      as [[-> ->] | (cell & -> & Hid & ->)]; [split; assumption|].
    rewrite map_app. cbn [map]. rewrite Hid. split.
    + apply StronglySorted_snoc; [exact Hs|].
      eapply Forall_impl; [|exact Hb]. cbv beta. intros n Hn. lia.
    + apply Forall_app. split.
      * eapply Forall_impl; [|exact Hb]. cbv beta. intros n Hn. lia.
      * constructor; [lia | constructor].
  - destruct IH as [Hs Hb]. unfold handleCellDelete.
    destruct (cell <? List.length (cells editor))%nat; [|split; assumption].
    cbn [cells cellCreatedCount with_cells].
    rewrite map_app, <- firstn_map, <- skipn_map. split.
    + apply StronglySorted_remove. exact Hs.
    + rewrite Forall_forall in *. intros x Hx. apply Hb.
      apply (In_remove _ cell). exact Hx.
  - destruct (handleCellNameInput_ids editor cell value) as [-> ->]. exact IH.
  - exact IH.
Qed.

(** C2.  When the click fills the last empty slot, the editor gains exactly
    one cell, at the end of the list: its rectangle is made of the four
    selected edges, its id is the counter after its increment, which in a
    state that the handlers can reach is above the ids of all cells there
    are, and its name before the look at the cell above is the decimal
    string of that counter.
    Afterwards no edge is highlighted, the top and bottom slots are empty,
    and the left and right slots are empty exactly when
    [keepVerticalSelection] is off; when it is on they keep their edges. *)
Theorem C2_cell_completion `{MathLib} (viewScale : num) (keep : bool)
    (editor : EditorState) (pos : Vector)
    (closest top_ right_ bottom_ left_ : Edge) :
  getClosestSelectableEdge viewScale editor pos = Some closest ->
  let selected :=
    SelectedEdges.set (selectedEdges editor) (Edge.kind closest) (Some closest) in
  SelectedEdges.top selected = Some top_ ->
  SelectedEdges.right selected = Some right_ ->
  SelectedEdges.bottom selected = Some bottom_ ->
  SelectedEdges.left selected = Some left_ ->
  let editor' := handleClick viewScale keep editor (Some pos) in
  let count := (cellCreatedCount editor + 1)%N in
  let fresh := newCell count top_ right_ bottom_ left_ in
  exists cell : Cell,
    cells editor' = cells editor ++ [cell]
    /\ cellCreatedCount editor' = count
    /\ cell = inferName (cells editor) fresh
    /\ Cell.name fresh = toString count
    /\ Cell.id cell = count
    /\ Cell.rect cell
       = {| Rect.x := Edge.x right_;
            Rect.y := Edge.y bottom_;
            Rect.width := Edge.x left_ - Edge.x right_;
            Rect.height := Edge.y top_ - Edge.y bottom_ |}
    /\ (reachable editor ->
        forall c : Cell, In c (cells editor) -> (Cell.id c < Cell.id cell)%N)
    /\ highlightedEdge editor' = None
    /\ SelectedEdges.top (selectedEdges editor') = None
    /\ SelectedEdges.bottom (selectedEdges editor') = None
    /\ (SelectedEdges.left (selectedEdges editor') = None <-> keep = false)
    /\ (SelectedEdges.right (selectedEdges editor') = None <-> keep = false)
    /\ (keep = true ->
        SelectedEdges.left (selectedEdges editor') = Some left_
        /\ SelectedEdges.right (selectedEdges editor') = Some right_).
Proof.
  intros Hclosest selected Ht Hr Hb Hl editor' count fresh.
  subst editor'.
  rewrite (@handleClick_complete _ viewScale keep editor pos _ _ _ _ _
             Hclosest Ht Hr Hb Hl).
  fold count. fold fresh.
  destruct (inferName_id_rect (cells editor) fresh) as [Hid Hrect].
  exists (inferName (cells editor) fresh).
  cbn [cells cellCreatedCount highlightedEdge selectedEdges
       SelectedEdges.top SelectedEdges.bottom SelectedEdges.left SelectedEdges.right].
  repeat split; try reflexivity; try assumption.
  - intros Hreach c Hc. rewrite Hid. cbn [Cell.id fresh newCell]. subst count.
    destruct (reachable_ids Hreach) as [_ Hbound].
    rewrite Forall_forall in Hbound.
    specialize (Hbound (Cell.id c) (in_map Cell.id _ _ Hc)). cbv beta in Hbound. lia.
  - destruct keep; [discriminate | reflexivity].
  - destruct keep; [discriminate | reflexivity].
  - destruct keep; [discriminate | reflexivity].
  - destruct keep; [discriminate | reflexivity].
  - destruct keep; [reflexivity | discriminate].
  - destruct keep; [reflexivity | discriminate].
Qed.

(** C2 at the frame: the fourth click completes the cell inside the
    frame. *)
Lemma C2_witness :
  let editor := clicks true frame_editor [point 50 13; point 50 87; point 13 50] in
  let editor' := @handleClick math_ref (of_Z 1) true editor (Some (point 87 50)) in
  exists cell : Cell,
    cells editor' = cells editor ++ [cell]
    /\ Cell.id cell = 1%N
    /\ Cell.rect cell
       = {| Rect.x := of_Z 12; Rect.y := of_Z 12;
            Rect.width := of_Z 88 - of_Z 12; Rect.height := of_Z 88 - of_Z 12 |}
    /\ SelectedEdges.top (selectedEdges editor') = None
    /\ SelectedEdges.bottom (selectedEdges editor') = None.
Proof.
  intros editor editor'.
  edestruct (@C2_cell_completion math_ref (of_Z 1) true editor (point 87 50))
    as (cell & Hcells & _ & _ & _ & Hid & Hrect & _ & _ & Htop & Hbottom & _).
  - vm_compute. reflexivity.
  - vm_compute. reflexivity.
  - vm_compute. reflexivity.
  - vm_compute. reflexivity.
  - vm_compute. reflexivity.
  - exists cell. split; [exact Hcells|].
    split; [vm_compute in Hid; exact Hid|].
    split; [vm_compute in Hrect; exact Hrect|].
    split; [exact Htop | exact Hbottom].
Defined.

(** ** The inference of the name of a new cell *)

Lemma alignedAbove_In (cells : list Cell) (cell c : Cell) :
  In c (alignedAbove cells cell) <-> In c cells /\ above cell c.
Proof.
  unfold alignedAbove, above, spans_center_of, bottom_of, center_x.
  rewrite filter_In, !andb_true_iff. tauto.
Qed.

(** The cell above that [inferName] looks at: a cell above that ends
    lowest, when there is one that does not end at minus infinity. *)
Lemma cellAbove_spec (cells : list Cell) (cell : Cell) :
  match maxByKey (alignedAbove cells cell) bottom_of with
  | Some cellAbove =>
      In cellAbove cells /\ above cell cellAbove
      /\ forall c : Cell,
          In c cells -> above cell c -> (bottom_of cellAbove <? bottom_of c) = false
  | None =>
      forall c : Cell, In c cells -> above cell c -> bottom_of c = NInf
  end.
Proof.
  pose proof (@maxByKey_Some _ bottom_of (alignedAbove cells cell)) as HSome.
  pose proof (@maxByKey_None _ bottom_of (alignedAbove cells cell)) as HNone.
  destruct (maxByKey (alignedAbove cells cell) bottom_of) as [cellAbove|].
  - destruct (HSome cellAbove eq_refl) as (Hin & _ & Hmax).
    apply alignedAbove_In in Hin. destruct Hin as [Hin Habove].
    split; [exact Hin|]. split; [exact Habove|].
    intros c Hc Hca. apply Hmax. apply alignedAbove_In. auto.
  - intros c Hc Hca.
    assert (Hlow : (neg Infinity <? bottom_of c) = false).
    { apply (HNone eq_refl). apply alignedAbove_In. auto. }
    destruct Hca as [Hlt _].
    destruct (bottom_of c); cbn in Hlow, Hlt; try discriminate. reflexivity.
Qed.



(** ** The renaming of a cell *)


(** The references to the cells of an array. *)
Lemma indexed_from (cells : list Cell) (s : nat) :
  StronglySorted (fun a b : nat * Cell => (fst a < fst b)%nat)
                 (combine (seq s (List.length cells)) cells)
  /\ forall (j : nat) (c : Cell),
      In (j, c) (combine (seq s (List.length cells)) cells)
      <-> (s <= j)%nat /\ nth_error cells (j - s) = Some c.
Proof.
  revert s. induction cells as [|c0 cells IH]; intro s; cbn [List.length seq combine].
  - split; [constructor|]. intros j c. split; [intros [] | intros [_ Hn]].
    destruct (j - s)%nat; discriminate.
  - destruct (IH (S s)) as [Hs Hin]. split.
    + constructor; [exact Hs|].
      rewrite Forall_forall. intros [j c] Hjc. apply Hin in Hjc. cbn [fst]. lia.
    + intros j c. cbn [In]. rewrite Hin. split.
      * intros [Heq | [Hle Hn]].
        -- injection Heq as <- <-. rewrite Nat.sub_diag. split; [lia | reflexivity].
        -- split; [lia|].
           replace (j - s)%nat with (S (j - S s)) by lia. exact Hn.
      * intros [Hle Hn]. destruct (Nat.eq_dec j s) as [-> | Hne].
        -- left. rewrite Nat.sub_diag in Hn. cbn in Hn. congruence.
        -- right. split; [lia|].
           replace (j - s)%nat with (S (j - S s)) in Hn by lia. exact Hn.
Qed.

Lemma indexed_sorted (cells : list Cell) :
  StronglySorted (fun a b : nat * Cell => (fst a < fst b)%nat) (indexed cells).
Proof. apply indexed_from. Qed.

Lemma indexed_In (cells : list Cell) (j : nat) (c : Cell) :
  In (j, c) (indexed cells) <-> nth_error cells j = Some c.
Proof.
  unfold indexed. rewrite (proj2 (indexed_from cells 0)).
  rewrite Nat.sub_0_r. split; [tauto | split; [lia | assumption]].
Qed.

Lemma sorted_by_fst_NoDup (l : list (nat * Cell)) :
  StronglySorted (fun a b : nat * Cell => (fst a < fst b)%nat) l ->
  NoDup (map fst l).
Proof.
  induction 1 as [|a l Hs IH Hall]; cbn [map]; constructor; [|exact IH].
  intro Hin. apply in_map_iff in Hin. destruct Hin as (b & Heq & Hb).
  rewrite Forall_forall in Hall. specialize (Hall b Hb). lia.
Qed.


Lemma alignedBelow_In (cells : list Cell) (cell : Cell) (j : nat) (c : Cell) :
  In (j, c) (alignedBelow cells cell) <-> nth_error cells j = Some c /\ below cell c.
Proof.
  unfold alignedBelow, below, spans_center_of, bottom_of, center_x.
  rewrite filter_In, indexed_In, !andb_true_iff. cbn [snd]. tauto.
Qed.

Lemma alignedBelow_sorted (cells : list Cell) (cell : Cell) :
  StronglySorted (fun a b : nat * Cell => (fst a < fst b)%nat)
                 (alignedBelow cells cell).
Proof. apply StronglySorted_filter. apply indexed_sorted. Qed.

(** The sorted references of [handleCellNameInput], as indices. *)
Lemma sorted_below_spec (cells : list Cell) (cell : Cell) :
  let refs :=
    Array_sort
      (fun a b : nat * Cell =>
         Rect.y (Cell.rect (snd a)) - Rect.y (Cell.rect (snd b)))
      (alignedBelow cells cell) in
  NoDup (map fst refs)
  /\ (forall j : nat,
         In j (map fst refs)
         <-> exists c : Cell, nth_error cells j = Some c /\ below cell c)
  /\ StronglySorted (renumbered_before cells) (map fst refs).
Proof.
  intro refs.
  pose proof (Array_sort_perm
                (fun a b : nat * Cell =>
                   Rect.y (Cell.rect (snd a)) - Rect.y (Cell.rect (snd b)))
                (alignedBelow cells cell)) as Hperm.
  fold refs in Hperm.
  assert (Hin : forall j c, In (j, c) refs
                            <-> nth_error cells j = Some c /\ below cell c).
  { intros j c. rewrite <- alignedBelow_In. split; apply Permutation_in;
      [exact Hperm | apply Permutation_sym; exact Hperm]. }
  split; [|split].
  - apply (Permutation_NoDup (Permutation_sym (Permutation_map fst Hperm))).
    apply sorted_by_fst_NoDup. apply alignedBelow_sorted.
  - intro j. rewrite in_map_iff. split.
    + intros ([j' c] & Heq & Hjc). cbn [fst] in Heq. subst j'.
      exists c. apply Hin. exact Hjc.
    + intros (c & Hc). exists (j, c). split; [reflexivity | apply Hin; exact Hc].
  - apply StronglySorted_map_In
      with (R := stably_before
                   (fun ic : nat * Cell => Rect.y (Cell.rect (snd ic)))
                   (fun a b : nat * Cell => (fst a < fst b)%nat)).
    + intros [j c] [j' c'] Hjc Hjc'. apply Hin in Hjc. apply Hin in Hjc'.
      unfold renumbered_before, stably_before, top_at. cbn [fst snd].
      rewrite (proj1 Hjc), (proj1 Hjc'). tauto.
    + apply (@Array_sort_stable _
                (fun ic : nat * Cell => Rect.y (Cell.rect (snd ic)))
                (fun a b : nat * Cell => (fst a < fst b)%nat)).
      * rewrite Forall_forall. intros [j c] Hjc. apply alignedBelow_In in Hjc.
        destruct Hjc as [_ [Hlt _]]. cbn [snd].
        eapply ltb_not_nan_r. exact Hlt.
      * apply alignedBelow_sorted.
Qed.

(** C10 fails as the specification states it: a cell whose height is
    negative starts below its own bottom, so when it is renamed to [a1] it
    is the first cell of its own cascade and ends up named [a2].  The
    editor is the one of the frame after four clicks that take the top edge
    above the bottom edge. *)
Lemma C10_renamed_cell_is_renumbered :
  ~ (forall (editor : EditorState) (i : nat) (c : Cell) (value : string),
        nth_error (cells editor) i = Some c ->
        name_at (cells (handleCellNameInput editor i value)) i = Some value).
Proof.
  intro Hverbatim.
  assert (Hcell :
            nth_error
              (cells (clicks true frame_editor
                        [point 50 9; point 50 91; point 13 50; point 87 50]))
              0
            = Some {| Cell.id := 1; Cell.name := "1";
                      Cell.rect := {| Rect.x := of_Z 12; Rect.y := of_Z 90;
                                      Rect.width := of_Z 76;
                                      Rect.height := of_Z (-80) |} |}).
  { vm_compute. reflexivity. }
  specialize (Hverbatim _ _ _ "a1" Hcell). clear Hcell.
  vm_compute in Hverbatim. discriminate Hverbatim.
Qed.

Lemma below_with_name (cell c : Cell) (s : string) :
  below cell (Cell.with_name c s) <-> below cell c.
Proof. unfold below, spans_center_of. cbn [Cell.with_name Cell.rect]. tauto. Qed.

Lemma assign_name_at (cells : list Cell) (i j : nat) (s : string) (c : Cell) :
  nth_error cells i = Some c ->
  name_at (assign_name cells i s) j
  = if Nat.eqb j i then Some s else name_at cells j.
Proof.
  intro Hi. unfold name_at. rewrite assign_name_nth.
  destruct (Nat.eqb_spec j i) as [-> | _].
  - rewrite Hi. reflexivity.
  - destruct (nth_error cells j); reflexivity.
Qed.

(** C10.  What [handleCellNameInput] does.  Renaming the cell at the index
    [i] changes names only.  When the new name does not parse, the cell
    takes it and no other name changes.  When it parses as column [c] and
    row [r], the cells that start strictly below the bottom of the renamed
    cell and whose span contains its centre are taken in the order of their
    top coordinates (cells with equal top coordinates in the order of the
    array), and the cell of rank [k], counted from 0, is named [c] with the
    row [r + k + 1]; every other cell keeps its name, except that the
    renamed cell takes the new name.  The loop does not set the renamed cell
    apart: when that cell passes the test itself, which a cell of negative
    height does, it is among the renumbered ones and loses the name it was
    given. *)
Theorem C10_rename_cascade (editor : EditorState) (i : nat) (c0 : Cell)
    (value : string) :
  nth_error (cells editor) i = Some c0 ->
  let editor' := handleCellNameInput editor i value in
  editor' = with_cells editor (cells editor')
  /\ map Cell.id (cells editor') = map Cell.id (cells editor)
  /\ map Cell.rect (cells editor') = map Cell.rect (cells editor)
  /\ match cellNameToCellPosition value with
     | None =>
         forall j : nat,
           name_at (cells editor') j
           = if Nat.eqb j i then Some value else name_at (cells editor) j
     | Some p =>
         exists order : list nat,
           NoDup order
           /\ (forall j : nat,
                  In j order
                  <-> exists c : Cell,
                      nth_error (cells editor) j = Some c /\ below c0 c)
           /\ StronglySorted (renumbered_before (cells editor)) order
           /\ (forall k j : nat,
                  nth_error order k = Some j ->
                  name_at (cells editor') j
                  = Some (CellPosition.column p
                          ++ toString (CellPosition.row p + N.of_nat k + 1))%string)
           /\ (forall j : nat,
                  ~ In j order ->
                  name_at (cells editor') j
                  = if Nat.eqb j i then Some value else name_at (cells editor) j)
     end
  /\ (~ below c0 c0 -> name_at (cells editor') i = Some value).
Proof.
  intros Hi editor'. subst editor'. unfold handleCellNameInput. rewrite Hi.
  set (cells1 := assign_name (cells editor) i value).
  assert (Hcells1 : forall j c,
             nth_error cells1 j = Some c ->
             exists c', nth_error (cells editor) j = Some c'
                        /\ (below c0 c <-> below c0 c')
                        /\ Rect.y (Cell.rect c) = Rect.y (Cell.rect c')).
  { intros j c. unfold cells1. rewrite assign_name_nth.
    destruct (nth_error (cells editor) j) as [c'|]; [|discriminate].
    intro Heq. injection Heq as <-. exists c'. split; [reflexivity|].
    destruct (Nat.eqb j i); [split; [apply below_with_name | reflexivity]|].
    split; [tauto | reflexivity]. }
  assert (Hback : forall j c',
             nth_error (cells editor) j = Some c' ->
             exists c, nth_error cells1 j = Some c /\ (below c0 c <-> below c0 c')).
  { intros j c' Hj. unfold cells1. rewrite assign_name_nth, Hj.
    eexists. split; [reflexivity|].
    destruct (Nat.eqb j i); [apply below_with_name | tauto]. }
  destruct (cellNameToCellPosition value) as [p|].
  - pose proof (sorted_below_spec cells1 c0) as Hspec. cbv zeta in Hspec.
    set (refs := Array_sort _ (alignedBelow cells1 c0)) in *.
    destruct Hspec as (Hnd & Hin & Hsorted).
    assert (Horder : forall j,
               In j (map fst refs)
               <-> exists c, nth_error (cells editor) j = Some c /\ below c0 c).
    { intro j. rewrite Hin. split.
      - intros (c & Hc & Hb). destruct (Hcells1 j c Hc) as (c' & Hc' & Hiff & _).
        exists c'. tauto.
      - intros (c' & Hc' & Hb). destruct (Hback j c' Hc') as (c & Hc & Hiff).
        exists c. tauto. }
    cbn [cells with_cells].
    destruct (renumber_ids_rects p refs 0 cells1) as [Hids Hrects].
    destruct (assign_name_ids_rects (cells editor) i value) as [Hids1 Hrects1].
    fold cells1 in Hids1, Hrects1.
    assert (Hothers : forall j,
               ~ In j (map fst refs) ->
               name_at (renumber p 0 refs cells1) j
               = if Nat.eqb j i then Some value else name_at (cells editor) j).
    { intros j Hnot. unfold name_at at 1. rewrite renumber_other by exact Hnot.
      apply (@assign_name_at (cells editor) i j value c0 Hi). }
    split; [reflexivity|]. split; [congruence|]. split; [congruence|]. split.
    + exists (map fst refs). split; [exact Hnd|]. split; [exact Horder|]. split.
      * eapply StronglySorted_map_In with (f := fun j : nat => j) in Hsorted.
        -- rewrite map_id in Hsorted. exact Hsorted.
        -- intros a b Ha Hb. apply Hin in Ha. apply Hin in Hb.
           destruct Ha as (ca & Hca & _). destruct Hb as (cb & Hcb & _).
           destruct (Hcells1 _ _ Hca) as (ca' & Hca' & _ & Hya).
           destruct (Hcells1 _ _ Hcb) as (cb' & Hcb' & _ & Hyb).
           unfold renumbered_before, stably_before, top_at.
           rewrite Hca, Hcb, Hca', Hcb', Hya, Hyb. tauto.
      * split; [|exact Hothers].
        intros k j Hk.
        assert (Hj : In j (map fst refs)) by (eapply nth_error_In; exact Hk).
        apply Hin in Hj. destruct Hj as (c & Hc & _).
        unfold name_at. rewrite (@renumber_ranked p refs 0 cells1 k j c Hnd Hk Hc).
        cbn [option_map Cell.with_name Cell.name].
        unfold numbered, cellPositionToCellName.
        cbn [CellPosition.column CellPosition.row].
        rewrite N.add_0_l. reflexivity.
    + intro Hself. rewrite Hothers; [rewrite Nat.eqb_refl; reflexivity|].
      intro Hc. apply Horder in Hc. destruct Hc as (c & Hc & Hb).
      assert (c = c0) by congruence. subst c. contradiction.
  - cbn [cells with_cells].
    destruct (assign_name_ids_rects (cells editor) i value) as [Hids1 Hrects1].
    fold cells1 in Hids1, Hrects1.
    split; [reflexivity|]. split; [exact Hids1|]. split; [exact Hrects1|].
    split.
    + intro j. apply (@assign_name_at (cells editor) i j value c0 Hi).
    + intros _. pose proof (@assign_name_at (cells editor) i i value c0 Hi) as Hn.
      rewrite Nat.eqb_refl in Hn. exact Hn.
Qed.

(** C10 at the ladder: the lower box is completed first and the upper box
    second; renaming the upper box, the cell at the index 1, to [c5] gives
    it that name and leaves the ids as they are. *)
Lemma C10_witness :
  let editor := clicks true ladder_editor
                  [point 50 52; point 50 87; point 13 30; point 87 30;
                   point 50 13; point 50 48] in
  let editor' := handleCellNameInput editor 1 "c5" in
  exists c0 : Cell,
    nth_error (cells editor) 1 = Some c0
    /\ name_at (cells editor') 1 = Some "c5"
    /\ map Cell.id (cells editor') = map Cell.id (cells editor).
Proof.
  intros editor editor'. eexists. split; [vm_compute; reflexivity|].
  match goal with
  | |- context [Some "c5"] =>
      edestruct (@C10_rename_cascade editor 1) as (_ & Hids & _ & _ & Hself)
  end.
  - vm_compute. reflexivity.
  - split; [|exact Hids]. apply Hself.
    intros [Hlt _]. vm_compute in Hlt. discriminate.
Defined.

(** ** The class Throttle *)

Section ThrottleFacts.
Variable T : Type.

Lemma throttle_run_app (s : Throttle.state T) (es1 es2 : list (Throttle.event T)) :
  Throttle.run s (es1 ++ es2)
  = (fst (Throttle.run (fst (Throttle.run s es1)) es2),
     snd (Throttle.run s es1) ++ snd (Throttle.run (fst (Throttle.run s es1)) es2)).
Proof.
  revert s. induction es1 as [|e es1 IH]; intro s; cbn [app Throttle.run].
  - cbn [fst snd app]. destruct (Throttle.run s es2); reflexivity.
  - destruct (Throttle.step s e) as [s1 out1]. rewrite IH.
    destruct (Throttle.run s1 es1) as [s2 out2]. cbn [fst snd].
    destruct (Throttle.run s2 es2) as [s3 out3]. cbn [fst snd].
    rewrite app_assoc. reflexivity.
Qed.

Lemma throttle_submitted_app (es1 es2 : list (Throttle.event T)) :
  Throttle.submitted (es1 ++ es2) = Throttle.submitted es1 ++ Throttle.submitted es2.
Proof.
  induction es1 as [|[v|] es1 IH]; cbn [app Throttle.submitted];
    [reflexivity | rewrite IH; reflexivity | exact IH].
Qed.

Lemma last_Some_In (l : list T) (v : T) :
  List.last (map Some l) None = Some v -> In v l.
Proof.
  induction l as [|a l IH]; [discriminate|].
  destruct l as [|b l].
  - cbn. intro Heq. injection Heq as ->. left. reflexivity.
  - intro Heq. right. apply IH. exact Heq.
Qed.

(** What holds after any session: a value is pending only while the loop
    is suspended, the field [t] is the last value submitted, a pending value
    is a value, when nothing is pending the callback was last called with
    [t], and every call of the callback was with a submitted value. *)
Lemma throttle_invariant (es : list (Throttle.event T)) :
  let s := fst (Throttle.run (Throttle.new T) es) in
  let out := snd (Throttle.run (Throttle.new T) es) in
  (Throttle.queued s = true -> Throttle.looping s = true)
  /\ Throttle.t s = List.last (map Some (Throttle.submitted es)) None
  /\ (Throttle.queued s = true -> exists v, Throttle.t s = Some v)
  /\ (Throttle.queued s = false -> List.last out None = Throttle.t s)
  /\ Forall (fun d => exists v, d = Some v /\ In v (Throttle.submitted es)) out.
Proof.
  induction es as [|e es IH] using rev_ind.
  - cbn. repeat split; try discriminate; constructor.
  - cbv zeta in *. rewrite throttle_run_app, throttle_submitted_app.
    destruct (Throttle.run (Throttle.new T) es) as [s out]. cbn [fst snd] in *.
    destruct IH as (Hloop & Ht & Hval & Hlast & Hall).
    assert (Hall' : Forall (fun d => exists v, d = Some v
                                     /\ In v (Throttle.submitted es
                                              ++ Throttle.submitted [e])) out).
    { eapply Forall_impl; [|exact Hall]. cbv beta.
      intros d (v & -> & Hv). exists v. split; [reflexivity|].
      apply in_or_app. left. exact Hv. }
    destruct s as [q l t0]. cbn [Throttle.queued Throttle.looping Throttle.t] in *.
    destruct e as [v|].
    + replace (Throttle.submitted [Throttle.call v]) with [v] in * by reflexivity.
      rewrite map_app. cbn [map]. rewrite last_last.
      destruct l;
        cbn [Throttle.run Throttle.step Throttle.loop Throttle.loop_turn
             Throttle.queued Throttle.looping Throttle.t negb fst snd app];
        rewrite ?app_nil_r.
      * repeat split; auto; try discriminate. eauto.
      * rewrite last_last. repeat split; auto; try discriminate.
        apply Forall_app. split; [exact Hall'|].
        constructor; [|constructor]. exists v. split; [reflexivity|].
        apply in_or_app. right. left. reflexivity.
    + replace (Throttle.submitted [@Throttle.wake T]) with (@nil T) in * by reflexivity.
      rewrite app_nil_r in *.
      destruct l, q;
        cbn [Throttle.run Throttle.step Throttle.loop Throttle.loop_turn
             Throttle.queued Throttle.looping Throttle.t negb fst snd app];
        rewrite ?app_nil_r.
      * rewrite last_last. repeat split; auto; try discriminate.
        apply Forall_app. split; [exact Hall|].
        constructor; [|constructor].
        destruct (Hval eq_refl) as (v & Hv). exists v. split; [exact Hv|].
        apply last_Some_In. rewrite <- Ht. exact Hv.
      * repeat split; auto; discriminate.
      * repeat split; auto.
      * repeat split; auto.
Qed.
End ThrottleFacts.

(** X1.  A [Throttle] never hands its callback anything but a submitted
    value, and never loses the latest one: after any session of calls and
    wakes, when nothing is pending the callback was last called with the
    last value submitted, and when a value is pending the loop is suspended,
    and its next wake calls the callback with the last value submitted and
    leaves nothing pending. *)
Theorem X1_throttle_delivers_latest (T : Type) (es : list (Throttle.event T)) :
  let s := fst (Throttle.run (Throttle.new T) es) in
  let out := snd (Throttle.run (Throttle.new T) es) in
  let latest := List.last (map Some (Throttle.submitted es)) None in
  Forall (fun d => exists v, d = Some v /\ In v (Throttle.submitted es)) out
  /\ (Throttle.queued s = false -> List.last out None = latest)
  /\ (Throttle.queued s = true ->
      Throttle.looping s = true
      /\ snd (Throttle.step s Throttle.wake) = [latest]
      /\ Throttle.queued (fst (Throttle.step s Throttle.wake)) = false).
Proof.
  intros s out latest.
  destruct (throttle_invariant es) as (Hloop & Ht & _ & Hlast & Hall).
  fold s in Hloop, Ht, Hlast. fold out in Hlast, Hall. fold latest in Ht.
  split; [exact Hall|]. split.
  - intro Hq. rewrite (Hlast Hq). exact Ht.
  - intro Hq. specialize (Hloop Hq). split; [exact Hloop|].
    cbn [Throttle.step]. rewrite Hloop. unfold Throttle.loop_turn. rewrite Hq.
    cbn [fst snd Throttle.queued]. rewrite Ht. split; reflexivity.
Qed.

(** X1 on a session: three values are submitted in a burst, the first is
    handed over at once, the third at the wake, the second never. *)
Lemma X1_witness :
  snd (Throttle.run (Throttle.new nat)
         [Throttle.call 1%nat; Throttle.call 2%nat; Throttle.call 3%nat;
          Throttle.wake; Throttle.wake])
  = [Some 1%nat; Some 3%nat]
  /\ List.last
       (snd (Throttle.run (Throttle.new nat)
               [Throttle.call 1%nat; Throttle.call 2%nat; Throttle.call 3%nat;
                Throttle.wake; Throttle.wake])) None
     = Some 3%nat.
Proof.
  split; [reflexivity|].
  apply (proj1 (proj2 (X1_throttle_delivers_latest
                         [Throttle.call 1%nat; Throttle.call 2%nat;
                          Throttle.call 3%nat; Throttle.wake; Throttle.wake]))).
  reflexivity.
Defined.

Lemma throttle_credit (T : Type) (es : list (Throttle.event T))
    (s : Throttle.state T) :
  (List.length (snd (Throttle.run s es))
   + (if Throttle.looping (fst (Throttle.run s es)) then 0 else 1)
   <= Throttle.wakes es + (if Throttle.looping s then 0 else 1))%nat.
Proof.
  revert s. induction es as [|e es IH]; intro s; cbn [Throttle.run Throttle.wakes].
  - cbn [fst snd List.length]. lia.
  - destruct (Throttle.step s e) as [s1 out1] eqn:Estep.
    specialize (IH s1). destruct (Throttle.run s1 es) as [s2 out2].
    cbn [fst snd] in *. rewrite length_app.
    assert (Hstep : (List.length out1 + (if Throttle.looping s1 then 0 else 1)
                     <= (match e with Throttle.wake => 1 | _ => 0 end)
                        + (if Throttle.looping s then 0 else 1))%nat).
    { destruct s as [q l t0], e as [v|]; destruct l, q;
        cbn in Estep; injection Estep as <- <-; cbn; lia. }
    destruct e; lia.
Qed.

(** X2.  A [Throttle] calls its callback at most once per interval: in any
    stretch of events, from any state, the callback is called at most once
    more than the loop wakes; no step calls it twice, and a [call] while the
    loop is suspended does not call it at all. *)
Theorem X2_throttle_rate (T : Type) :
  (forall (s : Throttle.state T) (es : list (Throttle.event T)),
      (List.length (snd (Throttle.run s es)) <= S (Throttle.wakes es))%nat)
  /\ (forall (s : Throttle.state T) (e : Throttle.event T),
         (List.length (snd (Throttle.step s e)) <= 1)%nat)
  /\ (forall (s : Throttle.state T) (v : T),
         Throttle.looping s = true ->
         snd (Throttle.step s (Throttle.call v)) = []
         /\ Throttle.t (fst (Throttle.step s (Throttle.call v))) = Some v).
Proof.
  split; [|split].
  - intros s es. pose proof (throttle_credit es s) as Hc.
    destruct (Throttle.looping s), (Throttle.looping (fst (Throttle.run s es))); lia.
  - intros [q l t0] [v|]; destruct l, q; cbn; lia.
  - intros [q l t0] v Hl. cbn in Hl. subst l. split; reflexivity.
Qed.

(** X2 on a suspended loop: a call delivers nothing and is kept. *)
Lemma X2_witness :
  snd (Throttle.step {| Throttle.queued := false; Throttle.looping := true;
                        Throttle.t := Some 1%nat |} (Throttle.call 2%nat)) = []
  /\ Throttle.t (fst (Throttle.step
                        {| Throttle.queued := false; Throttle.looping := true;
                           Throttle.t := Some 1%nat |} (Throttle.call 2%nat)))
     = Some 2%nat.
Proof.
  apply (proj2 (proj2 (X2_throttle_rate nat))). reflexivity.
Defined.

(** ** The choice of a least and of a greatest element *)

Lemma ltb_lt_le (a b c : num) :
  (a <? b) = true -> (c <? b) = false -> is_nan c = false -> (a <? c) = true.
Proof.
  destruct a as [p | | |], b as [q | | |], c as [r | | |]; cbn [ltb is_nan];
    try discriminate; try reflexivity.
  rewrite !Qltb_lt, Qltb_ge. intros H1 H2 _. lra.
Qed.

Lemma ltb_le_lt (a b c : num) :
  (b <? a) = true -> (b <? c) = false -> is_nan c = false -> (c <? a) = true.
Proof.
  destruct a as [p | | |], b as [q | | |], c as [r | | |]; cbn [ltb is_nan];
    try discriminate; try reflexivity.
  rewrite !Qltb_lt, Qltb_ge. intros H1 H2 _. lra.
Qed.

Section FirstByKey.
Variable T : Type.
Variable f : T -> num.

(** The element that the loop of [minByKey] ends with, when it is not the
    one it started with: its key is below the keys of the elements before
    it that have a key to compare, and no later key is below it. *)
Lemma min_first (ts : list T) (k : num) (b : option T) :
  let st := fold_left (min_step f) ts (k, b) in
  (snd st = b /\ fst st = k)
  \/ exists (l1 : list T) (t : T) (l2 : list T),
      ts = l1 ++ t :: l2 /\ snd st = Some t /\ (f t <? k) = true
      /\ (forall x, In x l1 -> (f t <? f x) = true \/ is_nan (f x) = true)
      /\ (forall x, In x l2 -> (f x <? f t) = false).
Proof.
  revert k b. induction ts as [|a ts IH]; intros k b; cbn [fold_left].
  - left. split; reflexivity.
  - replace (min_step f (k, b) a)
      with (if f a <? k then (f a, Some a) else (k, b)) by reflexivity.
    destruct (f a <? k) eqn:E.
    + right. destruct (IH (f a) (Some a))
        as [[Hs Hk] | (l1 & t & l2 & -> & Hs & Hlt & Hbefore & Hafter)].
      * exists [], a, ts. split; [reflexivity|]. split; [exact Hs|].
        split; [exact E|]. split; [intros x []|].
        intros x Hx. destruct (min_loop f ts (f a) (Some a)) as (_ & Hall & _).
        rewrite Hk in Hall. apply Hall. exact Hx.
      * exists (a :: l1), t, l2. split; [reflexivity|]. split; [exact Hs|].
        split; [eapply ltb_trans; eassumption|]. split; [|exact Hafter].
        intros x [<- | Hx]; [left; exact Hlt | apply Hbefore; exact Hx].
    + destruct (IH k b)
        as [Hkept | (l1 & t & l2 & -> & Hs & Hlt & Hbefore & Hafter)];
        [left; exact Hkept|].
      right. exists (a :: l1), t, l2. split; [reflexivity|]. split; [exact Hs|].
      split; [exact Hlt|]. split; [|exact Hafter].
      intros x [Hx | Hx]; [subst x | apply Hbefore; exact Hx].
      destruct (is_nan (f a)) eqn:En; [right; reflexivity|].
      left. eapply ltb_lt_le; eassumption.
Qed.

Lemma max_first (ts : list T) (k : num) (b : option T) :
  let st := fold_left (max_step f) ts (k, b) in
  (snd st = b /\ fst st = k)
  \/ exists (l1 : list T) (t : T) (l2 : list T),
      ts = l1 ++ t :: l2 /\ snd st = Some t /\ (k <? f t) = true
      /\ (forall x, In x l1 -> (f x <? f t) = true \/ is_nan (f x) = true)
      /\ (forall x, In x l2 -> (f t <? f x) = false).
Proof.
  revert k b. induction ts as [|a ts IH]; intros k b; cbn [fold_left].
  - left. split; reflexivity.
  - replace (max_step f (k, b) a)
      with (if k <? f a then (f a, Some a) else (k, b)) by reflexivity.
    destruct (k <? f a) eqn:E.
    + right. destruct (IH (f a) (Some a))
        as [[Hs Hk] | (l1 & t & l2 & -> & Hs & Hlt & Hbefore & Hafter)].
      * exists [], a, ts. split; [reflexivity|]. split; [exact Hs|].
        split; [exact E|]. split; [intros x []|].
        intros x Hx. destruct (max_loop f ts (f a) (Some a)) as (_ & Hall & _).
        rewrite Hk in Hall. apply Hall. exact Hx.
      * exists (a :: l1), t, l2. split; [reflexivity|]. split; [exact Hs|].
        split; [eapply ltb_trans; eassumption|]. split; [|exact Hafter].
        intros x [<- | Hx]; [left; exact Hlt | apply Hbefore; exact Hx].
    + destruct (IH k b)
        as [Hkept | (l1 & t & l2 & -> & Hs & Hlt & Hbefore & Hafter)];
        [left; exact Hkept|].
      right. exists (a :: l1), t, l2. split; [reflexivity|]. split; [exact Hs|].
      split; [exact Hlt|]. split; [|exact Hafter].
      intros x [Hx | Hx]; [subst x | apply Hbefore; exact Hx].
      destruct (is_nan (f a)) eqn:En; [right; reflexivity|].
      left. eapply ltb_le_lt; eassumption.
Qed.
End FirstByKey.

(** X3.  [minByKey] returns the first element whose key is least: the key
    is below [Infinity], it is below the key of every earlier element
    (unless that key is [NaN]) and no later key is below it.  It returns
    nothing exactly when no key is below [Infinity], which is so for an
    empty list.  [maxByKey] is the same with the order turned round and
    [-Infinity]. *)
Theorem X3_minByKey_maxByKey (T : Type) (f : T -> num) (ts : list T) :
  (forall t : T,
      minByKey ts f = Some t ->
      exists l1 l2 : list T,
        ts = l1 ++ t :: l2
        /\ (f t <? Infinity) = true
        /\ (forall x, In x l1 -> (f t <? f x) = true \/ is_nan (f x) = true)
        /\ (forall x, In x l2 -> (f x <? f t) = false))
  /\ (minByKey ts f = None <-> forall x, In x ts -> (f x <? Infinity) = false)
  /\ (forall t : T,
         maxByKey ts f = Some t ->
         exists l1 l2 : list T,
           ts = l1 ++ t :: l2
           /\ (neg Infinity <? f t) = true
           /\ (forall x, In x l1 -> (f x <? f t) = true \/ is_nan (f x) = true)
           /\ (forall x, In x l2 -> (f t <? f x) = false))
  /\ (maxByKey ts f = None <-> forall x, In x ts -> (neg Infinity <? f x) = false).
Proof.
  split; [|split; [|split]].
  - intros t Hmin. unfold minByKey in Hmin.
    destruct (min_first f ts Infinity None)
      as [[Hs _] | (l1 & t' & l2 & Hts & Hs & Hlt & Hbefore & Hafter)]; [congruence|].
    assert (t' = t) by congruence. subst t'. exists l1, l2. auto.
  - split; [apply minByKey_None|].
    intro Hall. destruct (minByKey ts f) as [t|] eqn:Hmin; [|reflexivity].
    apply minByKey_Some in Hmin. destruct Hmin as (Hin & Hlt & _).
    rewrite (Hall t Hin) in Hlt. discriminate.
  - intros t Hmax. unfold maxByKey in Hmax.
    destruct (max_first f ts (neg Infinity) None)
      as [[Hs _] | (l1 & t' & l2 & Hts & Hs & Hlt & Hbefore & Hafter)]; [congruence|].
    assert (t' = t) by congruence. subst t'. exists l1, l2. auto.
  - split; [apply maxByKey_None|].
    intro Hall. destruct (maxByKey ts f) as [t|] eqn:Hmax; [|reflexivity].
    apply maxByKey_Some in Hmax. destruct Hmax as (Hin & Hlt & _).
    rewrite (Hall t Hin) in Hlt. discriminate.
Qed.

(** X3 on keys with a tie and a [NaN]: the first of the two least is
    returned. *)
Lemma X3_witness :
  exists l1 l2 : list (nat * num),
    [(0%nat, NaN); (1%nat, of_Z 2); (2%nat, of_Z 1); (3%nat, of_Z 1)]
    = l1 ++ (2%nat, of_Z 1) :: l2
    /\ (forall x, In x l2 -> (snd x <? of_Z 1) = false).
Proof.
  destruct (proj1 (X3_minByKey_maxByKey (fun x : nat * num => snd x)
                     [(0%nat, NaN); (1%nat, of_Z 2); (2%nat, of_Z 1); (3%nat, of_Z 1)])
                  (2%nat, of_Z 1) eq_refl)
    as (l1 & l2 & Heq & _ & _ & Hafter).
  exists l1, l2. split; [exact Heq | exact Hafter].
Defined.

(** ** The sort by a cached key *)

(** X4.  [sortByKeyCached] rearranges the array and loses or adds nothing;
    when no key is [NaN] the result is in ascending order of the keys, and
    elements with equal keys keep the order they had. *)
Theorem X4_sortByKeyCached_stable (T : Type) (ts : list T) (getKey : T -> num)
    (first : T -> T -> Prop) :
  Permutation (sortByKeyCached ts getKey) ts
  /\ (Forall (fun t => is_nan (getKey t) = false) ts ->
      StronglySorted first ts ->
      StronglySorted (stably_before getKey first) (sortByKeyCached ts getKey)).
Proof.
  split; [apply sortByKeyCached_perm|].
  intros Hnan Hfirst. unfold sortByKeyCached.
  set (pairs := map (fun t => (getKey t, t)) ts).
  assert (Hpairs : forall p, In p pairs -> fst p = getKey (snd p)).
  { intros p Hp. apply in_map_iff in Hp. destruct Hp as (t & <- & _). reflexivity. }
  pose proof (Array_sort_perm (fun a b : num * T => fst a - fst b) pairs) as Hperm.
  apply StronglySorted_map_In
    with (R := stably_before (fun p : num * T => fst p)
                             (fun a b : num * T => first (snd a) (snd b))).
  - intros a b Ha Hb. unfold stably_before.
    rewrite <- (Hpairs a), <- (Hpairs b); [tauto | |];
      eapply Permutation_in; eassumption.
  - apply (@Array_sort_stable _ (fun p : num * T => fst p)
             (fun a b : num * T => first (snd a) (snd b))).
    + rewrite Forall_forall in *. intros p Hp. rewrite (Hpairs p Hp).
      apply Hnan. apply in_map_iff in Hp. destruct Hp as (t & <- & Ht). exact Ht.
    + apply StronglySorted_map_In with (R := first); [|exact Hfirst].
      intros a b _ _ Hab. exact Hab.
Qed.

(** X4 on three numbered elements with the keys 3, 1, 3. *)
Lemma X4_witness :
  StronglySorted
    (stably_before (fun t : nat * Z => of_Z (snd t))
                   (fun a b : nat * Z => (fst a < fst b)%nat))
    (sortByKeyCached [(0%nat, 3%Z); (1%nat, 1%Z); (2%nat, 3%Z)]
                     (fun t => of_Z (snd t))).
Proof.
  apply (proj2 (X4_sortByKeyCached_stable
                  [(0%nat, 3%Z); (1%nat, 1%Z); (2%nat, 3%Z)]
                  (fun t : nat * Z => of_Z (snd t))
                  (fun a b : nat * Z => (fst a < fst b)%nat))).
  - repeat constructor.
  - repeat constructor; cbn; lia.
Defined.

(** ** The export of the cells *)

Section SortThrowingFacts.
Variable T : Type.
Variable comparefn : T -> T -> option num.

Lemma sort_insert_throwing_perm (a : T) (l r : list T) :
  sort_insert_throwing comparefn a l = Some r -> Permutation r (a :: l).
Proof.
  revert r. induction l as [|b l IH]; intros r; cbn [sort_insert_throwing].
  - intro Heq. injection Heq as <-. apply Permutation_refl.
  - destruct (comparefn a b) as [c|]; [|discriminate].
    destruct (gtb c zero).
    + destruct (sort_insert_throwing comparefn a l) as [r'|]; [|discriminate].
      cbn [option_map]. intro Heq. injection Heq as <-.
      apply perm_trans with (b :: a :: l); [|apply perm_swap].
      apply perm_skip. apply IH. reflexivity.
    + intro Heq. injection Heq as <-. apply Permutation_refl.
Qed.

Lemma sort_insert_throwing_total (a : T) (l : list T) :
  (forall b, In b l -> comparefn a b <> None) ->
  exists r, sort_insert_throwing comparefn a l = Some r.
Proof.
  induction l as [|b l IH]; intro Hcmp; cbn [sort_insert_throwing]; [eauto|].
  destruct (comparefn a b) as [c|] eqn:E;
    [|exfalso; apply (Hcmp b); [left; reflexivity | exact E]].
  destruct (gtb c zero); [|eauto].
  destruct IH as (r & ->); [intros x Hx; apply Hcmp; right; exact Hx|].
  cbn [option_map]. eauto.
Qed.

Lemma sort_insert_throwing_filter (P : T -> bool) (a : T) (l r : list T) :
  (P a = true ->
   forall b, In b l -> P b = true -> sorts_before comparefn a b) ->
  sort_insert_throwing comparefn a l = Some r ->
  filter P r = if P a then a :: filter P l else filter P l.
Proof.
  revert r. induction l as [|b l IH]; intros r Hties; cbn [sort_insert_throwing].
  - intro Heq. injection Heq as <-. cbn [filter]. destruct (P a); reflexivity.
  - destruct (comparefn a b) as [c|] eqn:Ec; [|discriminate].
    destruct (gtb c zero) eqn:Eg.
    + destruct (sort_insert_throwing comparefn a l) as [r'|]; [|discriminate].
      cbn [option_map]. intro Heq. injection Heq as <-. cbn [filter].
      assert (Hrec : filter P r' = if P a then a :: filter P l else filter P l).
      { apply IH; [|reflexivity]. intros Ha x Hx. apply Hties; [exact Ha|].
        right. exact Hx. }
      rewrite Hrec.
      destruct (P a) eqn:Ea; [|reflexivity].
      destruct (P b) eqn:Eb; [|reflexivity].
      exfalso. destruct (Hties eq_refl b (or_introl eq_refl) Eb) as (c' & Hc' & Hle).
      congruence.
    + intro Heq. injection Heq as <-. cbn [filter]. destruct (P a); reflexivity.
Qed.

Hypothesis comparefn_trans :
  forall x y z, sorts_before comparefn x y -> sorts_before comparefn y z ->
                sorts_before comparefn x z.
Hypothesis comparefn_asym :
  forall x y c, comparefn x y = Some c -> gtb c zero = true ->
                sorts_before comparefn y x.

Lemma sort_insert_throwing_sorted (a : T) (l r : list T) :
  StronglySorted (sorts_before comparefn) l ->
  sort_insert_throwing comparefn a l = Some r ->
  StronglySorted (sorts_before comparefn) r.
Proof.
  revert r. induction l as [|b l IH]; intros r Hs; cbn [sort_insert_throwing].
  - intro Heq. injection Heq as <-. constructor; constructor.
  - inversion Hs as [|? ? Hs' Hall]; subst.
    destruct (comparefn a b) as [c|] eqn:Ec; [|discriminate].
    destruct (gtb c zero) eqn:Eg.
    + destruct (sort_insert_throwing comparefn a l) as [r'|] eqn:Er; [|discriminate].
      cbn [option_map]. intro Heq. injection Heq as <-.
      constructor; [apply IH; auto|].
      apply (Permutation_Forall (Permutation_sym (sort_insert_throwing_perm _ _ Er))).
      constructor; [|exact Hall]. eapply comparefn_asym; eassumption.
    + intro Heq. injection Heq as <-. constructor; [exact Hs|].
      assert (Hab : sorts_before comparefn a b) by (exists c; auto).
      constructor; [exact Hab|].
      rewrite Forall_forall in *. intros x Hx.
      eapply comparefn_trans; [exact Hab | apply Hall; exact Hx].
Qed.
End SortThrowingFacts.

Section ToSortedFacts.
Variable T : Type.
Variable comparefn : T -> T -> option num.

Lemma Array_toSorted_perm (l r : list T) :
  Array_toSorted comparefn l = Some r -> Permutation r l.
Proof.
  revert r. induction l as [|a l IH]; intro r; cbn [Array_toSorted].
  - intro Heq. injection Heq as <-. apply perm_nil.
  - destruct (Array_toSorted comparefn l) as [s|]; [|discriminate].
    intro Hins. apply sort_insert_throwing_perm in Hins.
    apply perm_trans with (a :: s); [exact Hins|].
    apply perm_skip. apply IH. reflexivity.
Qed.

Lemma Array_toSorted_total (l : list T) :
  (forall a b, In a l -> In b l -> comparefn a b <> None) ->
  exists r, Array_toSorted comparefn l = Some r.
Proof.
  induction l as [|a l IH]; intro Hcmp; cbn [Array_toSorted]; [eauto|].
  destruct IH as (s & Hs); [intros x y Hx Hy; apply Hcmp; right; assumption|].
  rewrite Hs. apply sort_insert_throwing_total.
  intros b Hb. apply Hcmp; [left; reflexivity|].
  right. apply (Permutation_in _ (Array_toSorted_perm _ Hs)). exact Hb.
Qed.

Lemma Array_toSorted_filter (P : T -> bool) (l r : list T) :
  (forall a b, In a l -> In b l -> P a = true -> P b = true ->
               sorts_before comparefn a b) ->
  Array_toSorted comparefn l = Some r ->
  filter P r = filter P l.
Proof.
  revert r. induction l as [|a l IH]; intros r Hties; cbn [Array_toSorted].
  - intro Heq. injection Heq as <-. reflexivity.
  - destruct (Array_toSorted comparefn l) as [s|] eqn:Hs; [|discriminate].
    intro Hins.
    rewrite (@sort_insert_throwing_filter T comparefn P a s r); [| |exact Hins].
    + cbn [filter]. rewrite (IH s); [reflexivity | | reflexivity].
      intros x y Hx Hy. apply Hties; right; assumption.
    + intros Ha b Hb HPb. apply Hties; auto; [left; reflexivity|].
      right. apply (Permutation_in _ (Array_toSorted_perm _ Hs)). exact Hb.
Qed.

Lemma Array_toSorted_sorted (l r : list T) :
  (forall x y z, sorts_before comparefn x y -> sorts_before comparefn y z ->
                 sorts_before comparefn x z) ->
  (forall x y c, comparefn x y = Some c -> gtb c zero = true ->
                 sorts_before comparefn y x) ->
  Array_toSorted comparefn l = Some r ->
  StronglySorted (sorts_before comparefn) r.
Proof.
  intros Htrans Hasym. revert r.
  induction l as [|a l IH]; intro r; cbn [Array_toSorted].
  - intro Heq. injection Heq as <-. constructor.
  - destruct (Array_toSorted comparefn l) as [s|]; [|discriminate].
    intro Hins. eapply sort_insert_throwing_sorted; eauto.
Qed.
End ToSortedFacts.

Lemma string_compare_lt_trans (a b c : string) :
  String.compare a b = Lt -> String.compare b c = Lt -> String.compare a c = Lt.
Proof.
  revert b c. induction a as [|x a IH]; intros [|y b] [|z c]; cbn [String.compare];
    try discriminate; auto.
  unfold Ascii.compare.
  destruct (N.compare_spec (N_of_ascii x) (N_of_ascii y)) as [Exy | Hxy | Hxy];
    destruct (N.compare_spec (N_of_ascii y) (N_of_ascii z)) as [Eyz | Hyz | Hyz];
    try discriminate; intros Hab Hbc;
    destruct (N.compare_spec (N_of_ascii x) (N_of_ascii z)) as [Exz | Hxz | Hxz];
    try reflexivity; try lia.
  eapply IH; eassumption.
Qed.

Lemma string_compare_refl (a : string) : String.compare a a = Eq.
Proof.
  pose proof (String.compare_antisym a a) as H.
  destruct (String.compare a a); try reflexivity; discriminate.
Qed.

Lemma string_ltb_cases (a b : string) :
  String.ltb a b = true
  \/ a = b
  \/ String.ltb b a = true.
Proof.
  unfold String.ltb. pose proof (String.compare_antisym b a) as Hanti.
  destruct (String.compare a b) eqn:E.
  - right. left. apply String.compare_eq_iff. exact E.
  - left. reflexivity.
  - right. right. rewrite Hanti. reflexivity.
Qed.

Lemma string_ltb_irrefl (a : string) : String.ltb a a = false.
Proof. unfold String.ltb. rewrite string_compare_refl. reflexivity. Qed.

Lemma string_ltb_trans (a b c : string) :
  String.ltb a b = true -> String.ltb b c = true -> String.ltb a c = true.
Proof.
  unfold String.ltb.
  destruct (String.compare a b) eqn:Eab; try discriminate.
  destruct (String.compare b c) eqn:Ebc; try discriminate.
  rewrite (string_compare_lt_trans _ _ _ Eab Ebc). reflexivity.
Qed.

Lemma string_ltb_asym (a b : string) :
  String.ltb a b = true -> String.ltb b a = false.
Proof.
  intro Hab. destruct (String.ltb b a) eqn:Hba; [|reflexivity].
  pose proof (string_ltb_trans _ _ _ Hab Hba) as Hc.
  rewrite string_ltb_irrefl in Hc. discriminate.
Qed.

Lemma rows_compare (ra rb : N) :
  gtb (of_Z (Z.of_N ra) - of_Z (Z.of_N rb)) zero = false <-> (ra <= rb)%N.
Proof.
  unfold gtb, of_Z, sub, zero. cbn [neg add ltb]. rewrite Qltb_ge.
  unfold Qle, Qplus, Qopp, inject_Z. cbn [Qnum Qden]. lia.
Qed.

(** The sign of [cellPositionCompare] is the order by column, then row. *)
Lemma cellPositionCompare_le (a b : CellPosition) :
  gtb (cellPositionCompare a b) zero = false <-> position_le a b.
Proof.
  unfold cellPositionCompare, position_le.
  destruct (String.ltb (CellPosition.column a) (CellPosition.column b)) eqn:Eab.
  - split; [left; reflexivity | reflexivity].
  - destruct (String.ltb (CellPosition.column b) (CellPosition.column a)) eqn:Eba.
    + split; [discriminate|].
      intros [Hc | [Heq _]]; [discriminate|].
      rewrite Heq, string_ltb_irrefl in Eba. discriminate.
    + rewrite rows_compare. split.
      * intro Hle. right. split; [|exact Hle].
        destruct (string_ltb_cases (CellPosition.column a) (CellPosition.column b))
          as [Hc | [Hc | Hc]]; congruence.
      * intros [Hc | [_ Hle]]; [discriminate | exact Hle].
Qed.

Lemma position_le_refl (a : CellPosition) : position_le a a.
Proof. right. split; [reflexivity | lia]. Qed.

Lemma position_le_trans (a b c : CellPosition) :
  position_le a b -> position_le b c -> position_le a c.
Proof.
  unfold position_le. intros [Hab | [Eab Hab]] [Hbc | [Ebc Hbc]].
  - left. eapply string_ltb_trans; eassumption.
  - left. rewrite <- Ebc. exact Hab.
  - left. rewrite Eab. exact Hbc.
  - right. split; [congruence | lia].
Qed.

Lemma position_le_total (a b : CellPosition) :
  gtb (cellPositionCompare a b) zero = true -> position_le b a.
Proof.
  intro Hgt. unfold position_le.
  destruct (string_ltb_cases (CellPosition.column a) (CellPosition.column b))
    as [Hc | [Hc | Hc]].
  - exfalso. assert (Hle : position_le a b) by (left; exact Hc).
    apply cellPositionCompare_le in Hle. congruence.
  - right. split; [congruence|].
    destruct (N.le_gt_cases (CellPosition.row b) (CellPosition.row a)) as [Hle | Hlt];
      [exact Hle|].
    exfalso. assert (Hle : position_le a b) by (right; split; [exact Hc | lia]).
    apply cellPositionCompare_le in Hle. congruence.
  - left. exact Hc.
Qed.

Lemma compare_cells_before (a b : Cell) :
  sorts_before compare_cells a b <-> label_le (Cell.name a) (Cell.name b).
Proof.
  unfold sorts_before, compare_cells, label_le. split.
  - intros (c & Hc & Hle).
    destruct (cellNameToCellPosition (Cell.name a)) as [pa|]; [|discriminate].
    destruct (cellNameToCellPosition (Cell.name b)) as [pb|]; [|discriminate].
    injection Hc as <-. exists pa, pb. repeat split.
    apply cellPositionCompare_le. exact Hle.
  - intros (pa & pb & -> & -> & Hle).
    eexists. split; [reflexivity|]. apply cellPositionCompare_le. exact Hle.
Qed.

Lemma label_le_trans (n1 n2 n3 : string) :
  label_le n1 n2 -> label_le n2 n3 -> label_le n1 n3.
Proof.
  intros (p1 & p2 & H1 & H2 & H12) (p2' & p3 & H2' & H3 & H23).
  assert (p2' = p2) by congruence. subst p2'.
  exists p1, p3. repeat split; auto. eapply position_le_trans; eassumption.
Qed.

Lemma first_invalid_name_None (cells : list Cell) :
  first_invalid_name cells = None <->
  forall c, In c cells -> cellNameToCellPosition (Cell.name c) <> None.
Proof.
  induction cells as [|c cells IH]; cbn [first_invalid_name].
  - split; [intros _ c [] | reflexivity].
  - destruct (cellNameToCellPosition (Cell.name c)) eqn:E.
    + rewrite IH. split.
      * intros Hall x [<- | Hx]; [congruence | apply Hall; exact Hx].
      * intros Hall x Hx. apply Hall. right. exact Hx.
    + split; [discriminate|]. intro Hall. exfalso.
      apply (Hall c); [left; reflexivity | exact E].
Qed.

Lemma first_invalid_name_Some (cells : list Cell) (name : string) :
  first_invalid_name cells = Some name <->
  exists (l1 : list Cell) (c : Cell) (l2 : list Cell),
    cells = l1 ++ c :: l2
    /\ Cell.name c = name
    /\ cellNameToCellPosition name = None
    /\ forall x, In x l1 -> cellNameToCellPosition (Cell.name x) <> None.
Proof.
  induction cells as [|c cells IH]; cbn [first_invalid_name].
  - split; [discriminate|]. intros (l1 & c & l2 & Heq & _).
    destruct l1; discriminate.
  - destruct (cellNameToCellPosition (Cell.name c)) eqn:E.
    + rewrite IH. split.
      * intros (l1 & c' & l2 & -> & Hn & Hp & Hall).
        exists (c :: l1), c', l2. repeat split; auto.
        intros x [<- | Hx]; [congruence | apply Hall; exact Hx].
      * intros (l1 & c' & l2 & Heq & Hn & Hp & Hall).
        destruct l1 as [|c0 l1]; cbn [app] in Heq; injection Heq as <- ->.
        -- subst name. congruence.
        -- exists l1, c', l2. repeat split; auto.
           intros x Hx. apply Hall. right. exact Hx.
    + split.
      * intro Heq. injection Heq as <-. exists [], c, cells.
        repeat split; auto; intros x [].
      * intros (l1 & c' & l2 & Heq & Hn & Hp & Hall).
        destruct l1 as [|c0 l1]; cbn [app] in Heq; injection Heq as <- ->.
        -- congruence.
        -- exfalso. apply (Hall c); [left; reflexivity | exact E].
Qed.

(** The object [cellNameToRect]. *)
Lemma object_set_keys (o : list (string * Rect)) (key : string) (value : Rect) :
  (In key (map fst o) -> map fst (object_set o key value) = map fst o)
  /\ (~ In key (map fst o) -> map fst (object_set o key value) = map fst o ++ [key]).
Proof.
  induction o as [|[k v] o IH]; cbn [object_set map fst In app].
  - split; [intros [] | reflexivity].
  - destruct (String.eqb_spec k key) as [-> | Hne]; cbn [map fst].
    + split; [reflexivity | intro Hc; exfalso; apply Hc; left; reflexivity].
    + destruct IH as [IHin IHout]. split.
      * intros [Hc | Hin]; [contradiction|]. rewrite IHin by exact Hin. reflexivity.
      * intro Hnot. rewrite IHout by tauto. reflexivity.
Qed.

Lemma object_get_set (o : list (string * Rect)) (key key' : string) (value : Rect) :
  object_get (object_set o key value) key'
  = if String.eqb key key' then Some value else object_get o key'.
Proof.
  induction o as [|[k v] o IH]; cbn [object_set object_get].
  - destruct (String.eqb key key'); reflexivity.
  - destruct (String.eqb_spec k key) as [-> | Hne]; cbn [object_get].
    + destruct (String.eqb key key'); reflexivity.
    + rewrite IH. destruct (String.eqb_spec k key') as [-> | Hne'].
      * destruct (String.eqb_spec key key'); [congruence | reflexivity].
      * reflexivity.
Qed.

Lemma StronglySorted_snoc_inv (A : Type) (R : A -> A -> Prop) (l : list A) (a : A) :
  StronglySorted R (l ++ [a]) ->
  StronglySorted R l /\ Forall (fun x => R x a) l.
Proof.
  induction l as [|b l IH]; cbn [app]; intro Hs.
  - split; constructor.
  - inversion Hs as [|? ? Hs' Hall]; subst.
    destruct (IH Hs') as [Hl Hlast]. split.
    + constructor; [exact Hl|].
      rewrite Forall_forall in *. intros x Hx. apply Hall.
      apply in_or_app. left. exact Hx.
    + constructor; [|exact Hlast].
      rewrite Forall_forall in Hall. apply Hall.
      apply in_or_app. right. left. reflexivity.
Qed.

(** The object after the last loop of [handleCopyOutput] over the cells
    [cells]: one property for each name, in the order of the first cells of
    each name, with the rectangle of the last cell of the name. *)
Lemma cellNameToRect_spec (cells : list Cell) :
  let o := fold_left (fun o cell => object_set o (Cell.name cell) (Cell.rect cell))
                     cells [] in
  NoDup (map fst o)
  /\ (forall n, In n (map fst o) <-> exists c, In c cells /\ Cell.name c = n)
  /\ (forall R : string -> string -> Prop,
         StronglySorted R (map Cell.name cells) -> StronglySorted R (map fst o))
  /\ (forall n, object_get o n = last_rect_named cells n).
Proof.
  induction cells as [|c cells IH] using rev_ind.
  - cbn. repeat split; try constructor.
    + intros [].
    + intros (c & [] & _).
  - cbv zeta in *. rewrite fold_left_app. cbn [fold_left].
    set (o := fold_left _ cells []) in *.
    destruct IH as (Hnd & Hkeys & Hsorted & Hget).
    destruct (object_set_keys o (Cell.name c) (Cell.rect c)) as [Hin Hout].
    assert (Hnames : forall n, (exists x, In x (cells ++ [c]) /\ Cell.name x = n)
                               <-> (exists x, In x cells /\ Cell.name x = n)
                                   \/ Cell.name c = n).
    { intro n. split.
      - intros (x & Hx & Hn). apply in_app_or in Hx.
        destruct Hx as [Hx | [<- | []]]; [left; eauto | right; exact Hn].
      - intros [(x & Hx & Hn) | Hn].
        + exists x. split; [apply in_or_app; left; exact Hx | exact Hn].
        + exists c. split; [apply in_or_app; right; left; reflexivity | exact Hn]. }
    split; [|split; [|split]].
    + destruct (in_dec string_dec (Cell.name c) (map fst o)) as [Hc | Hc].
      * rewrite (Hin Hc). exact Hnd.
      * rewrite (Hout Hc). apply NoDup_app; [exact Hnd | repeat constructor; intros [] |].
        intros a Ha [<- | []]. contradiction.
    + intro n. rewrite Hnames, <- Hkeys.
      destruct (in_dec string_dec (Cell.name c) (map fst o)) as [Hc | Hc].
      * rewrite (Hin Hc). split; [tauto|]. intros [Hn | <-]; assumption.
      * rewrite (Hout Hc), in_app_iff. cbn [In]. tauto.
    + intros R HR. rewrite map_app in HR. cbn [map] in HR.
      apply StronglySorted_snoc_inv in HR. destruct HR as [HR Hlast].
      destruct (in_dec string_dec (Cell.name c) (map fst o)) as [Hc | Hc].
      * rewrite (Hin Hc). apply Hsorted. exact HR.
      * rewrite (Hout Hc). apply StronglySorted_snoc; [apply Hsorted; exact HR|].
        rewrite Forall_forall in *. intros k Hk. apply Hlast.
        apply Hkeys in Hk. destruct Hk as (x & Hx & <-). apply in_map. exact Hx.
    + intro n. rewrite object_get_set, Hget. unfold last_rect_named.
      rewrite filter_app, map_app. cbn [filter].
      destruct (String.eqb (Cell.name c) n); cbn [map].
      * rewrite last_last. reflexivity.
      * rewrite app_nil_r. reflexivity.
Qed.

(** X5.  [cellPositionCompare] orders the positions by column and then by
    row: its result is not above zero exactly when the first position is
    not after the second, and that order is reflexive, transitive, total,
    and two positions each not after the other are the same. *)
Theorem X5_cellPositionCompare_order :
  (forall a b : CellPosition,
      gtb (cellPositionCompare a b) zero = false <-> position_le a b)
  /\ (forall a : CellPosition, position_le a a)
  /\ (forall a b c : CellPosition,
         position_le a b -> position_le b c -> position_le a c)
  /\ (forall a b : CellPosition, position_le a b \/ position_le b a)
  /\ (forall a b : CellPosition, position_le a b -> position_le b a -> a = b).
Proof.
  split; [exact cellPositionCompare_le|].
  split; [exact position_le_refl|].
  split; [exact position_le_trans|]. split.
  - intros a b. destruct (gtb (cellPositionCompare a b) zero) eqn:E.
    + right. apply position_le_total. exact E.
    + left. apply cellPositionCompare_le. exact E.
  - intros [ca ra] [cb rb]. unfold position_le.
    cbn [CellPosition.column CellPosition.row].
    intros [Hab | [Eab Hab]] [Hba | [Eba Hba]].
    + rewrite (string_ltb_asym _ _ Hab) in Hba. discriminate.
    + subst. rewrite string_ltb_irrefl in Hab. discriminate.
    + subst. rewrite string_ltb_irrefl in Hba. discriminate.
    + subst. f_equal. lia.
Qed.

(** X5 on the positions [a12] and [b3]: the column decides. *)
Lemma X5_witness :
  position_le {| CellPosition.column := "a"; CellPosition.row := 12 |}
              {| CellPosition.column := "b"; CellPosition.row := 3 |}.
Proof.
  apply (proj1 X5_cellPositionCompare_order). reflexivity.
Defined.

Lemma compare_cells_total (cells : list Cell) :
  first_invalid_name cells = None ->
  forall a b, In a cells -> In b cells -> compare_cells a b <> None.
Proof.
  intros Hvalid a b Ha Hb. rewrite first_invalid_name_None in Hvalid.
  unfold compare_cells.
  pose proof (Hvalid a Ha). pose proof (Hvalid b Hb).
  destruct (cellNameToCellPosition (Cell.name a)); [|congruence].
  destruct (cellNameToCellPosition (Cell.name b)); [discriminate | congruence].
Qed.

(** X6.  The export is blocked exactly when the name of some cell is not a
    label, and the alert then names the first such cell of the list; when
    all names are labels the object is written, and the [assert] of the
    comparison function never fails. *)
Theorem X6_export_blocked_by_first_invalid_name (editor : EditorState) :
  (forall name : string,
      handleCopyOutput editor = alert name <->
      exists (l1 : list Cell) (c : Cell) (l2 : list Cell),
        cells editor = l1 ++ c :: l2
        /\ Cell.name c = name
        /\ cellNameToCellPosition name = None
        /\ forall x, In x l1 -> cellNameToCellPosition (Cell.name x) <> None)
  /\ ((exists o, handleCopyOutput editor = writeText o) <->
      forall c, In c (cells editor) -> cellNameToCellPosition (Cell.name c) <> None)
  /\ handleCopyOutput editor <> assertion_failed.
Proof.
  unfold handleCopyOutput.
  destruct (first_invalid_name (cells editor)) as [bad|] eqn:Ebad.
  - split; [|split; [|discriminate]].
    + intro name. rewrite <- first_invalid_name_Some, Ebad.
      split; intro Heq; injection Heq as ->; reflexivity.
    + split; [intros (o & Ho); discriminate|].
      intro Hall. apply first_invalid_name_None in Hall. congruence.
  - destruct (Array_toSorted_total compare_cells (cells editor)
                (compare_cells_total _ Ebad)) as (sorted & ->).
    split; [|split; [|discriminate]].
    + intro name. rewrite <- first_invalid_name_Some, Ebad.
      split; discriminate.
    + split; [|eauto]. intros _. apply first_invalid_name_None. exact Ebad.
Qed.

(** X6 on two cells, the second of which is named [z9]. *)
Lemma X6_witness :
  handleCopyOutput
    (with_cells frame_editor
       [ {| Cell.id := 1; Cell.name := "a1";
            Cell.rect := {| Rect.x := of_Z 0; Rect.y := of_Z 0;
                            Rect.width := of_Z 1; Rect.height := of_Z 1 |} |};
         {| Cell.id := 2; Cell.name := "z9";
            Cell.rect := {| Rect.x := of_Z 0; Rect.y := of_Z 2;
                            Rect.width := of_Z 1; Rect.height := of_Z 1 |} |} ])
  = alert "z9".
Proof.
  apply (proj1 (X6_export_blocked_by_first_invalid_name _)).
  eexists [_], _, []. split; [reflexivity|]. split; [reflexivity|].
  split; [reflexivity|]. intros x [<- | []]. discriminate.
Defined.



(** ** Names that are labels *)

(** X8.  Printing a position and parsing the name gives the position back,
    for every position whose column is the column of a label and whose row
    is at most 2^53, the range in which the printed number is the decimal
    representation of the row and is parsed exactly: the names that the
    editor builds from a label and such a row are labels, at that column and
    row.  The string of a number, which is the default name of a new cell,
    is never a label. *)
Theorem X8_printed_position_parses :
  (forall (name : string) (p : CellPosition) (r : N),
      cellNameToCellPosition name = Some p ->
      (r <= 2 ^ 53)%N ->
      cellNameToCellPosition
        (cellPositionToCellName
           {| CellPosition.column := CellPosition.column p; CellPosition.row := r |})
      = Some {| CellPosition.column := CellPosition.column p;
                CellPosition.row := r |})
  /\ (forall (name : string) (p : CellPosition),
         cellNameToCellPosition name = Some p ->
         (CellPosition.row p <= 2 ^ 53)%N ->
         cellNameToCellPosition (cellPositionToCellName p) = Some p)
  /\ (forall n : N, cellNameToCellPosition (toString n) = None).
Proof.
  split; [|split; [|exact toString_not_label]].
  - intros name p r Hp _. apply (@label_round_trip name p r Hp).
  - intros name p Hp _.
    pose proof (@label_round_trip name p (CellPosition.row p) Hp) as Hr.
    destruct p as [column row]. exact Hr.
Qed.

(** X8 on the label [c007]: its position prints as [c7]. *)
Lemma X8_witness :
  cellNameToCellPosition
    (cellPositionToCellName {| CellPosition.column := "c"; CellPosition.row := 7 |})
  = Some {| CellPosition.column := "c"; CellPosition.row := 7 |}.
Proof.
  apply (proj1 (proj2 X8_printed_position_parses) "c007").
  - reflexivity.
  - vm_compute. discriminate.
Defined.

(** X9.  The name that [inferName] gives a new cell is a label when the
    cell above that it looks at has a label with a row below 2^53, and it
    then denotes the position one row below, in the same column; with no
    cell above, or one whose name is no label, the new cell keeps the string
    of the counter, which is no label. *)
Theorem X9_inferred_name_position `{MathLib} (cells : list Cell) (count : N)
    (top_ right_ bottom_ left_ : Edge) :
  let fresh := newCell count top_ right_ bottom_ left_ in
  let name := Cell.name (inferName cells fresh) in
  (forall (cellAbove : Cell) (p : CellPosition),
      maxByKey (alignedAbove cells fresh) bottom_of = Some cellAbove ->
      cellNameToCellPosition (Cell.name cellAbove) = Some p ->
      (CellPosition.row p < 2 ^ 53)%N ->
      cellNameToCellPosition name
      = Some {| CellPosition.column := CellPosition.column p;
                CellPosition.row := (CellPosition.row p + 1)%N |})
  /\ (forall cellAbove : Cell,
         maxByKey (alignedAbove cells fresh) bottom_of = Some cellAbove ->
         cellNameToCellPosition (Cell.name cellAbove) = None ->
         cellNameToCellPosition name = None)
  /\ (maxByKey (alignedAbove cells fresh) bottom_of = None ->
      cellNameToCellPosition name = None).
Proof.
  intros fresh name. subst name. unfold inferName.
  change (fun c : Cell => Rect.y (Cell.rect c) + Rect.height (Cell.rect c))
    with bottom_of.
  destruct (maxByKey (alignedAbove cells fresh) bottom_of) as [above_|].
  - split; [|split; [|discriminate]].
    + intros cellAbove p Heq Hp _. injection Heq as ->. rewrite Hp.
      cbn [Cell.name Cell.with_name]. apply (@label_round_trip _ p _ Hp).
    + intros cellAbove Heq Hp. injection Heq as ->. rewrite Hp.
      apply toString_not_label.
  - split; [discriminate|]. split; [discriminate|].
    intros _. apply toString_not_label.
Qed.

(** X9 on a cell named [b7] and a new cell below it. *)
Lemma X9_witness :
  let cells :=
    [ {| Cell.id := 1; Cell.name := "b7";
         Cell.rect := {| Rect.x := of_Z 0; Rect.y := of_Z 0;
                         Rect.width := of_Z 4; Rect.height := of_Z 1 |} |} ] in
  let top_ := Edge.horizontal Edge.bottom (of_Z 0) (of_Z 3) (of_Z 4) in
  let right_ := Edge.vertical Edge.right (of_Z 0) (of_Z 2) (of_Z 1) in
  let bottom_ := Edge.horizontal Edge.bottom (of_Z 0) (of_Z 2) (of_Z 4) in
  let left_ := Edge.vertical Edge.left (of_Z 4) (of_Z 2) (of_Z 1) in
  cellNameToCellPosition
    (Cell.name (inferName cells (newCell 2 top_ right_ bottom_ left_)))
  = Some {| CellPosition.column := "b"; CellPosition.row := 8 |}.
Proof.
  intros cells top_ right_ bottom_ left_.
  apply (proj1 (@X9_inferred_name_position math_ref cells 2 top_ right_ bottom_ left_)
               (nth 0 cells (newCell 0 top_ right_ bottom_ left_))
               {| CellPosition.column := "b"; CellPosition.row := 7 |}).
  - vm_compute. reflexivity.
  - reflexivity.
  - vm_compute. reflexivity.
Defined.

(** Every cell after the loop of the renaming is the cell that was at its
    index, or that cell under a name of the loop, whose rank is below the
    number of references. *)
Lemma renumber_names_bound (pos : CellPosition) (refs : list (nat * Cell)) (i : N)
    (cells : list Cell) (j : nat) (c' : Cell) :
  nth_error (renumber pos i refs cells) j = Some c' ->
  nth_error cells j = Some c'
  \/ exists (c : Cell) (k : N),
      nth_error cells j = Some c /\ c' = Cell.with_name c (numbered pos k)
      /\ (i <= k < i + N.of_nat (List.length refs))%N.
Proof.
  revert i cells. induction refs as [|[k0 c0] refs IH]; intros i cells;
    cbn [renumber]; [auto|].
  intro Hj. apply IH in Hj. rewrite !assign_name_nth in Hj.
  cbn [List.length].
  destruct (nth_error cells j) as [c|].
  - destruct (Nat.eqb j k0).
    + right. exists c. destruct Hj as [Hj | (c1 & k & Hj & -> & Hk)].
      * injection Hj as <-. exists i. split; [reflexivity|].
        split; [reflexivity | lia].
      * injection Hj as <-. exists k. split; [reflexivity|].
        split; [reflexivity | lia].
    + destruct Hj as [Hj | (c1 & k & Hj & -> & Hk)]; [left; exact Hj|].
      injection Hj as <-. right. exists c, k. split; [reflexivity|].
      split; [reflexivity | lia].
  - destruct Hj as [Hj | (c1 & k & Hj & _)]; discriminate.
Qed.

Lemma filter_length (A : Type) (f : A -> bool) (l : list A) :
  (List.length (filter f l) <= List.length l)%nat.
Proof.
  induction l as [|a l IH]; [apply Nat.le_refl|].
  cbn [filter]. destruct (f a); cbn [List.length]; lia.
Qed.

Lemma alignedBelow_length (cells : list Cell) (cell : Cell) :
  (List.length (alignedBelow cells cell) <= List.length cells)%nat.
Proof.
  unfold alignedBelow. eapply Nat.le_trans; [apply filter_length|].
  unfold indexed. rewrite length_combine, length_seq. lia.
Qed.

Lemma assign_name_length (cells : list Cell) (i : nat) (s : string) :
  List.length (assign_name cells i s) = List.length cells.
Proof.
  rewrite <- (length_map Cell.id (assign_name cells i s)).
  rewrite (proj1 (assign_name_ids_rects cells i s)). apply length_map.
Qed.

(** X10.  Renaming a cell to a label never produces a name that is not a
    label, as long as the rows stay within 2^53, the range of the exact
    integers: each cell of the editor afterwards is the cell that was at its
    index, unchanged, or that cell with a label of the column of the new
    name, at the row of the new name or below it by at most the number of
    cells.  So an editor whose names are all labels stays one under such a
    renaming. *)
Theorem X10_rename_to_label_keeps_labels (editor : EditorState) (i : nat)
    (value : string) (p : CellPosition) :
  cellNameToCellPosition value = Some p ->
  (CellPosition.row p + N.of_nat (List.length (cells editor)) <= 2 ^ 53)%N ->
  let editor' := handleCellNameInput editor i value in
  (forall (j : nat) (c' : Cell),
      nth_error (cells editor') j = Some c' ->
      nth_error (cells editor) j = Some c'
      \/ exists (c : Cell) (q : CellPosition),
          nth_error (cells editor) j = Some c
          /\ Cell.id c' = Cell.id c /\ Cell.rect c' = Cell.rect c
          /\ cellNameToCellPosition (Cell.name c') = Some q
          /\ CellPosition.column q = CellPosition.column p
          /\ (CellPosition.row p <= CellPosition.row q
              <= CellPosition.row p + N.of_nat (List.length (cells editor)))%N)
  /\ ((forall c, In c (cells editor) -> cellNameToCellPosition (Cell.name c) <> None) ->
      forall c, In c (cells editor') -> cellNameToCellPosition (Cell.name c) <> None).
Proof.
  intros Hp _ editor'.
  assert (Hcells : forall (j : nat) (c' : Cell),
             nth_error (cells editor') j = Some c' ->
             nth_error (cells editor) j = Some c'
             \/ exists (c : Cell) (q : CellPosition),
                 nth_error (cells editor) j = Some c
                 /\ Cell.id c' = Cell.id c /\ Cell.rect c' = Cell.rect c
                 /\ cellNameToCellPosition (Cell.name c') = Some q
                 /\ CellPosition.column q = CellPosition.column p
                 /\ (CellPosition.row p <= CellPosition.row q
                     <= CellPosition.row p
                        + N.of_nat (List.length (cells editor)))%N).
  { intros j c'. unfold editor', handleCellNameInput.
    destruct (nth_error (cells editor) i) as [c0|]; [|auto].
    rewrite Hp. cbn [cells with_cells]. intro Hj.
    assert (Hfirst : forall c1,
               nth_error (assign_name (cells editor) i value) j = Some c1 ->
               exists c, nth_error (cells editor) j = Some c
                         /\ (c1 = c \/ c1 = Cell.with_name c value)).
    { intros c1 H1. rewrite assign_name_nth in H1.
      destruct (nth_error (cells editor) j) as [c|]; [|discriminate].
      injection H1 as <-. exists c. split; [reflexivity|].
      destruct (Nat.eqb j i); auto. }
    apply renumber_names_bound in Hj.
    rewrite Array_sort_length in Hj.
    pose proof (alignedBelow_length (assign_name (cells editor) i value) c0) as Hlen.
    rewrite assign_name_length in Hlen.
    destruct Hj as [Hj | (c1 & k & Hj & -> & Hk)].
    - destruct (Hfirst _ Hj) as (c & Hc & [-> | ->]); [left; exact Hc|].
      right. exists c, p. cbn [Cell.id Cell.rect Cell.name Cell.with_name].
      repeat split; auto; lia.
    - destruct (Hfirst _ Hj) as (c & Hc & Hc1).
      right. exists c. eexists.
      split; [exact Hc|].
      split; [destruct Hc1 as [-> | ->]; reflexivity|].
      split; [destruct Hc1 as [-> | ->]; reflexivity|].
      cbn [Cell.name Cell.with_name]. unfold numbered.
      split; [apply (@label_round_trip value p _ Hp)|].
      cbn [CellPosition.column CellPosition.row]. split; [reflexivity | lia]. }
  split; [exact Hcells|].
  intros Hall c Hc. apply In_nth_error in Hc. destruct Hc as (j & Hj).
  destruct (Hcells j c Hj) as [Hold | (c1 & q & _ & _ & _ & -> & _)]; [|discriminate].
  apply Hall. eapply nth_error_In. exact Hold.
Qed.

(** X10 on two cells, one below the other: the upper one is renamed to
    [c3], and the lower one becomes [c4]. *)
Lemma X10_witness :
  let editor :=
    with_cells frame_editor
      [ {| Cell.id := 1; Cell.name := "1";
           Cell.rect := {| Rect.x := of_Z 0; Rect.y := of_Z 0;
                           Rect.width := of_Z 4; Rect.height := of_Z 1 |} |};
        {| Cell.id := 2; Cell.name := "2";
           Cell.rect := {| Rect.x := of_Z 0; Rect.y := of_Z 2;
                           Rect.width := of_Z 4; Rect.height := of_Z 1 |} |} ] in
  option_map Cell.name (nth_error (cells (handleCellNameInput editor 0 "c3")) 1)
  = Some "c4"
  /\ exists (c : Cell) (q : CellPosition),
      nth_error (cells editor) 1 = Some c
      /\ cellNameToCellPosition "c4" = Some q
      /\ (3 <= CellPosition.row q)%N.
Proof.
  intro editor. split; [vm_compute; reflexivity|].
  assert (Hbound : (3 + N.of_nat (List.length (cells editor)) <= 2 ^ 53)%N)
    by (vm_compute; discriminate).
  destruct (proj1 (@X10_rename_to_label_keeps_labels editor 0 "c3"
                     {| CellPosition.column := "c"; CellPosition.row := 3 |}
                     eq_refl Hbound)
                  1%nat
                  {| Cell.id := 2; Cell.name := "c4";
                     Cell.rect := {| Rect.x := of_Z 0; Rect.y := of_Z 2;
                                     Rect.width := of_Z 4; Rect.height := of_Z 1 |} |})
    as [Hsame | (c & q & Hc & _ & _ & Hq & _ & Hrow & _)].
  - vm_compute. reflexivity.
  - vm_compute in Hsame. discriminate Hsame.
  - exists c, q. split; [exact Hc|]. split; [exact Hq | exact Hrow].
Defined.

(** ** Sessions of the editor *)

Lemma session_app `{MathLib} (editor : EditorState) (es1 es2 : list Event) :
  session editor (es1 ++ es2) = session (session editor es1) es2.
Proof. unfold session. apply fold_left_app. Qed.

(** A property of the loaded editor that every handler keeps holds after
    every session. *)
Lemma session_invariant `{MathLib} (P : EditorState -> Prop)
    (editor : EditorState) (events : list Event) :
  P editor ->
  (forall (ed : EditorState) (e : Event), P ed -> P (handle ed e)) ->
  P (session editor events).
Proof.
  intros H0 Hstep. revert editor H0.
  induction events as [|e events IH]; intros editor H0; [exact H0|].
  cbn [session fold_left]. apply IH. apply Hstep. exact H0.
Qed.

Lemma session_reachable `{MathLib} (editor : EditorState) (events : list Event) :
  reachable editor -> reachable (session editor events).
Proof.
  intro H0. apply session_invariant; [exact H0|].
  intros ed [viewScale pos | viewScale keep pos | cell | cell value |] Hed;
    cbn [handle]; constructor; exact Hed.
Qed.

Lemma getClosestSelectableEdge_Some `{MathLib} (viewScale : num)
    (app : EditorState) (p : Vector) (e : Edge) :
  getClosestSelectableEdge viewScale app p = Some e ->
  In e (edges app) /\ SelectedEdges.get (selectedEdges app) (Edge.kind e) = None.
Proof.
  unfold getClosestSelectableEdge.
  match goal with
  | |- context [minByKey ?es ?f] =>
      pose proof (@minByKey_Some _ f es) as HSome;
      destruct (minByKey es f) as [best|]; [|discriminate]
  end.
  destruct (HSome best eq_refl) as (Hin & _).
  destruct (_ <? _); [|discriminate].
  intro Heq. injection Heq as <-.
  apply filter_In in Hin. destruct Hin as [Hin Hsel].
  split; [exact Hin|].
  destruct (SelectedEdges.get (selectedEdges app) (Edge.kind best));
    [discriminate | reflexivity].
Qed.

Lemma get_set (s : SelectedEdges) (k k' : Kind) (v : option Edge) :
  SelectedEdges.get (SelectedEdges.set s k v) k'
  = if match k, k' with
       | Kind.top, Kind.top | Kind.right, Kind.right
       | Kind.bottom, Kind.bottom | Kind.left, Kind.left => true
       | _, _ => false
       end
    then v else SelectedEdges.get s k'.
Proof. destruct k, k'; reflexivity. Qed.

(** What a click does: nothing, or it fills the empty slot of the nearest
    selectable edge, or it fills it and completes a cell. *)
Lemma handleClick_cases `{MathLib} (viewScale : num) (keep : bool)
    (editor : EditorState) (pos : option Vector) :
  let editor' := handleClick viewScale keep editor pos in
  editor' = editor
  \/ exists closest : Edge,
      (exists p : Vector,
          pos = Some p
          /\ getClosestSelectableEdge viewScale editor p = Some closest)
      /\ In closest (edges editor)
      /\ SelectedEdges.get (selectedEdges editor) (Edge.kind closest) = None
      /\ let selected :=
           SelectedEdges.set (selectedEdges editor) (Edge.kind closest)
                             (Some closest) in
         (~ complete selected
          /\ editor'
             = {| svgUrl := svgUrl editor;
                  svgWidth := svgWidth editor;
                  svgHeight := svgHeight editor;
                  edges := edges editor;
                  highlightedEdge := highlightedEdge editor;
                  selectedEdges := selected;
                  cells := cells editor;
                  cellCreatedCount := cellCreatedCount editor |})
         \/ exists top_ right_ bottom_ left_ : Edge,
             SelectedEdges.top selected = Some top_
             /\ SelectedEdges.right selected = Some right_
             /\ SelectedEdges.bottom selected = Some bottom_
             /\ SelectedEdges.left selected = Some left_
             /\ editor'
                = {| svgUrl := svgUrl editor;
                     svgWidth := svgWidth editor;
                     svgHeight := svgHeight editor;
                     edges := edges editor;
                     highlightedEdge := None;
                     selectedEdges :=
                       {| SelectedEdges.top := None;
                          SelectedEdges.right :=
                            if negb keep then None else Some right_;
                          SelectedEdges.bottom := None;
                          SelectedEdges.left :=
                            if negb keep then None else Some left_ |};
                     cells := cells editor
                              ++ [inferName (cells editor)
                                    (newCell (cellCreatedCount editor + 1)
                                             top_ right_ bottom_ left_)];
                     cellCreatedCount := (cellCreatedCount editor + 1)%N |}.
Proof.
  intro editor'. subst editor'. unfold handleClick.
  destruct pos as [pos|]; [|left; reflexivity].
  destruct (getClosestSelectableEdge viewScale editor pos) as [closest|] eqn:Ec;
    [|left; reflexivity].
  pose proof (getClosestSelectableEdge_Some _ _ _ Ec) as [Hin Hslot].
  right. exists closest. split; [exists pos; split; [reflexivity | exact Ec]|].
  split; [exact Hin|]. split; [exact Hslot|].
  cbv zeta.
  set (selected := SelectedEdges.set (selectedEdges editor) (Edge.kind closest)
                                     (Some closest)).
  unfold complete.
  destruct (SelectedEdges.top selected) as [top_|];
    [|left; split; [intros (Hn & _); apply Hn; reflexivity | reflexivity]].
  destruct (SelectedEdges.right selected) as [right_|];
    [|left; split; [intros (_ & Hn & _); apply Hn; reflexivity | reflexivity]].
  destruct (SelectedEdges.bottom selected) as [bottom_|];
    [|left; split; [intros (_ & _ & Hn & _); apply Hn; reflexivity | reflexivity]].
  destruct (SelectedEdges.left selected) as [left_|];
    [|left; split; [intros (_ & _ & _ & Hn); apply Hn; reflexivity | reflexivity]].
  right. exists top_, right_, bottom_, left_. repeat split; reflexivity.
Qed.

Lemma handle_document `{MathLib} (ed : EditorState) (e : Event) :
  svgUrl (handle ed e) = svgUrl ed
  /\ svgWidth (handle ed e) = svgWidth ed
  /\ svgHeight (handle ed e) = svgHeight ed
  /\ edges (handle ed e) = edges ed.
Proof.
  destruct e as [viewScale pos | viewScale keep pos | cell | cell value |];
    cbn [handle].
  - repeat split.
  - destruct (handleClick_cases viewScale keep ed pos)
      as [-> | (closest & _ & _ & _ & [[_ ->] | (t & r & b & l & _ & _ & _ & _ & ->)])];
      repeat split.
  - unfold handleCellDelete. destruct (_ <? _)%nat; repeat split.
  - unfold handleCellNameInput.
    destruct (nth_error (cells ed) cell); [|repeat split].
    destruct (cellNameToCellPosition value); repeat split.
  - repeat split.
Qed.

Lemma slot_of_selected (ed : EditorState) (closest : Edge) :
  selection_ok ed -> In closest (edges ed) ->
  forall (kind : Kind) (e : Edge),
    SelectedEdges.get
      (SelectedEdges.set (selectedEdges ed) (Edge.kind closest) (Some closest)) kind
    = Some e ->
    Edge.kind e = kind /\ In e (edges ed).
Proof.
  intros [Hsel _] Hin kind e. rewrite get_set.
  destruct (Edge.kind closest) eqn:Ek, kind;
    try (apply Hsel);
    intro Heq; injection Heq as <-; split; assumption.
Qed.

Lemma handle_selection `{MathLib} (ed : EditorState) (e : Event) :
  selection_ok ed -> selection_ok (handle ed e).
Proof.
  intro Hok. pose proof Hok as [Hsel Hhigh].
  destruct e as [viewScale pos | viewScale keep pos | cell | cell value |];
    cbn [handle].
  - split; [exact Hsel|]. cbn [highlightedEdge handleMouseMove edges].
    destruct pos as [pos|]; [|discriminate].
    intros e He. apply getClosestSelectableEdge_Some in He. apply He.
  - destruct (handleClick_cases viewScale keep ed pos)
      as [-> | (closest & _ & Hin & _ & [[_ ->] | (t & r & b & l & _ & Hr & _ & Hl & ->)])];
      [exact Hok | |].
    + split; [|exact Hhigh]. cbn [selectedEdges edges].
      apply slot_of_selected; assumption.
    + split; [|discriminate]. cbn [selectedEdges edges].
      pose proof (@slot_of_selected ed closest Hok Hin) as Hslot.
      intros kind e. destruct kind, keep;
        cbn [SelectedEdges.get SelectedEdges.top SelectedEdges.right
             SelectedEdges.bottom SelectedEdges.left negb];
        try discriminate; intro Heq; injection Heq as <-.
      * apply (Hslot Kind.right). exact Hr.
      * apply (Hslot Kind.left). exact Hl.
  - unfold handleCellDelete. destruct (_ <? _)%nat; exact Hok.
  - unfold handleCellNameInput.
    destruct (nth_error (cells ed) cell); [|exact Hok].
    destruct (cellNameToCellPosition value); exact Hok.
  - split; [|exact Hhigh]. intros kind e. destruct kind; discriminate.
Qed.

Lemma handle_not_complete `{MathLib} (ed : EditorState) (e : Event) :
  ~ complete (selectedEdges ed) -> ~ complete (selectedEdges (handle ed e)).
Proof.
  intro Hnot.
  destruct e as [viewScale pos | viewScale keep pos | cell | cell value |];
    cbn [handle].
  - exact Hnot.
  - destruct (handleClick_cases viewScale keep ed pos)
      as [-> | (closest & _ & _ & _ & [[Hn ->] | (t & r & b & l & _ & _ & _ & _ & ->)])];
      [exact Hnot | exact Hn |].
    intros (Htop & _). apply Htop. reflexivity.
  - unfold handleCellDelete. destruct (_ <? _)%nat; exact Hnot.
  - unfold handleCellNameInput.
    destruct (nth_error (cells ed) cell); [|exact Hnot].
    destruct (cellNameToCellPosition value); exact Hnot.
  - intros (Htop & _). apply Htop. reflexivity.
Qed.

(** X11.  In every state of the editor of a loaded document, whatever the
    events were: each slot of the selection is empty or holds an edge of its
    own kind that is an edge of the document; the four slots are never all
    filled; the highlighted edge, when there is one, is an edge of the
    document; and the image, the extent and the edges are those of the
    load. *)
Theorem X11_selection_invariant `{MathLib} (url : string) (svg : Svg)
    (events : list Event) :
  let editor := session (new_editor url svg) events in
  selection_ok editor
  /\ ~ complete (selectedEdges editor)
  /\ svgUrl editor = url
  /\ svgWidth editor = svg_width svg
  /\ svgHeight editor = svg_height svg
  /\ edges editor = edges_of_rects (svg_rects svg).
Proof.
  apply (session_invariant
           (fun editor =>
              selection_ok editor
              /\ ~ complete (selectedEdges editor)
              /\ svgUrl editor = url
              /\ svgWidth editor = svg_width svg
              /\ svgHeight editor = svg_height svg
              /\ edges editor = edges_of_rects (svg_rects svg))).
  - split; [|split; [|repeat split]].
    + split; [|discriminate]. intros kind e. destruct kind; discriminate.
    + intros (Htop & _). apply Htop. reflexivity.
  - intros ed e (Hok & Hnot & Hdoc).
    split; [apply handle_selection; exact Hok|].
    split; [apply handle_not_complete; exact Hnot|].
    destruct (handle_document ed e) as (-> & -> & -> & ->). exact Hdoc.
Qed.

Lemma handleCellNameInput_rects (editor : EditorState) (cell : nat) (value : string) :
  map Cell.rect (cells (handleCellNameInput editor cell value))
  = map Cell.rect (cells editor).
Proof.
  unfold handleCellNameInput.
  destruct (nth_error (cells editor) cell) as [c|]; [|reflexivity].
  destruct (cellNameToCellPosition value) as [p|]; cbn [cells with_cells].
  - rewrite (proj2 (renumber_ids_rects _ _ _ _)). apply assign_name_ids_rects.
  - apply assign_name_ids_rects.
Qed.

Lemma same_ids_rects (l' l : list Cell) :
  map Cell.id l' = map Cell.id l -> map Cell.rect l' = map Cell.rect l ->
  forall c', In c' l' ->
    exists c, In c l /\ Cell.id c = Cell.id c' /\ Cell.rect c = Cell.rect c'.
Proof.
  revert l. induction l' as [|a l' IH]; intros l Hid Hrect c' Hin; [destruct Hin|].
  destruct l as [|b l]; [discriminate|].
  cbn [map] in Hid, Hrect. injection Hid as Hid0 Hid. injection Hrect as Hrect0 Hrect.
  destruct Hin as [<- | Hin].
  - exists b. split; [left; reflexivity | split; congruence].
  - destruct (IH l Hid Hrect c' Hin) as (c & Hc & Hcid & Hcrect).
    exists c. split; [right; exact Hc | split; assumption].
Qed.

(** What an event does to the cells: each cell afterwards is a cell from
    before, with its id and rectangle, or the new cell, whose id is the
    counter after its increment. *)
Lemma handle_cells `{MathLib} (ed : EditorState) (e : Event) :
  (cellCreatedCount ed <= cellCreatedCount (handle ed e))%N
  /\ forall c', In c' (cells (handle ed e)) ->
       (exists c, In c (cells ed)
                  /\ Cell.id c = Cell.id c' /\ Cell.rect c = Cell.rect c')
       \/ (Cell.id c' = cellCreatedCount ed + 1)%N.
Proof.
  destruct e as [viewScale pos | viewScale keep pos | cell | cell value |];
    cbn [handle].
  - split; [cbn; lia|]. intros c' Hc'. left. exists c'. auto.
  - destruct (handleClick_cells viewScale keep ed pos)
      as [[-> ->] | (cell & -> & Hid & ->)].
    + split; [lia|]. intros c' Hc'. left. exists c'. auto.
    + split; [lia|]. intros c' Hc'. apply in_app_or in Hc'.
      destruct Hc' as [Hc' | [<- | []]]; [|right; exact Hid].
      left. exists c'. auto.
  - unfold handleCellDelete. destruct (_ <? _)%nat.
    + split; [cbn; lia|]. cbn [cells with_cells]. intros c' Hc'.
      left. exists c'. split; [|auto]. apply (In_remove _ cell). exact Hc'.
    + split; [lia|]. intros c' Hc'. left. exists c'. auto.
  - destruct (handleCellNameInput_ids ed cell value) as [Hid ->].
    split; [lia|]. intros c' Hc'. left.
    apply (@same_ids_rects _ _ Hid (handleCellNameInput_rects ed cell value)). exact Hc'.
  - split; [cbn; lia|]. intros c' Hc'. left. exists c'. auto.
Qed.

(** X12.  Every cell of the editor, whatever the events were, has the
    rectangle that a completion makes of four edges of the loaded document,
    one of each kind: renaming changes no rectangle and no event makes a
    cell of anything else. *)
Theorem X12_cells_spanned_by_document_edges `{MathLib} (url : string) (svg : Svg)
    (events : list Event) (c : Cell) :
  In c (cells (session (new_editor url svg) events)) ->
  spanned_by (edges_of_rects (svg_rects svg)) (Cell.rect c).
Proof.
  revert c.
  apply (session_invariant
           (fun editor =>
              (selection_ok editor /\ edges editor = edges_of_rects (svg_rects svg))
              /\ forall c, In c (cells editor) ->
                           spanned_by (edges_of_rects (svg_rects svg)) (Cell.rect c))).
  - split; [split; [|reflexivity]|intros c []].
    split; [|discriminate]. intros kind e. destruct kind; discriminate.
  - intros ed e [[Hok Hedges] Hcells].
    split; [split; [apply handle_selection; exact Hok|]|].
    { rewrite (proj2 (proj2 (proj2 (handle_document ed e)))). exact Hedges. }
    destruct e as [viewScale pos | viewScale keep pos | cell | cell value |];
      cbn [handle].
    + exact Hcells.
    + destruct (handleClick_cases viewScale keep ed pos)
        as [-> | (closest & _ & Hin & _
                  & [[_ ->] | (t & r & b & l & Ht & Hr & Hb & Hl & ->)])];
        [exact Hcells | exact Hcells |].
      cbn [cells]. intros c Hc. apply in_app_or in Hc.
      destruct Hc as [Hc | [<- | []]]; [apply Hcells; exact Hc|].
      rewrite (proj2 (inferName_id_rect _ _)). cbn [Cell.rect newCell].
      pose proof (@slot_of_selected ed closest Hok Hin) as Hslot. rewrite Hedges in Hslot.
      exists t, r, b, l.
      destruct (Hslot Kind.top t Ht), (Hslot Kind.right r Hr),
               (Hslot Kind.bottom b Hb), (Hslot Kind.left l Hl).
      repeat split; assumption.
    + unfold handleCellDelete. destruct (_ <? _)%nat; [|exact Hcells].
      cbn [cells with_cells]. intros c Hc. apply Hcells.
      apply (In_remove _ cell). exact Hc.
    + intros c Hc.
      destruct (@same_ids_rects _ _ (proj1 (handleCellNameInput_ids ed cell value))
                                (handleCellNameInput_rects ed cell value) c Hc)
        as (c0 & Hc0 & _ & <-).
      apply Hcells. exact Hc0.
    + exact Hcells.
Qed.

(** X12 on the frame: the cell that four clicks complete. *)
Lemma X12_witness :
  let events :=
    [ Click (of_Z 1) true (Some (point 50 13));
      Click (of_Z 1) true (Some (point 50 87));
      Click (of_Z 1) true (Some (point 13 50));
      Click (of_Z 1) true (Some (point 87 50)) ] in
  exists c : Cell,
    In c (cells (@session math_ref frame_editor events))
    /\ spanned_by (edges_of_rects frame_bars) (Cell.rect c).
Proof.
  intro events.
  pose (c := nth 0 (cells (@session math_ref frame_editor events))
                 {| Cell.id := 0; Cell.name := "";
                    Cell.rect := {| Rect.x := NaN; Rect.y := NaN;
                                    Rect.width := NaN; Rect.height := NaN |} |}).
  assert (Hin : In c (cells (@session math_ref frame_editor events)))
    by (vm_compute; left; reflexivity).
  exists c. split; [exact Hin|].
  exact (@X12_cells_spanned_by_document_edges math_ref "blob:frame"
           {| svg_rects := frame_bars; svg_width := of_Z 100; svg_height := of_Z 100 |}
           events c Hin).
Defined.

Lemma handle_ids `{MathLib} (ed : EditorState) (e : Event) :
  ids_ok ed -> ids_ok (handle ed e).
Proof.
  unfold ids_ok. intros [Hs Hb].
  destruct e as [viewScale pos | viewScale keep pos | cell | cell value |];
    cbn [handle].
  - split; assumption.
  - destruct (handleClick_cells viewScale keep ed pos)
      as [[-> ->] | (cell & -> & Hid & ->)]; [split; assumption|].
    rewrite map_app. cbn [map]. rewrite Hid. split.
    + apply StronglySorted_snoc; [exact Hs|].
      eapply Forall_impl; [|exact Hb]. cbv beta. intros n Hn. lia.
    + apply Forall_app. split.
      * eapply Forall_impl; [|exact Hb]. cbv beta. intros n Hn. lia.
      * constructor; [lia | constructor].
  - unfold handleCellDelete.
    destruct (cell <? List.length (cells ed))%nat; [|split; assumption].
    cbn [cells cellCreatedCount with_cells].
    rewrite map_app, <- firstn_map, <- skipn_map. split.
    + apply StronglySorted_remove. exact Hs.
    + rewrite Forall_forall in *. intros x Hx. apply Hb.
      apply (In_remove _ cell). exact Hx.
  - destruct (handleCellNameInput_ids ed cell value) as [-> ->]. split; assumption.
  - split; assumption.
Qed.

Lemma StronglySorted_lt_NoDup (l : list N) : StronglySorted N.lt l -> NoDup l.
Proof.
  induction 1 as [|a l Hs IH Hall]; constructor; [|exact IH].
  intro Hin. rewrite Forall_forall in Hall. specialize (Hall a Hin). lia.
Qed.

(** X13.  The ids identify the cells for the whole life of a document: at
    any moment the ids of the cells are distinct, increase along the list
    and lie between 1 and the counter; the counter never decreases; and a
    cell of any later moment whose id is not above the counter of now is a
    cell of now, with the same rectangle.  So the id of a deleted cell is
    never given to another cell. *)
Theorem X13_ids_identify_cells `{MathLib} (url : string) (svg : Svg)
    (events more : list Event) :
  let now := session (new_editor url svg) events in
  let later := session now more in
  NoDup (map Cell.id (cells now))
  /\ ids_ok now
  /\ (cellCreatedCount now <= cellCreatedCount later)%N
  /\ forall c' : Cell,
       In c' (cells later) -> (Cell.id c' <= cellCreatedCount now)%N ->
       exists c : Cell,
         In c (cells now) /\ Cell.id c = Cell.id c' /\ Cell.rect c = Cell.rect c'.
Proof.
  intros now later.
  assert (Hids : ids_ok now).
  { apply session_invariant; [split; constructor|]. apply handle_ids. }
  split; [apply StronglySorted_lt_NoDup; apply Hids|]. split; [exact Hids|].
  subst later. clear Hids. generalize now. clear now. intro now.
  induction more as [|e more IH] using rev_ind.
  - split; [cbn; lia|]. intros c' Hc' _. exists c'. auto.
  - destruct IH as [Hcount IH].
    rewrite session_app. cbn [session fold_left].
    fold (session now more).
    destruct (handle_cells (session now more) e) as [Hstep Hcells].
    split; [lia|]. intros c' Hc' Hold.
    destruct (Hcells c' Hc') as [(c1 & Hc1 & Hid1 & Hrect1) | Hnew]; [|lia].
    destruct (IH c1 Hc1) as (c & Hc & Hid & Hrect); [lia|].
    exists c. split; [exact Hc|]. split; congruence.
Qed.

(** X13 on the frame: the cell that four clicks complete is renamed, and
    is found by its id among the cells from before. *)
Lemma X13_witness :
  let four :=
    [ Click (of_Z 1) false (Some (point 50 13));
      Click (of_Z 1) false (Some (point 50 87));
      Click (of_Z 1) false (Some (point 13 50));
      Click (of_Z 1) false (Some (point 87 50)) ] in
  let now := @session math_ref frame_editor four in
  let later := @session math_ref now [CellNameInput 0 "a1"] in
  exists c' c : Cell,
    In c' (cells later) /\ Cell.name c' = "a1"
    /\ In c (cells now) /\ Cell.id c = Cell.id c' /\ Cell.rect c = Cell.rect c'.
Proof.
  intros four now later.
  pose (c' := nth 0 (cells later)
                  {| Cell.id := 0; Cell.name := "";
                     Cell.rect := {| Rect.x := NaN; Rect.y := NaN;
                                     Rect.width := NaN; Rect.height := NaN |} |}).
  assert (Hin : In c' (cells later)) by (vm_compute; left; reflexivity).
  assert (Hold : (Cell.id c' <= cellCreatedCount now)%N)
    by (vm_compute; intro Hgt; discriminate Hgt).
  destruct (proj2 (proj2 (proj2
              (@X13_ids_identify_cells math_ref "blob:frame"
                 {| svg_rects := frame_bars; svg_width := of_Z 100;
                    svg_height := of_Z 100 |}
                 four [CellNameInput 0 "a1"]))) c' Hin Hold)
    as (c & Hc & Hid & Hrect).
  exists c', c. split; [exact Hin|]. split; [vm_compute; reflexivity|].
  split; [exact Hc|]. split; [exact Hid | exact Hrect].
Defined.

(** X14.  A click never replaces a selected edge.  Either it completes a
    cell, or the cells, the counter and the highlighted edge are as before,
    every filled slot keeps its edge, and at most one slot, empty before,
    is filled: [handleClick] assigns to the slot of the nearest selectable
    edge without a look at the slot, and it is the filter of
    [getClosestSelectableEdge] that keeps filled slots out. *)
Theorem X14_click_keeps_selected_edges `{MathLib} (viewScale : num) (keep : bool)
    (editor : EditorState) (pos : option Vector) :
  let editor' := handleClick viewScale keep editor pos in
  (exists cell : Cell, cells editor' = cells editor ++ [cell])
  \/ (cells editor' = cells editor
      /\ cellCreatedCount editor' = cellCreatedCount editor
      /\ highlightedEdge editor' = highlightedEdge editor
      /\ (forall (kind : Kind) (e : Edge),
             SelectedEdges.get (selectedEdges editor) kind = Some e ->
             SelectedEdges.get (selectedEdges editor') kind = Some e)
      /\ (forall k1 k2 : Kind,
             SelectedEdges.get (selectedEdges editor') k1
             <> SelectedEdges.get (selectedEdges editor) k1 ->
             SelectedEdges.get (selectedEdges editor') k2
             <> SelectedEdges.get (selectedEdges editor) k2 ->
             k1 = k2)).
Proof.
  intro editor'. subst editor'.
  destruct (handleClick_cases viewScale keep editor pos)
    as [-> | (closest & _ & _ & Hslot
              & [[_ ->] | (t & r & b & l & _ & _ & _ & _ & ->)])].
  - right. repeat split; auto. intros k1 k2 Hk1. congruence.
  - right. cbn [cells cellCreatedCount highlightedEdge selectedEdges].
    split; [reflexivity|]. split; [reflexivity|]. split; [reflexivity|]. split.
    + intros kind e He. rewrite get_set.
      destruct (Edge.kind closest), kind; try exact He; congruence.
    + intros k1 k2. rewrite !get_set.
      destruct (Edge.kind closest), k1, k2; congruence.
  - left. eexists. reflexivity.
Qed.

(** X14 on the frame: after a click near the top bar, a second click at
    the same point leaves the edge selected by the first in its slot. *)
Lemma X14_witness :
  let editor := @handleClick math_ref (of_Z 1) false frame_editor (Some (point 50 13)) in
  let editor' := @handleClick math_ref (of_Z 1) false editor (Some (point 50 13)) in
  exists e : Edge,
    SelectedEdges.get (selectedEdges editor) Kind.bottom = Some e
    /\ SelectedEdges.get (selectedEdges editor') Kind.bottom = Some e.
Proof.
  intros editor editor'.
  pose (e := match SelectedEdges.get (selectedEdges editor) Kind.bottom with
             | Some e => e
             | None => Edge.horizontal Edge.top NaN NaN NaN
             end).
  assert (He : SelectedEdges.get (selectedEdges editor) Kind.bottom = Some e)
    by (vm_compute; reflexivity).
  exists e. split; [exact He|].
  destruct (@X14_click_keeps_selected_edges math_ref (of_Z 1) false editor
              (Some (point 50 13)))
    as [(cell & Hcell) | (_ & _ & _ & Hkeep & _)].
  - vm_compute in Hcell. discriminate Hcell.
  - apply Hkeep. exact He.
Defined.

(** ** Paths of several subpaths *)

Section PathFacts.
Context `{MathLib}.

(** Rectangles found so far pass through the rest of the loop untouched. *)
Lemma run_prepend (r0 rs : list Rect) (ps : list Vector) (x0 y0 : num)
    (q : list Command) :
  run {| rects := r0 ++ rs; points := ps; x := x0; y := y0 |} q
  = r0 ++ run {| rects := rs; points := ps; x := x0; y := y0 |} q.
Proof.
  revert rs ps x0 y0. induction q as [|c q IH]; intros rs ps x0 y0;
    [reflexivity|].
  destruct c as [rel cx cy | rel cx cy | rel cx | rel cy | | | | | |];
    cbn [run step lineto_case closepath_case rects points x y];
    try reflexivity; try apply IH.
  - unfold closepath_case. cbn [rects points x y].
    match goal with
    | |- context [pointsToRect ?l] => destruct (pointsToRect l)
    end; [rewrite <- app_assoc|]; apply IH.
  - unfold closepath_case. cbn [rects points x y].
    destruct (pointsToRect ps); [rewrite <- app_assoc|]; apply IH.
Qed.

End PathFacts.

(** X15.  [pathToRects] stops at the first curve command: whatever follows
    it, rectangles included, is ignored, and the rectangles closed before it
    are returned. *)
Theorem X15_curve_ends_the_path `{MathLib} (p : list Command) (c : Command)
    (q : list Command) :
  is_curve c = true ->
  pathToRects (p ++ c :: q) = pathToRects p.
Proof.
  intro Hc. unfold pathToRects. generalize initial.
  induction p as [|a p IH]; intro st; cbn [app run].
  - destruct c; try discriminate Hc; reflexivity.
  - destruct (step st a) as [result | st']; [reflexivity | apply IH].
Qed.

(** X15 on two outlines with a curve between them: the second outline is
    lost. *)
Lemma X15_witness :
  let bar (y : Z) :=
    [ moveto false (of_Z 0) (of_Z y); lineto false (of_Z 10) (of_Z y);
      lineto false (of_Z 10) (of_Z (y + 1)%Z); lineto false (of_Z 0) (of_Z (y + 1)%Z);
      closepath ] in
  @pathToRects math_ref (bar 0%Z ++ curveto :: bar 5%Z) = @pathToRects math_ref (bar 0%Z)
  /\ List.length (@pathToRects math_ref (bar 0%Z ++ bar 5%Z)) = 2%nat.
Proof.
  intro bar. split; [|vm_compute; reflexivity].
  apply (@X15_curve_ends_the_path math_ref (bar 0%Z) curveto (bar 5%Z)).
  reflexivity.
Defined.

(** X16.  A subpath that starts with an absolute [moveto] is read on its
    own: when no curve precedes it, the rectangles of the path are those of
    the commands before it followed by those of the commands from it on. *)
Theorem X16_absolute_moveto_starts_afresh `{MathLib} (p : list Command)
    (mx my : num) (q : list Command) :
  forallb (fun c => negb (is_curve c)) p = true ->
  pathToRects (p ++ moveto false mx my :: q)
  = pathToRects p ++ pathToRects (moveto false mx my :: q).
Proof.
  intro Hp. unfold pathToRects.
  assert (Hrun : forall st : PathState,
             run st (p ++ moveto false mx my :: q)
             = run st p ++ run initial (moveto false mx my :: q));
    [|apply Hrun].
  induction p as [|a p IH]; intro st.
  - cbn [app run step lineto_case initial rects points x y].
    rewrite <- (app_nil_r (rects st)) at 1. apply run_prepend.
  - cbn [forallb] in Hp. apply andb_true_iff in Hp. destruct Hp as [Ha Hp].
    cbn [app run].
    destruct a; try discriminate Ha; cbn [step]; apply IH; exact Hp.
Qed.

(** X16 on two outlines. *)
Lemma X16_witness :
  let bar (y : Z) :=
    [ lineto false (of_Z 10) (of_Z y);
      lineto false (of_Z 10) (of_Z (y + 1)%Z); lineto false (of_Z 0) (of_Z (y + 1)%Z);
      closepath ] in
  @pathToRects math_ref
    (moveto false (of_Z 0) (of_Z 0) :: bar 0%Z
     ++ moveto false (of_Z 0) (of_Z 5) :: bar 5%Z)
  = @pathToRects math_ref (moveto false (of_Z 0) (of_Z 0) :: bar 0%Z)
    ++ @pathToRects math_ref (moveto false (of_Z 0) (of_Z 5) :: bar 5%Z).
Proof.
  intro bar.
  apply (@X16_absolute_moveto_starts_afresh math_ref
           (moveto false (of_Z 0) (of_Z 0) :: bar 0%Z) (of_Z 0) (of_Z 5) (bar 5%Z)).
  reflexivity.
Defined.

(** ** Edges of length zero *)

Lemma sqrt_ref_special : @sqrt_special math_ref.
Proof.
  split; [|reflexivity].
  intros q Hq. exists (Qsqrt_down q). split.
  - cbn [sqrt math_ref sqrt_ref].
    replace (Qltb q 0) with false; [reflexivity|].
    symmetry. apply Qltb_ge. rewrite Hq. apply Qle_refl.
  - unfold Qsqrt_down, Qeq. cbn [Qnum Qden].
    unfold Qeq in Hq. cbn [Qnum Qden] in Hq.
    assert (Hn : Qnum q = 0%Z) by lia. rewrite Hn. reflexivity.
Qed.

Lemma div_zero_zero (a r : Q) : (a == 0)%Q -> (r == 0)%Q -> Fin a / Fin r = NaN.
Proof.
  intros Ha Hr. unfold div.
  replace (Qeq_bool r 0) with true by (symmetry; apply Qeq_bool_iff; exact Hr).
  unfold Qsign. replace (0 ?= a)%Q with Eq; [reflexivity|].
  symmetry. apply Qeq_alt. symmetry. exact Ha.
Qed.

Lemma mul_nan_r (a : num) : a * NaN = NaN.
Proof. destruct a; reflexivity. Qed.

Lemma add_nan_r (a : num) : a + NaN = NaN.
Proof. destruct a; reflexivity. Qed.

Lemma ltb_nan_r (a : num) : (a <? NaN) = false.
Proof. destruct a; reflexivity. Qed.

(** The distance of any point to a segment of length zero is [NaN]: the
    direction of the segment is [0 / 0]. *)
Lemma degenerate_distance `{MathLib} (sx sy ex ey : Q) (p : Vector) :
  sqrt_special ->
  (ex == sx)%Q -> (ey == sy)%Q ->
  pointSegmentDistance
    {| Segment.start := {| Vector.x := Fin sx; Vector.y := Fin sy |};
       Segment.end_ := {| Vector.x := Fin ex; Vector.y := Fin ey |} |} p
  = NaN.
Proof.
  intros [Hzero Hnan] Hx Hy.
  destruct (Hzero ((ex + - sx) * (ex + - sx) + (ey + - sy) * (ey + - sy))%Q)
    as (r & Hr & Hr0); [rewrite Hx, Hy; ring|].
  assert (Hdx : Fin (ex + - sx) / Fin r = NaN)
    by (apply div_zero_zero; [rewrite Hx; ring | exact Hr0]).
  assert (Hdy : Fin (ey + - sy) / Fin r = NaN)
    by (apply div_zero_zero; [rewrite Hy; ring | exact Hr0]).
  unfold pointSegmentDistance, segmentClosestPoint, segmentLength, vectorDistance,
    vectorNormalize, vectorMagnitude, vectorDot, vectorScale, vectorAdd, vectorSub.
  cbn [Vector.x Vector.y Segment.start Segment.end_].
  change (Fin ex - Fin sx) with (Fin (ex + - sx)).
  change (Fin ey - Fin sy) with (Fin (ey + - sy)).
  change (Fin (ex + - sx) * Fin (ex + - sx) + Fin (ey + - sy) * Fin (ey + - sy))
    with (Fin ((ex + - sx) * (ex + - sx) + (ey + - sy) * (ey + - sy))).
  rewrite !Hr, !Hdx, !Hdy, !mul_nan_r.
  cbn [add sub neg mul]. exact Hnan.
Qed.

Lemma zero_length_distance `{MathLib} (e : Edge) (p : Vector) :
  sqrt_special -> zero_length e ->
  pointSegmentDistance (edgeToSegment e) p = NaN.
Proof.
  intros Hsqrt (Hx & Hy & Hlen).
  destruct e as [k ex ey w | k ex ey h]; cbn [Edge.x Edge.y edge_length] in *;
    destruct ex as [ex | | |], ey as [ey | | |]; try contradiction;
    [destruct w as [w | | |] | destruct h as [h | | |]]; try discriminate Hlen;
    cbn [eqb zero] in Hlen; apply Qeq_bool_iff in Hlen;
    cbn [edgeToSegment add];
    apply degenerate_distance; try exact Hsqrt;
    try reflexivity; rewrite Hlen; ring.
Qed.

Lemma zero_length_not_closest `{MathLib} (viewScale : num) (app : EditorState)
    (p : Vector) (e : Edge) :
  sqrt_special -> zero_length e ->
  getClosestSelectableEdge viewScale app p <> Some e.
Proof.
  intros Hsqrt Hzero. unfold getClosestSelectableEdge.
  destruct (minByKey _ _) as [best|]; [|discriminate].
  destruct (_ <? _) eqn:Enear; [|discriminate].
  intro Heq. injection Heq as ->.
  rewrite (zero_length_distance p Hsqrt Hzero) in Enear. discriminate Enear.
Qed.

(** X18.  An edge of length zero at a finite place can neither be
    highlighted nor selected: every point is at the distance [NaN] from it
    (the direction of its segment is [0 / 0]), so that
    [getClosestSelectableEdge] never returns it, and in no state of the
    editor of a loaded document is it the highlighted edge or in a slot of
    the selection.  [Math.sqrt] is assumed to return zero for zero and
    [NaN] for [NaN]. *)
Theorem X18_zero_length_edge_never_selected `{MathLib} (e : Edge) :
  sqrt_special -> zero_length e ->
  (forall p : Vector, pointSegmentDistance (edgeToSegment e) p = NaN)
  /\ (forall (viewScale : num) (app : EditorState) (p : Vector),
         getClosestSelectableEdge viewScale app p <> Some e)
  /\ (forall (url : string) (svg : Svg) (events : list Event),
         let editor := session (new_editor url svg) events in
         highlightedEdge editor <> Some e
         /\ forall kind : Kind,
              SelectedEdges.get (selectedEdges editor) kind <> Some e).
Proof.
  intros Hsqrt Hzero.
  split; [intro p; apply zero_length_distance; assumption|].
  split; [intros viewScale app p; apply zero_length_not_closest; assumption|].
  intros url svg events.
  apply (session_invariant
           (fun editor =>
              highlightedEdge editor <> Some e
              /\ forall kind : Kind,
                   SelectedEdges.get (selectedEdges editor) kind <> Some e)).
  - split; [discriminate|]. intro kind. destruct kind; discriminate.
  - intros ed ev [Hhigh Hsel].
    destruct ev as [viewScale pos | viewScale keep pos | cell | cell value |];
      cbn [handle].
    + split; [|exact Hsel]. cbn [highlightedEdge handleMouseMove].
      destruct pos as [pos|]; [|discriminate].
      apply zero_length_not_closest; assumption.
    + destruct (handleClick_cases viewScale keep ed pos)
        as [-> | (closest & (p & _ & Hfrom) & _ & _
                  & [[_ ->] | (t & r & b & l & _ & Hr & _ & Hl & ->)])].
      * split; assumption.
      * assert (Hne : Some closest <> Some e).
        { rewrite <- Hfrom. apply zero_length_not_closest; assumption. }
        split; [exact Hhigh|]. cbn [selectedEdges]. intro kind.
        rewrite get_set. destruct (Edge.kind closest), kind;
          try exact Hne; apply Hsel.
      * assert (Hne : Some closest <> Some e).
        { rewrite <- Hfrom. apply zero_length_not_closest; assumption. }
        assert (Hnew : forall kind : Kind,
                   SelectedEdges.get
                     (SelectedEdges.set (selectedEdges ed) (Edge.kind closest)
                                        (Some closest)) kind <> Some e).
        { intro kind. rewrite get_set. destruct (Edge.kind closest), kind;
            try exact Hne; apply Hsel. }
        split; [discriminate|]. cbn [selectedEdges]. intro kind.
        destruct kind, keep;
          cbn [SelectedEdges.get SelectedEdges.top SelectedEdges.right
               SelectedEdges.bottom SelectedEdges.left negb];
          try discriminate.
        -- rewrite <- Hr. apply (Hnew Kind.right).
        -- rewrite <- Hl. apply (Hnew Kind.left).
    + unfold handleCellDelete. destruct (_ <? _)%nat; split; assumption.
    + unfold handleCellNameInput.
      destruct (nth_error (cells ed) cell); [|split; assumption].
      destruct (cellNameToCellPosition value); split; assumption.
    + split; [exact Hhigh|]. intro kind. destruct kind; discriminate.
Qed.

(** X18 on a path that stays at one point: it gives a rectangle of width
    and height zero, whose four edges are edges of the editor, and a click
    at that point selects none of them. *)
Lemma X18_witness :
  let dot := [ moveto false (of_Z 5) (of_Z 5); lineto false (of_Z 5) (of_Z 5);
               lineto false (of_Z 5) (of_Z 5); lineto false (of_Z 5) (of_Z 5);
               closepath ] in
  let editor :=
    new_editor "blob:dot"
      {| svg_rects := @pathToRects math_ref dot;
         svg_width := of_Z 10; svg_height := of_Z 10 |} in
  let e := nth 0 (edges editor) (Edge.horizontal Edge.top NaN NaN NaN) in
  In e (edges editor)
  /\ zero_length e
  /\ @getClosestSelectableEdge math_ref (of_Z 1) editor (point 5 5) <> Some e.
Proof.
  intros dot editor e.
  assert (Hzero : zero_length e) by (vm_compute; repeat split).
  split; [vm_compute; left; reflexivity|]. split; [exact Hzero|].
  apply (proj1 (proj2 (@X18_zero_length_edge_never_selected math_ref e
                         sqrt_ref_special Hzero))).
Defined.

(** ** The rectangles of the paths of a document *)

Lemma findRects_loop_paths `{MathLib} `{Parsers} (ds : list string)
    (paths : list (list Command)) (acc : list Rect) :
  map svgPathParser_parseSVG ds = map Some paths ->
  findRects_loop ds acc = Some (acc ++ flat_map pathToRects paths).
Proof.
  revert paths acc. induction ds as [|d ds IH]; intros paths acc Hmap;
    destruct paths as [|path paths]; try discriminate Hmap.
  - cbn. rewrite app_nil_r. reflexivity.
  - cbn [map] in Hmap. injection Hmap as Hd Hmap.
    cbn [findRects_loop flat_map]. rewrite Hd, (IH paths _ Hmap).
    rewrite app_assoc. reflexivity.
Qed.

Lemma sub_zero_eqb (r l : num) :
  is_nan r = false -> eqb l (of_Z 0) = true -> eqb (r - l) r = true.
Proof.
  destruct l as [l | | |]; try discriminate.
  cbn [eqb of_Z]. intros Hr Hl. apply Qeq_bool_iff in Hl.
  destruct r as [r | | |]; try discriminate Hr; try reflexivity.
  cbn [sub neg add eqb]. apply Qeq_bool_iff. rewrite Hl.
  unfold inject_Z. ring.
Qed.

(** ** The clamp *)

Lemma leb_refl (a : num) : is_nan a = false -> (a <=? a) = true.
Proof.
  destruct a as [p | | |]; try discriminate; intros _; try reflexivity.
  apply leb_fin. apply Qle_refl.
Qed.

Lemma leb_not_nan (a b : num) :
  (a <=? b) = true -> is_nan a = false /\ is_nan b = false.
Proof. destruct a, b; try discriminate; split; reflexivity. Qed.

Lemma ltb_false_leb (a b : num) :
  is_nan a = false -> is_nan b = false -> (a <? b) = false -> (b <=? a) = true.
Proof.
  destruct a as [p | | |], b as [q | | |]; try discriminate; try reflexivity.
  intros _ _. cbn [ltb leb]. rewrite Qltb_ge, Qle_bool_iff. auto.
Qed.

Lemma clamp_nan (lo hi : num) : clamp NaN lo hi = NaN.
Proof. unfold clamp, gtb. rewrite ltb_nan_r. reflexivity. Qed.

Lemma clamp_inside (x lo hi : num) :
  (lo <=? x) = true -> (x <=? hi) = true -> clamp x lo hi = x.
Proof.
  intros Hlo Hhi. unfold clamp, gtb.
  rewrite (@leb_not_ltb lo x Hlo), (@leb_not_ltb x hi Hhi). reflexivity.
Qed.

Lemma clamp_bounds (x lo hi : num) :
  (lo <=? hi) = true -> is_nan x = false ->
  (lo <=? clamp x lo hi) = true /\ (clamp x lo hi <=? hi) = true.
Proof.
  intros Hle Hx. destruct (@leb_not_nan lo hi Hle) as [Hlo Hhi].
  unfold clamp, gtb.
  destruct (x <? lo) eqn:E1; [split; [apply leb_refl; exact Hlo | exact Hle]|].
  destruct (hi <? x) eqn:E2; [split; [exact Hle | apply leb_refl; exact Hhi]|].
  split; apply ltb_false_leb; assumption.
Qed.

(** X20.  [clamp] with bounds in order returns a number between the bounds
    for every number, and that number itself exactly when it lies between
    them, so that clamping twice is clamping once; [NaN] is returned as
    it is. *)
Theorem X20_clamp (x lo hi : num) :
  (lo <=? hi) = true ->
  (is_nan x = false ->
   (lo <=? clamp x lo hi) = true /\ (clamp x lo hi <=? hi) = true)
  /\ (clamp x lo hi = x <->
      is_nan x = true \/ ((lo <=? x) = true /\ (x <=? hi) = true))
  /\ clamp (clamp x lo hi) lo hi = clamp x lo hi.
Proof.
  intro Hle. split; [apply clamp_bounds; exact Hle|]. split.
  - split.
    + intro Heq. destruct (is_nan x) eqn:Hx; [left; reflexivity | right].
      rewrite <- Heq. apply clamp_bounds; assumption.
    + intros [Hx | [Hlo Hhi]]; [|apply clamp_inside; assumption].
      destruct x; try discriminate Hx. apply clamp_nan.
  - destruct (is_nan x) eqn:Hx.
    + destruct x; try discriminate Hx. rewrite clamp_nan. apply clamp_nan.
    + destruct (@clamp_bounds x lo hi Hle Hx) as [Hlo Hhi].
      apply clamp_inside; assumption.
Qed.

(** X20 on the bounds 0 and 10. *)
Lemma X20_witness :
  clamp (of_Z 12) (of_Z 0) (of_Z 10) = of_Z 10
  /\ (clamp (of_Z 12) (of_Z 0) (of_Z 10) <=? of_Z 10) = true
  /\ clamp (clamp (of_Z 12) (of_Z 0) (of_Z 10)) (of_Z 0) (of_Z 10)
     = clamp (of_Z 12) (of_Z 0) (of_Z 10).
Proof.
  split; [reflexivity|].
  destruct (@X20_clamp (of_Z 12) (of_Z 0) (of_Z 10) eq_refl) as (Hb & _ & Hi).
  split; [exact (proj2 (Hb eq_refl)) | exact Hi].
Defined.

(** ** The deletion of a cell *)

Lemma filter_all (A : Type) (f : A -> bool) (l : list A) :
  (forall a, In a l -> f a = true) -> filter f l = l.
Proof.
  induction l as [|a l IH]; intro Hall; [reflexivity|].
  cbn [filter]. rewrite (Hall a (or_introl eq_refl)).
  rewrite IH; [reflexivity|]. intros b Hb. apply Hall. right. exact Hb.
Qed.

Lemma nth_error_remove (A : Type) (l : list A) (i : nat) (a : A) :
  nth_error l i = Some a ->
  l = firstn i l ++ a :: skipn (S i) l /\ (i <? List.length l)%nat = true.
Proof.
  revert i. induction l as [|b l IH]; intros i Hi; [destruct i; discriminate|].
  destruct i as [|i]; cbn [nth_error] in Hi.
  - injection Hi as ->. split; reflexivity.
  - destruct (IH i Hi) as [Heq Hlt]. split; [|exact Hlt].
    cbn [firstn skipn app]. f_equal. exact Heq.
Qed.

(** X21.  A cell is deleted by its place in the array, and that is the
    same as deleting it by its id: in every state of the editor of a loaded
    document, after the deletion the cells are those whose id is not the id
    of the deleted cell, in the order they had, and nothing else of the
    editor changes. *)
Theorem X21_delete_removes_the_cell_of_that_id `{MathLib} (url : string)
    (svg : Svg) (events : list Event) (i : nat) (c : Cell) :
  let editor := session (new_editor url svg) events in
  nth_error (cells editor) i = Some c ->
  let editor' := handle editor (CellDelete i) in
  cells editor'
  = filter (fun c' => negb (N.eqb (Cell.id c') (Cell.id c))) (cells editor)
  /\ S (List.length (cells editor')) = List.length (cells editor)
  /\ editor' = with_cells editor (cells editor').
Proof.
  intros editor Hi editor'.
  assert (Hids : ids_ok editor).
  { apply session_invariant; [split; constructor|]. apply handle_ids. }
  destruct Hids as [Hsorted _]. apply StronglySorted_lt_NoDup in Hsorted.
  destruct (nth_error_remove _ _ Hi) as [Hsplit Hlt].
  subst editor'. cbn [handle]. unfold handleCellDelete. rewrite Hlt.
  cbn [cells with_cells].
  set (l1 := firstn i (cells editor)) in *.
  set (l2 := skipn (S i) (cells editor)) in *.
  split; [|split; [|reflexivity]]; clearbody l1 l2; rewrite Hsplit in *.
  - rewrite map_app in Hsorted. cbn [map] in Hsorted.
    apply NoDup_remove_2 in Hsorted. rewrite <- map_app in Hsorted.
    rewrite filter_app. cbn [filter].
    rewrite N.eqb_refl. cbn [negb]. rewrite <- filter_app.
    symmetry. apply filter_all. intros c' Hc'.
    apply negb_true_iff. apply N.eqb_neq. intro Heq.
    apply Hsorted. rewrite <- Heq. apply in_map. exact Hc'.
  - rewrite !length_app. cbn [List.length]. lia.
Qed.

(** X21 on the frame: two cells are completed and the first is deleted. *)
Lemma X21_witness :
  let four :=
    [ Click (of_Z 1) false (Some (point 50 13));
      Click (of_Z 1) false (Some (point 50 87));
      Click (of_Z 1) false (Some (point 13 50));
      Click (of_Z 1) false (Some (point 87 50)) ] in
  let editor := @session math_ref frame_editor (four ++ four) in
  map Cell.id (cells editor) = [1%N; 2%N]
  /\ map Cell.id (cells (@handle math_ref editor (CellDelete 0))) = [2%N]
  /\ S (List.length (cells (@handle math_ref editor (CellDelete 0))))
     = List.length (cells editor).
Proof.
  intros four editor.
  split; [vm_compute; reflexivity|]. split; [vm_compute; reflexivity|].
  pose (c := nth 0 (cells editor)
                 {| Cell.id := 0; Cell.name := "";
                    Cell.rect := {| Rect.x := NaN; Rect.y := NaN;
                                    Rect.width := NaN; Rect.height := NaN |} |}).
  assert (Hc : nth_error (cells editor) 0 = Some c) by (vm_compute; reflexivity).
  exact (proj1 (proj2
           (@X21_delete_removes_the_cell_of_that_id math_ref "blob:frame"
              {| svg_rects := frame_bars; svg_width := of_Z 100;
                 svg_height := of_Z 100 |}
              (four ++ four) 0%nat c Hc))).
Defined.

(** ** The chunks of the extent *)

Lemma collapse_true (s : string) :
  collapse_spaces true s = collapse_spaces false (trimStart s).
Proof.
  induction s as [|c s IH]; [reflexivity|].
  cbn [collapse_spaces trimStart].
  destruct (is_space c) eqn:Ec; [exact IH|].
  cbn [collapse_spaces]. rewrite Ec. reflexivity.
Qed.

Lemma nonspace_not_blank (c : ascii) : is_space c = false -> Ascii.eqb c " " = false.
Proof.
  intro Hc. destruct (Ascii.eqb c " ") eqn:E; [|reflexivity].
  apply Ascii.eqb_eq in E. subst c. discriminate Hc.
Qed.

(** The chunks of a string that ends with a character that is not white
    space, after its leading white space is dropped, are its words. *)
Lemma chunks_words (t : string) :
  ends_nonspace t = true ->
  split " " (collapse_spaces false (trimStart t)) = words t.
Proof.
  induction t as [|c t IH]; [discriminate|].
  intro Hend. cbn [trimStart words]. destruct (is_space c) eqn:Ec.
  - apply IH. destruct t; [cbn in Hend; rewrite Ec in Hend; discriminate|exact Hend].
  - cbn [collapse_spaces]. rewrite Ec. cbn [split].
    rewrite (nonspace_not_blank _ Ec).
    destruct t as [|c' t']; [reflexivity|].
    assert (Hend' : ends_nonspace (String c' t') = true) by exact Hend.
    specialize (IH Hend'). cbn [trimStart] in IH.
    cbn [collapse_spaces]. destruct (is_space c') eqn:Ec'.
    + cbn [split Ascii.eqb Bool.eqb]. rewrite collapse_true.
      cbn [words] in IH. rewrite Ec' in IH. rewrite IH.
      cbn [words]. rewrite Ec'. reflexivity.
    + cbn [collapse_spaces] in IH. rewrite Ec' in IH. rewrite IH. reflexivity.
Qed.

Lemma trimEnd_cases (s : string) :
  (trimEnd s = EmptyString /\ all_chars is_space s = true)
  \/ (ends_nonspace (trimEnd s) = true
      /\ exists c s' r, s = String c s' /\ trimEnd s = String c r).
Proof.
  induction s as [|c s IH]; [left; split; reflexivity|].
  cbn [trimEnd all_chars].
  destruct IH as [[Hr Hall] | (Hend & c' & s' & r & -> & Hr)].
  - rewrite Hr, Hall. cbn [String.eqb]. rewrite andb_true_r.
    destruct (is_space c) eqn:Ec; [left; split; reflexivity|].
    right. split; [cbn; rewrite Ec; reflexivity|]. eauto.
  - rewrite Hr in *. cbn [String.eqb]. rewrite andb_false_r.
    right. split; [exact Hend|]. eauto.
Qed.

Lemma words_blank (s : string) : all_chars is_space s = true <-> words s = [].
Proof.
  induction s as [|c s IH]; [split; reflexivity|].
  cbn [all_chars words]. destruct (is_space c) eqn:Ec; cbn [andb]; [exact IH|].
  split; [discriminate|].
  destruct s as [|c' s']; [discriminate|].
  destruct (is_space c'); [discriminate|].
  destruct (words (String c' s')); discriminate.
Qed.

Lemma words_trimEnd (s : string) : words (trimEnd s) = words s.
Proof.
  induction s as [|c s IH]; [reflexivity|].
  cbn [trimEnd].
  destruct (trimEnd_cases s) as [[Hr Hall] | (_ & c' & s' & r & -> & Hr)].
  - rewrite Hr in *. cbn [String.eqb]. rewrite andb_true_r.
    apply words_blank in Hall.
    destruct (is_space c) eqn:Ec; cbn [words]; rewrite Ec; [symmetry; exact Hall|].
    destruct s as [|c' s']; [reflexivity|].
    cbn [all_chars] in *. rewrite Hall.
    destruct (is_space c'); reflexivity.
  - rewrite Hr in *. cbn [String.eqb]. rewrite andb_false_r.
    cbn [words] in *. destruct (is_space c); [exact IH|].
    destruct (is_space c'); rewrite IH; reflexivity.
Qed.

Lemma words_trimStart (s : string) : words (trimStart s) = words s.
Proof.
  induction s as [|c s IH]; [reflexivity|].
  cbn [trimStart]. destruct (is_space c) eqn:Ec; [|reflexivity].
  cbn [words]. rewrite Ec. exact IH.
Qed.

Lemma trimStart_trim (s : string) : trimStart (trim s) = trim s.
Proof.
  unfold trim.
  assert (Hstart : trimStart s = EmptyString
                   \/ exists c s', trimStart s = String c s' /\ is_space c = false).
  { induction s as [|c s IH]; [left; reflexivity|].
    cbn [trimStart]. destruct (is_space c) eqn:Ec; [exact IH|]. right. eauto. }
  destruct Hstart as [-> | (c & s' & -> & Hc)]; [reflexivity|].
  cbn [trimEnd]. rewrite Hc. cbn [andb trimStart]. rewrite Hc. reflexivity.
Qed.

Lemma words_proper (s : string) :
  Forall (fun w => w <> EmptyString
                   /\ all_chars (fun c => negb (is_space c)) w = true) (words s).
Proof.
  induction s as [|c s IH]; [constructor|].
  cbn [words]. destruct (is_space c) eqn:Ec; [exact IH|].
  assert (Hone : String c EmptyString <> EmptyString
                 /\ all_chars (fun c => negb (is_space c)) (String c EmptyString) = true).
  { split; [discriminate|]. cbn. rewrite Ec. reflexivity. }
  destruct s as [|c' s']; [constructor; [exact Hone | constructor]|].
  destruct (is_space c'); [constructor; [exact Hone | exact IH]|].
  destruct (words (String c' s')) as [|w ws]; [constructor; [exact Hone | constructor]|].
  inversion IH as [|? ? [Hw Hall] Hws]; subst.
  constructor; [|exact Hws]. split; [discriminate|].
  cbn [all_chars]. rewrite Ec, Hall. reflexivity.
Qed.

(** X24.  The chunks that [getViewBox] parses as numbers are the words of
    the value of [viewBox]: its maximal runs of characters that are not
    white space, so that white space before, after and between the numbers,
    of any kind and length, makes no difference, and no chunk is empty or
    holds white space.  The one exception is a value of white space only,
    which gives the single chunk of the empty string. *)
Theorem X24_viewBox_chunks_are_the_words (s : string) :
  viewBox_chunks s
  = match words s with
    | [] => [EmptyString]
    | w :: ws => w :: ws
    end
  /\ Forall (fun w => w <> EmptyString
                      /\ all_chars (fun c => negb (is_space c)) w = true) (words s)
  /\ (words s = [] <-> all_chars is_space s = true).
Proof.
  split; [|split; [apply words_proper | symmetry; apply words_blank]].
  unfold viewBox_chunks, replaceAll_spaces.
  rewrite <- (words_trimStart s), <- (words_trimEnd (trimStart s)).
  fold (trim s). rewrite <- (trimStart_trim s) at 1.
  unfold trim at 1 2.
  destruct (trimEnd_cases (trimStart s)) as [[Hr _] | (Hend & _)].
  - rewrite Hr. reflexivity.
  - fold (trim s) in *. rewrite (chunks_words _ Hend).
    destruct (words (trim s)) eqn:Ew; [|reflexivity].
    exfalso. apply words_blank in Ew.
    clear - Hend Ew. induction (trim s) as [|c t IH]; [discriminate|].
    cbn [all_chars] in Ew. apply andb_true_iff in Ew. destruct Ew as [Ec Ht].
    destruct t; [cbn in Hend; rewrite Ec in Hend; discriminate|].
    apply IH; assumption.
Qed.

(** ** The path nodes of a document *)

Lemma Node_induction (P : Node -> Prop) :
  P TextNode ->
  (forall tagName properties children,
      (forall m, In (inl m) children -> P m) ->
      P (ElementNode tagName properties children)) ->
  forall n, P n.
Proof.
  intros Htext Helement. fix IH 1. intros [|tagName properties children];
    [exact Htext|].
  apply Helement.
  induction children as [|[m' | s] children IHc]; intros m Hm.
  - destruct Hm.
  - destruct Hm as [Heq | Hm]; [injection Heq as <-; apply IH | apply IHc; exact Hm].
  - destruct Hm as [Heq | Hm]; [discriminate Heq | apply IHc; exact Hm].
Qed.

Lemma path_data_element (tagName : option string)
    (properties : option (list (string * PropertyValue)))
    (children : list (Node + string)) :
  path_data (ElementNode tagName properties children)
  = elementNodeToPathD tagName properties.
Proof. destruct tagName, properties; reflexivity. Qed.

Lemma flat_map_flat_map (A B C : Type) (f : B -> list C) (g : A -> list B)
    (l : list A) :
  flat_map f (flat_map g l) = flat_map (fun a => flat_map f (g a)) l.
Proof.
  induction l as [|a l IH]; [reflexivity|].
  cbn [flat_map]. rewrite flat_map_app, IH. reflexivity.
Qed.

Lemma flat_map_ext_in (A B : Type) (f g : A -> list B) (l : list A) :
  (forall a, In a l -> f a = g a) -> flat_map f l = flat_map g l.
Proof.
  induction l as [|a l IH]; intro Hfg; [reflexivity|].
  cbn [flat_map]. rewrite (Hfg a (or_introl eq_refl)), IH; [reflexivity|].
  intros b Hb. apply Hfg. right. exact Hb.
Qed.

Lemma flat_map_nil (A B : Type) (f : A -> list B) (l : list A) :
  (forall a, In a l -> f a = []) -> flat_map f l = [].
Proof.
  induction l as [|a l IH]; intro Hf; [reflexivity|].
  cbn [flat_map]. rewrite (Hf a (or_introl eq_refl)), IH; [reflexivity|].
  intros b Hb. apply Hf. right. exact Hb.
Qed.

(** Below a path node nothing is collected. *)
Lemma nothing_below_a_path (n : Node) (ancestors : list Node) :
  forallb (fun a => match path_data a with Some _ => false | None => true end)
          ancestors = false ->
  flat_map first_path_data (nodes_in_order ancestors n) = [].
Proof.
  revert ancestors.
  induction n as [|tagName properties children IH] using Node_induction;
    intros ancestors Hanc; cbn [nodes_in_order flat_map].
  - unfold first_path_data at 1. cbn [fst snd]. rewrite Hanc.
    destruct (path_data TextNode); reflexivity.
  - unfold first_path_data at 1. cbn [fst snd]. rewrite Hanc.
    rewrite flat_map_flat_map.
    rewrite flat_map_nil.
    + destruct (path_data _); reflexivity.
    + intros [m | s] Hm; [|reflexivity]. apply IH; [exact Hm|].
      cbn [forallb]. rewrite Hanc. apply andb_false_r.
Qed.

(** [getPathDs] collects the path data of the first path node of each
    branch, in the order of the document. *)
Lemma getPathDs_first_paths (n : Node) (ancestors : list Node) :
  forallb (fun a => match path_data a with Some _ => false | None => true end)
          ancestors = true ->
  getPathDs n = flat_map first_path_data (nodes_in_order ancestors n).
Proof.
  revert ancestors.
  induction n as [|tagName properties children IH] using Node_induction;
    intros ancestors Hanc; cbn [nodes_in_order flat_map getPathDs].
  - reflexivity.
  - unfold first_path_data at 1. cbn [fst snd]. rewrite Hanc.
    rewrite flat_map_flat_map, path_data_element.
    destruct (elementNodeToPathD tagName properties) as [d|] eqn:Ed.
    + rewrite flat_map_nil; [reflexivity|].
      intros [m | s] Hm; [|reflexivity]. apply nothing_below_a_path.
      cbn [forallb]. rewrite path_data_element, Ed. reflexivity.
    + cbn [app]. apply flat_map_ext_in.
      intros [m | s] Hm; [|reflexivity]. apply IH; [exact Hm|].
      cbn [forallb]. rewrite path_data_element, Ed, Hanc. reflexivity.
Qed.

(** ** The declared extent *)

(** The chunks of [getViewBox] are the words of the string, but for a
    string of white space only, which gives one empty chunk. *)
Lemma viewBox_chunks_words (s : string) :
  viewBox_chunks s
  = match words s with
    | [] => [EmptyString]
    | w :: ws => w :: ws
    end.
Proof.
  unfold viewBox_chunks, replaceAll_spaces.
  rewrite <- (words_trimStart s), <- (words_trimEnd (trimStart s)).
  fold (trim s). rewrite <- (trimStart_trim s) at 1.
  unfold trim at 1 2.
  destruct (trimEnd_cases (trimStart s)) as [[Hr _] | (Hend & _)].
  - rewrite Hr. reflexivity.
  - fold (trim s) in *. rewrite (chunks_words _ Hend).
    destruct (words (trim s)) eqn:Ew; [|reflexivity].
    exfalso. apply words_blank in Ew.
    clear - Hend Ew. induction (trim s) as [|c t IH]; [discriminate|].
    cbn [all_chars] in Ew. apply andb_true_iff in Ew. destruct Ew as [Ec Ht].
    destruct t; [cbn in Hend; rewrite Ec in Hend; discriminate|].
    apply IH; assumption.
Qed.

Lemma four_chunks_four_words (s a b c d : string) :
  viewBox_chunks s = [a; b; c; d] <-> words s = [a; b; c; d].
Proof.
  rewrite viewBox_chunks_words.
  destruct (words s) as [|w ws]; split; intro Heq; try discriminate Heq; exact Heq.
Qed.

Lemma viewBox_string_declares (root : RootNode) (s : string) :
  viewBox_string root = Some s <-> declares_extent root s.
Proof.
  unfold viewBox_string, declares_extent. split.
  - destruct (children0 root) as [|tagName [properties|] children]; try discriminate.
    destruct (property "viewBox" properties) as [[s' | x]|] eqn:Ep; try discriminate.
    intro Heq. injection Heq as ->. exists tagName, properties, children. auto.
  - intros (tagName & properties & children & -> & ->). reflexivity.
Qed.

Section ExtentFacts.
Context `{MathLib} `{Parsers}.

Lemma getViewBox_Some (root : RootNode) (box : Rect) :
  getViewBox root = Some box <->
  exists (s : string) (l t r b : num),
    declares_extent root s /\ four_numbers s l t r b
    /\ box = {| Rect.x := l; Rect.y := t;
                Rect.width := r - l; Rect.height := b - t |}.
Proof.
  unfold getViewBox, four_numbers, parseable, tryParseFloat. split.
  - destruct (viewBox_string root) as [s|] eqn:Es; [|discriminate].
    apply viewBox_string_declares in Es.
    destruct (viewBox_chunks s) as [|ls [|ts [|rs [|bs [|]]]]] eqn:Ec;
      try discriminate.
    apply four_chunks_four_words in Ec.
    destruct (is_nan (parseFloat ls)) eqn:E1; cbn [negb]; [discriminate|].
    destruct (is_nan (parseFloat ts)) eqn:E2; cbn [negb]; [discriminate|].
    destruct (is_nan (parseFloat rs)) eqn:E3; cbn [negb]; [discriminate|].
    destruct (is_nan (parseFloat bs)) eqn:E4; cbn [negb]; [discriminate|].
    intro Heq. injection Heq as <-.
    exists s, (parseFloat ls), (parseFloat ts), (parseFloat rs), (parseFloat bs).
    split; [exact Es|]. split; [|reflexivity].
    exists ls, ts, rs, bs. repeat split; auto.
  - intros (s & l & t & r & b & Hs & (ls & ts & rs & bs & Hw & E1 & E2 & E3 & E4
                                      & -> & -> & -> & ->) & ->).
    apply viewBox_string_declares in Hs. rewrite Hs.
    apply four_chunks_four_words in Hw. rewrite Hw.
    rewrite E1, E2, E3, E4. reflexivity.
Qed.

Lemma declares_extent_unique (root : RootNode) (s s' : string) :
  declares_extent root s -> declares_extent root s' -> s = s'.
Proof.
  intros Hs Hs'. apply viewBox_string_declares in Hs, Hs'. congruence.
Qed.

Lemma getViewBox_None (root : RootNode) :
  getViewBox root = None <-> extent_absent root \/ extent_malformed root.
Proof.
  unfold extent_absent, extent_malformed. split.
  - intro Hnone. destruct (viewBox_string root) as [s|] eqn:Es.
    + right. exists s. split; [apply viewBox_string_declares; exact Es|].
      intros (l & t & r & b & Hfour).
      assert (Hsome : getViewBox root
                      = Some {| Rect.x := l; Rect.y := t;
                                Rect.width := r - l; Rect.height := b - t |}).
      { apply getViewBox_Some. exists s, l, t, r, b.
        split; [apply viewBox_string_declares; exact Es | auto]. }
      congruence.
    + left. intros s Hs. apply viewBox_string_declares in Hs. congruence.
  - intros [Habs | (s & Hs & Hnot)].
    + destruct (getViewBox root) as [box|] eqn:Eb; [|reflexivity].
      exfalso. apply getViewBox_Some in Eb.
      destruct Eb as (s & _ & _ & _ & _ & Hs & _). exact (Habs s Hs).
    + destruct (getViewBox root) as [box|] eqn:Eb; [|reflexivity].
      exfalso. apply getViewBox_Some in Eb.
      destruct Eb as (s' & l & t & r & b & Hs' & Hfour & _).
      rewrite (declares_extent_unique Hs Hs') in Hnot.
      apply Hnot. exists l, t, r, b. exact Hfour.
Qed.

Lemma findRects_None (root : RootNode) :
  findRects root = None <-> path_data_unparsable root.
Proof.
  unfold findRects, path_data_unparsable, first_paths.
  rewrite findRects_loop_None.
  rewrite <- (getPathDs_first_paths (children0 root) []) by reflexivity.
  reflexivity.
Qed.
End ExtentFacts.

(** ** The failures and the result of a document *)



(** X19.  [parseSvg] succeeds exactly when the markup parses, the data of
    the first path node of every branch parses, and the declared extent is
    four words that parse as numbers of which the first two are zero.  Its
    rectangles are then those of these paths, path after path in the order
    of the document, and its width and height are the third and the fourth
    number of the extent. *)
Theorem X19_parseSvg_result `{MathLib} `{Parsers} (svg : string) (result : Svg) :
  parseSvg svg = Some result <->
  exists (root : RootNode) (paths : list (list Command)) (s : string)
         (l t r b : num),
    svgParser_parse svg = Some root
    /\ map svgPathParser_parseSVG (first_paths (children0 root)) = map Some paths
    /\ declares_extent root s
    /\ four_numbers s l t r b
    /\ eqb l (of_Z 0) = true /\ eqb t (of_Z 0) = true
    /\ svg_rects result = flat_map pathToRects paths
    /\ svg_width result = r - l /\ svg_height result = b - t
    /\ eqb (svg_width result) r = true /\ eqb (svg_height result) b = true.
Proof.
  unfold parseSvg, first_paths. split.
  - destruct (svgParser_parse svg) as [root|]; [|discriminate].
    unfold findRects.
    destruct (findRects_loop (getPathDs (children0 root)) []) as [rects|] eqn:Erects;
      [|discriminate].
    destruct (getViewBox root) as [box|] eqn:Ebox; [|discriminate].
    apply findRects_loop_Some in Erects. destruct Erects as (paths & Hpaths & ->).
    rewrite (getPathDs_first_paths (children0 root) []) in Hpaths by reflexivity.
    apply getViewBox_Some in Ebox.
    destruct Ebox as (s & l & t & r & b & Hs & Hfour & ->).
    cbn [Rect.x Rect.y Rect.width Rect.height].
    destruct (eqb l (of_Z 0)) eqn:El; [|discriminate].
    destruct (eqb t (of_Z 0)) eqn:Et; [|discriminate].
    cbn [negb orb]. intro Heq. injection Heq as <-.
    exists root, paths, s, l, t, r, b. cbn [svg_rects svg_width svg_height app].
    pose proof Hfour as (ls & ts & rs & bs & _ & _ & _ & Hrs & Hbs & _ & _ & -> & ->).
    repeat split; auto; apply sub_zero_eqb; assumption.
  - intros (root & paths & s & l & t & r & b & -> & Hpaths & Hs & Hfour & El & Et
            & Hrects & Hwidth & Hheight & _).
    rewrite <- (getPathDs_first_paths (children0 root) []) in Hpaths by reflexivity.
    unfold findRects. rewrite (findRects_loop_paths _ _ [] Hpaths).
    assert (Hbox : getViewBox root
                   = Some {| Rect.x := l; Rect.y := t;
                             Rect.width := r - l; Rect.height := b - t |}).
    { apply getViewBox_Some. exists s, l, t, r, b. auto. }
    rewrite Hbox. cbn [Rect.x Rect.y Rect.width Rect.height].
    rewrite El, Et. cbn [negb orb app].
    destruct result as [rects width height].
    cbn [svg_rects svg_width svg_height] in *. subst. reflexivity.
Qed.
